(** * A leftist-heap priority queue (src/priority_queue.hpp)

    The C++ class [sjtu::priority_queue<T, Compare>] keeps a leftist heap of
    heap-allocated [Node]s and melds such heaps in place.  The embedding
    below keeps the pointer structure: nodes live in a store indexed by
    addresses, queue objects live in a second store indexed by their own
    addresses (so that [this == &other] can be tested), and every member
    function is a computation in a state-and-exception monad.  An exception
    leaves the store as it is at the moment of the throw: nothing is rolled
    back by the monad, so the exception-safety statements are statements
    about the code. *)

From stdpp Require Import gmap list sorting.
From Stdlib Require Import ZArith Lia.

Set Warnings "-clear-no-such-hyp".
Local Open Scope Z_scope.

(** ** Machine integers *)

(** [std::size_t] is taken to be 64 bits wide; its arithmetic wraps. *)
Definition size_t_modulus : Z := 2 ^ 64.
Definition wrap_size_t (z : Z) : Z := z mod size_t_modulus.

(** [int] is taken to be 32 bits wide, two's complement; an overflow,
    which C++ leaves undefined, is taken to wrap.  (No rank ever comes near
    the bound: see [leftist_rank_small].) *)
Definition wrap_int (z : Z) : Z := (z + 2 ^ 31) mod 2 ^ 32 - 2 ^ 31.

(** ** Addresses *)

(** Addresses of nodes and of queue objects.  A [Node *] is [None] for
    [nullptr] and [Some l] otherwise. *)
Abbreviation loc := positive (only parsing).
Abbreviation handle := positive (only parsing).
Abbreviation ptr := (option positive) (only parsing).

(** ** Outcomes *)

(** What a call can end in: a normal return, a C++ exception, undefined
    behaviour (a null or dangling dereference, a dead object), or the
    recursion budget of the model running out. *)
Inductive outcome (X A : Type) : Type :=
| Ok (a : A)
| Throw (e : X)
| Fault
| OutOfFuel.
Arguments Ok {X A} a.
Arguments Throw {X A} e.
Arguments Fault {X A}.
Arguments OutOfFuel {X A}.

(** ** The comparator *)

(** The template parameters: the element type [T] and the comparator type
    [Compare], whose values are comparator states.  A comparator comes with
    its call operator, which returns a [bool] or throws an exception of
    some type [E], and with the value-initialised comparator [Compare{}]. *)
Class Comparator (T E Compare : Type) : Type := {
  invoke : Compare → T → T → E + bool;
  default_comp : Compare
}.

Section Model.

Context {T E Compare : Type} {cmp : Comparator T E Compare}.

(** Modelled from the spec: the header exceptions.hpp, which declares
    [container_is_empty], is not among the sources; the spec has it as the
    one error the component raises itself (its [EmptyQueue] condition), so
    it is an exception of its own here.  The other exceptions that can
    leave the component are [std::bad_alloc] out of [new] and whatever the
    comparator throws, passed on as it is. *)
Inductive exn : Type :=
| container_is_empty
| bad_alloc
| comp_exn (e : E).

(** ** Data *)

(** [struct Node]. *)
Record Node : Type := mkNode {
  val : T;
  left : ptr;
  right : ptr;
  dist : Z
}.

Definition set_left (n : Node) (p : ptr) : Node :=
  mkNode (val n) p (right n) (dist n).
Definition set_right (n : Node) (p : ptr) : Node :=
  mkNode (val n) (left n) p (dist n).
Definition set_dist (n : Node) (d : Z) : Node :=
  mkNode (val n) (left n) (right n) d.

(** The data members of a [priority_queue] object. *)
Record pq : Type := mkPq {
  root : ptr;
  cnt : Z;
  comp : Compare
}.

Definition set_root (q : pq) (p : ptr) : pq := mkPq p (cnt q) (comp q).
Definition set_cnt (q : pq) (c : Z) : pq := mkPq (root q) c (comp q).
Definition set_comp (q : pq) (c : Compare) : pq := mkPq (root q) (cnt q) c.

(** The program state: the free store of nodes, the number of nodes the
    free store can hold ([new] throws [bad_alloc] when it is full), the live
    queue objects, and the log of the comparator calls made so far (most
    recent call first). *)
Record state : Type := mkState {
  mem : gmap positive Node;
  cap : nat;
  queues : gmap positive pq;
  calls : list (T * T)
}.

Definition with_mem (s : state) (m : gmap positive Node) : state :=
  mkState m (cap s) (queues s) (calls s).
Definition with_queues (s : state) (qs : gmap positive pq) : state :=
  mkState (mem s) (cap s) qs (calls s).
Definition with_calls (s : state) (cs : list (T * T)) : state :=
  mkState (mem s) (cap s) (queues s) cs.

(** ** The state-and-exception monad *)

Definition M (A : Type) : Type := state → outcome exn A * state.

Definition ret {A} (a : A) : M A := fun s => (Ok a, s).

Definition bind {A B} (c : M A) (k : A → M B) : M B :=
  fun s =>
    match c s with
    | (Ok a, s') => k a s'
    | (Throw e, s') => (Throw e, s')
    | (Fault, s') => (Fault, s')
    | (OutOfFuel, s') => (OutOfFuel, s')
    end.

Definition throw {A} (e : exn) : M A := fun s => (Throw e, s).
Definition fault {A} : M A := fun s => (Fault, s).
Definition out_of_fuel {A} : M A := fun s => (OutOfFuel, s).

(** [try { body } catch (...) { handler }]: the handler runs in the state
    the body left behind. *)
Definition try_catch {A} (body : M A) (handler : exn → M A) : M A :=
  fun s =>
    match body s with
    | (Throw e, s') => handler e s'
    | r => r
    end.

Notation "x <- c ;; k" := (bind c (fun x => k))
  (at level 100, c at next level, right associativity).
Notation "c ;;; k" := (bind c (fun _ => k))
  (at level 100, right associativity).

(** ** Primitive actions *)

(** Reading [*p]. *)
Definition load (p : ptr) : M Node :=
  fun s =>
    match p with
    | None => (Fault, s)
    | Some l =>
        match mem s !! l with
        | Some n => (Ok n, s)
        | None => (Fault, s)
        end
    end.

(** Writing [*p]. *)
Definition store (p : ptr) (n : Node) : M unit :=
  fun s =>
    match p with
    | None => (Fault, s)
    | Some l =>
        match mem s !! l with
        | Some _ => (Ok tt, with_mem s (<[l := n]> (mem s)))
        | None => (Fault, s)
        end
    end.

(** [new Node(v)], with the constructor of line 22: no children, [dist]
    one.  Allocation and the copy of the value are one step that either
    yields a fresh node or throws and leaves nothing behind. *)
Definition new_Node (v : T) : M ptr :=
  fun s =>
    if decide (size (mem s) < cap s)%nat then
      let l := fresh (dom (mem s)) in
      (Ok (Some l), with_mem s (<[l := mkNode v None None 1]> (mem s)))
    else (Throw bad_alloc, s).

(** [delete p]; deleting [nullptr] does nothing. *)
Definition delete_Node (p : ptr) : M unit :=
  fun s =>
    match p with
    | None => (Ok tt, s)
    | Some l =>
        match mem s !! l with
        | Some _ => (Ok tt, with_mem s (delete l (mem s)))
        | None => (Fault, s)
        end
    end.

(** One call [c(a, b)] of a comparator, logged. *)
Definition call_comp (c : Compare) (a b : T) : M bool :=
  fun s =>
    let s' := with_calls s ((a, b) :: calls s) in
    match invoke c a b with
    | inr r => (Ok r, s')
    | inl e => (Throw (comp_exn e), s')
    end.

(** Reading and writing the members of the queue object at a handle. *)
Definition get_queue (h : handle) : M pq :=
  fun s =>
    match queues s !! h with
    | Some q => (Ok q, s)
    | None => (Fault, s)
    end.

Definition put_queue (h : handle) (q : pq) : M unit :=
  fun s =>
    match queues s !! h with
    | Some _ => (Ok tt, with_queues s (<[h := q]> (queues s)))
    | None => (Fault, s)
    end.

(** ** Private member functions *)

(** [npl], line 29. *)
Definition npl (x : ptr) : M Z :=
  match x with
  | None => ret 0
  | Some _ => n <- load x ;; ret (dist n)
  end.

(** Lines 39-43 of [meld]: what is done to the node [a] once the recursive
    call has returned [nr]. *)
Definition meld_link (a nr : ptr) : M ptr :=
  n <- load a ;;
  store a (set_right n nr) ;;;
  n <- load a ;;
  dl <- npl (left n) ;;
  dr <- npl (right n) ;;
  (if dl <? dr
   then store a (set_right (set_left n (right n)) (left n))
   else ret tt) ;;;
  n <- load a ;;
  dr <- npl (right n) ;;
  store a (set_dist n (wrap_int (dr + 1))) ;;;
  ret a.

(** [meld], lines 32-44.  [this] is the queue whose comparator is used. *)
Fixpoint meld (fuel : nat) (this : handle) (a b : ptr) : M ptr :=
  match fuel with
  | O => out_of_fuel
  | S fuel' =>
      match a, b with
      | None, _ => ret b
      | _, None => ret a
      | Some _, Some _ =>
          na <- load a ;;
          nb <- load b ;;
          q <- get_queue this ;;
          less <- call_comp (comp q) (val na) (val nb) ;;
          let a' := if less : bool then b else a in
          let b' := if less : bool then a else b in
          n <- load a' ;;
          nr <- meld fuel' this (right n) b' ;;
          meld_link a' nr
      end
  end.

(** [destroy], lines 46-51. *)
Fixpoint destroy (fuel : nat) (x : ptr) : M unit :=
  match fuel with
  | O => out_of_fuel
  | S fuel' =>
      match x with
      | None => ret tt
      | Some _ =>
          n <- load x ;;
          destroy fuel' (left n) ;;;
          n <- load x ;;
          destroy fuel' (right n) ;;;
          delete_Node x
      end
  end.

(** [clone], lines 53-60.  Nothing catches what [new] or a recursive call
    throws. *)
Fixpoint clone (fuel : nat) (x : ptr) : M ptr :=
  match fuel with
  | O => out_of_fuel
  | S fuel' =>
      match x with
      | None => ret None
      | Some _ =>
          nx <- load x ;;
          n <- new_Node (val nx) ;;
          nx <- load x ;;
          nn <- load n ;;
          store n (set_dist nn (dist nx)) ;;;
          nx <- load x ;;
          cl <- clone fuel' (left nx) ;;
          nn <- load n ;;
          store n (set_left nn cl) ;;;
          nx <- load x ;;
          cr <- clone fuel' (right nx) ;;
          nn <- load n ;;
          store n (set_right nn cr) ;;;
          ret n
      end
  end.

(** ** Object lifetime *)

(** Storage for a new queue object: [this] must not be a live object. *)
Definition begin_lifetime (this : handle) (q : pq) : M unit :=
  fun s =>
    match queues s !! this with
    | Some _ => (Fault, s)
    | None => (Ok tt, with_queues s (<[this := q]> (queues s)))
    end.

Definition end_lifetime (this : handle) : M unit :=
  fun s =>
    match queues s !! this with
    | Some _ => (Ok tt, with_queues s (delete this (queues s)))
    | None => (Fault, s)
    end.

(** The address of a local variable of queue type. *)
Definition local_handle : M positive :=
  fun s => (Ok (fresh (dom (queues s))), s).

Definition modify_queue (this : handle) (f : pq → pq) : M unit :=
  q <- get_queue this ;; put_queue this (f q).

(** ** Public member functions *)

(** The public member functions carry the prefix [pq_]: [size], [empty],
    [top] and [merge] are names of the library of finite maps. *)

(** The default constructor, line 66, with the member initialisers of
    lines 25-27. *)
Definition pq_default (this : handle) : M unit :=
  begin_lifetime this (mkPq None 0 default_comp).

(** The copy constructor, lines 72-74.  When the body throws, the object
    never comes to life and its destructor does not run. *)
Definition pq_copy (fuel : nat) (this other : handle) : M unit :=
  o <- get_queue other ;;
  begin_lifetime this (mkPq None (cnt o) (comp o)) ;;;
  try_catch
    (o <- get_queue other ;;
     r <- clone fuel (root o) ;;
     modify_queue this (fun q => set_root q r))
    (fun e => end_lifetime this ;;; throw e).

(** The destructor, line 79. *)
Definition pq_dtor (fuel : nat) (this : handle) : M unit :=
  q <- get_queue this ;;
  destroy fuel (root q) ;;;
  end_lifetime this.

(** [operator=], lines 86-96; the local [tmp] is destroyed on return. *)
Definition pq_assign (fuel : nat) (this other : handle) : M unit :=
  if decide (this = other) then ret tt
  else
    tmp <- local_handle ;;
    pq_copy fuel tmp other ;;;
    q <- get_queue this ;;
    let tr := root q in
    t <- get_queue tmp ;;
    modify_queue this (fun q => set_root q (root t)) ;;;
    modify_queue tmp (fun t => set_root t tr) ;;;
    q <- get_queue this ;;
    let tc := cnt q in
    t <- get_queue tmp ;;
    modify_queue this (fun q => set_cnt q (cnt t)) ;;;
    modify_queue tmp (fun t => set_cnt t tc) ;;;
    o <- get_queue other ;;
    modify_queue this (fun q => set_comp q (comp o)) ;;;
    pq_dtor fuel tmp.

(** [size], line 151. *)
Definition pq_size (this : handle) : M Z :=
  q <- get_queue this ;; ret (cnt q).

(** [empty], line 157. *)
Definition pq_empty (this : handle) : M bool :=
  q <- get_queue this ;; ret (cnt q =? 0).

(** [top], lines 103-106. *)
Definition pq_top (this : handle) : M T :=
  e <- pq_empty this ;;
  if e : bool then throw container_is_empty
  else
    q <- get_queue this ;;
    n <- load (root q) ;;
    ret (val n).

(** [push], lines 112-125.  The local [n] is [nullptr] until [new] has
    returned and the new node from then on, so the handler is written out
    for the two parts of the [try] block. *)
Definition pq_push (fuel : nat) (this : handle) (e : T) : M unit :=
  n <- try_catch (new_Node e)
         (fun ex => delete_Node None ;;; throw ex) ;;
  try_catch
    (q <- get_queue this ;;
     new_root <- meld fuel this (root q) n ;;
     modify_queue this (fun q => set_root q new_root) ;;;
     modify_queue this (fun q => set_cnt q (wrap_size_t (cnt q + 1))))
    (fun ex => delete_Node n ;;; throw ex).

(** [pop], lines 131-145. *)
Definition pq_pop (fuel : nat) (this : handle) : M unit :=
  e <- pq_empty this ;;
  if e : bool then throw container_is_empty
  else
    q <- get_queue this ;;
    let old := root q in
    n <- load (root q) ;;
    let L := left n in
    n <- load (root q) ;;
    let R := right n in
    try_catch
      (new_root <- meld fuel this L R ;;
       modify_queue this (fun q => set_root q new_root) ;;;
       modify_queue this (fun q => set_cnt q (wrap_size_t (cnt q - 1))) ;;;
       delete_Node old)
      (fun ex => throw ex).

(** [merge], lines 165-179. *)
Definition pq_merge (fuel : nat) (this other : handle) : M unit :=
  if decide (this = other) then ret tt
  else
    q <- get_queue this ;;
    let r1 := root q in
    o <- get_queue other ;;
    let r2 := root o in
    try_catch
      (new_root <- meld fuel this r1 r2 ;;
       modify_queue this (fun q => set_root q new_root) ;;;
       o <- get_queue other ;;
       modify_queue this (fun q => set_cnt q (wrap_size_t (cnt q + cnt o))) ;;;
       modify_queue other (fun o => set_root o None) ;;;
       modify_queue other (fun o => set_cnt o 0))
      (fun ex => throw ex).

(** ** Programs over the public interface *)

(** One call of a public member function by a client. *)
Inductive call : Type :=
| CDefault (this : handle)
| CCopy (this other : handle)
| CDtor (this : handle)
| CAssign (this other : handle)
| CTop (this : handle)
| CPush (this : handle) (e : T)
| CPop (this : handle)
| CSize (this : handle)
| CEmpty (this : handle)
| CMerge (this other : handle).

Inductive value : Type :=
| VUnit
| VElem (x : T)
| VSize (z : Z)
| VBool (b : bool).

Definition run (fuel : nat) (c : call) : M value :=
  match c with
  | CDefault this => pq_default this ;;; ret VUnit
  | CCopy this other => pq_copy fuel this other ;;; ret VUnit
  | CDtor this => pq_dtor fuel this ;;; ret VUnit
  | CAssign this other => pq_assign fuel this other ;;; ret VUnit
  | CTop this => x <- pq_top this ;; ret (VElem x)
  | CPush this e => pq_push fuel this e ;;; ret VUnit
  | CPop this => pq_pop fuel this ;;; ret VUnit
  | CSize this => z <- pq_size this ;; ret (VSize z)
  | CEmpty this => b <- pq_empty this ;; ret (VBool b)
  | CMerge this other => pq_merge fuel this other ;;; ret VUnit
  end.

(** A program starts with an empty free store of some capacity, no queue
    objects and an empty log.  Every node has an address of its own, and an
    address is no wider than [size_t], so the capacity is below
    [size_t_modulus]. *)
Definition initial (capacity : nat) : state := mkState ∅ capacity ∅ [].

(** A client calls member functions on live objects only, and constructs
    objects in storage that holds no live object. *)
Definition live (s : state) (h : handle) : Prop := is_Some (queues s !! h).

Definition valid_call (s : state) (c : call) : Prop :=
  match c with
  | CDefault this => ¬ live s this
  | CCopy this other => ¬ live s this ∧ live s other
  | CDtor this | CTop this | CPush this _ | CPop this
  | CSize this | CEmpty this => live s this
  | CAssign this other | CMerge this other => live s this ∧ live s other
  end.

(** The states a client can reach: valid calls, each run to completion
    (normally or by an exception). *)
Inductive reachable : state → Prop :=
| reachable_initial capacity :
    Z.of_nat capacity < size_t_modulus →
    reachable (initial capacity)
| reachable_call s fuel c r s' :
    reachable s →
    valid_call s c →
    run fuel c s = (r, s') →
    r ≠ OutOfFuel →
    reachable s'.

(** Pushing a list of elements, first to last, and popping [n] times with a
    [top] before each [pop]. *)
Fixpoint push_all (fuel : nat) (this : handle) (xs : list T) : M unit :=
  match xs with
  | [] => ret tt
  | x :: xs' => pq_push fuel this x ;;; push_all fuel this xs'
  end.

Fixpoint drain (fuel : nat) (this : handle) (n : nat) : M (list T) :=
  match n with
  | O => ret []
  | S n' =>
      x <- pq_top this ;;
      pq_pop fuel this ;;;
      xs <- drain fuel this n' ;;
      ret (x :: xs)
  end.

(** A client program: a list of calls, run one after the other whatever
    they end in; and the condition that every call is valid when it is made
    and runs to completion. *)
Fixpoint runs (fuel : nat) (cs : list call) (s : state) : state :=
  match cs with
  | [] => s
  | c :: cs' => runs fuel cs' (snd (run fuel c s))
  end.

Fixpoint well_run (fuel : nat) (cs : list call) (s : state) : Prop :=
  match cs with
  | [] => True
  | c :: cs' =>
      valid_call s c ∧ fst (run fuel c s) ≠ OutOfFuel ∧
      well_run fuel cs' (snd (run fuel c s))
  end.

(** ** The heap as a tree *)

(** The nodes that can be reached from a pointer. *)
Inductive reaches (m : gmap positive Node) : ptr → positive → Prop :=
| reaches_here l :
    reaches m (Some l) l
| reaches_left l n l' :
    m !! l = Some n → reaches m (left n) l' → reaches m (Some l) l'
| reaches_right l n l' :
    m !! l = Some n → reaches m (right n) l' → reaches m (Some l) l'.

(** The values stored in the nodes of the queue at [h]. *)
Definition contains (s : state) (h : handle) (x : T) : Prop :=
  ∃ q l n, queues s !! h = Some q ∧ reaches (mem s) (root q) l ∧
           mem s !! l = Some n ∧ val n = x.

(** A tree of nodes, each with its address and its fields. *)
Inductive tree : Type :=
| Leaf
| Nd (l : positive) (v : T) (d : Z) (tl tr : tree).

Definition ptr_of (t : tree) : ptr :=
  match t with
  | Leaf => None
  | Nd l _ _ _ _ => Some l
  end.

(** [npl] of the root. *)
Definition rank (t : tree) : Z :=
  match t with
  | Leaf => 0
  | Nd _ _ d _ _ => d
  end.

Fixpoint locs (t : tree) : list positive :=
  match t with
  | Leaf => []
  | Nd l _ _ tl tr => l :: locs tl ++ locs tr
  end.

Fixpoint elems (t : tree) : list T :=
  match t with
  | Leaf => []
  | Nd _ v _ tl tr => v :: elems tl ++ elems tr
  end.

Definition tsize (t : tree) : nat := length (locs t).

(** The free store holds the tree [t]: every node of [t] is at its address
    with its fields. *)
Fixpoint shape (m : gmap positive Node) (t : tree) : Prop :=
  match t with
  | Leaf => True
  | Nd l v d tl tr =>
      m !! l = Some (mkNode v (ptr_of tl) (ptr_of tr) d) ∧
      shape m tl ∧ shape m tr
  end.

(** The queue at [h] has the tree [t]. *)
Definition tree_of (s : state) (h : handle) (t : tree) : Prop :=
  ∃ q, queues s !! h = Some q ∧ root q = ptr_of t ∧ shape (mem s) t ∧
       NoDup (locs t).

(** The leftist property and the consistency of the ranks. *)
Fixpoint leftist (t : tree) : Prop :=
  match t with
  | Leaf => True
  | Nd _ _ d tl tr =>
      rank tr ≤ rank tl ∧ d = rank tr + 1 ∧ leftist tl ∧ leftist tr
  end.

(** [meld] never puts [y] above [x] unless the comparator has returned
    [false] for [(y, x)] or [true] for [(x, y)]: [x] is not above [y] in
    the order of the comparator [c]. *)
Definition not_above (c : Compare) (x y : T) : Prop :=
  invoke c y x = inr false ∨ invoke c x y = inr true.

Definition root_not_above (c : Compare) (t : tree) (v : T) : Prop :=
  match t with
  | Leaf => True
  | Nd _ w _ _ _ => not_above c w v
  end.

(** Heap order: no child is above its parent. *)
Fixpoint heap_ordered (c : Compare) (t : tree) : Prop :=
  match t with
  | Leaf => True
  | Nd _ v _ tl tr =>
      root_not_above c tl v ∧ root_not_above c tr v ∧
      heap_ordered c tl ∧ heap_ordered c tr
  end.

(** [meld] on trees.  [link] is [meld_link]. *)
Definition link (l : positive) (v : T) (tl nr : tree) : tree :=
  if rank tl <? rank nr
  then Nd l v (wrap_int (rank tl + 1)) nr tl
  else Nd l v (wrap_int (rank nr + 1)) tl nr.

Fixpoint meldT (fuel : nat) (c : Compare) (a b : tree) : outcome E tree :=
  match fuel with
  | O => OutOfFuel
  | S fuel' =>
      match a, b with
      | Leaf, _ => Ok b
      | _, Leaf => Ok a
      | Nd la va _ al ar, Nd lb vb _ bl br =>
          match invoke c va vb with
          | inl e => Throw e
          | inr true =>
              match meldT fuel' c br a with
              | Ok nr => Ok (link lb vb bl nr)
              | r => r
              end
          | inr false =>
              match meldT fuel' c ar b with
              | Ok nr => Ok (link la va al nr)
              | r => r
              end
          end
      end
  end.

(** The number of comparator calls [meld] makes at most on two leftist
    trees: none if one of them is empty, and otherwise one for every node
    of the two right spines but the last. *)
Definition meld_steps (a b : tree) : Z :=
  match a, b with
  | Leaf, _ | _, Leaf => 0
  | _, _ => rank a + rank b - 1
  end.

(** The outcome of [meld] that corresponds to an outcome of [meldT]. *)
Definition ptr_outcome (r : outcome E tree) : outcome exn ptr :=
  match r with
  | Ok t => Ok (ptr_of t)
  | Throw e => Throw (comp_exn e)
  | Fault => Fault
  | OutOfFuel => OutOfFuel
  end.

(** Two trees with the same values and ranks in the same places, at
    whatever addresses. *)
Fixpoint same_data (t t' : tree) : Prop :=
  match t, t' with
  | Leaf, Leaf => True
  | Nd _ v d tl tr, Nd _ v' d' tl' tr' =>
      v = v' ∧ d = d' ∧ same_data tl tl' ∧ same_data tr tr'
  | _, _ => False
  end.

(** ** The invariant *)

(** What holds of the tree of every queue. *)
Record good (t : tree) : Prop := mkGood {
  good_nodup : NoDup (locs t);
  good_leftist : leftist t;
  good_heap : heap_ordered default_comp t
}.

(** The queue object at [h] owns the tree [t]. *)
Record owns (s : state) (h : handle) (t : tree) : Prop := mkOwns {
  owns_queue :
    queues s !! h = Some (mkPq (ptr_of t) (Z.of_nat (tsize t)) default_comp);
  owns_shape : shape (mem s) t;
  owns_good : good t
}.

(** Every queue object owns a tree, and no two of them share a node; the
    free store is within its capacity. *)
Record inv (F : gmap positive tree) (s : state) : Prop := mkInv {
  inv_size : (size (mem s) ≤ cap s)%nat;
  inv_cap : Z.of_nat (cap s) < size_t_modulus;
  inv_dom : ∀ h, is_Some (queues s !! h) → is_Some (F !! h);
  inv_owns : ∀ h t, F !! h = Some t → owns s h t;
  inv_disj : ∀ h1 h2 t1 t2 l,
    h1 ≠ h2 → F !! h1 = Some t1 → F !! h2 = Some t2 →
    l ∈ locs t1 → l ∉ locs t2
}.

Definition wf (s : state) : Prop := ∃ F, inv F s.

(** ** Comparators that are orders *)

(** A strict weak order, as [Compare] is required to be. *)
Record strict_weak_order (less : T → T → bool) : Prop := mkSwo {
  swo_irrefl : ∀ x, less x x = false;
  swo_trans : ∀ x y z, less x y = true → less y z = true → less x z = true;
  swo_incomp : ∀ x y z,
    less x y = false → less y x = false →
    less y z = false → less z y = false →
    less x z = false ∧ less z x = false
}.

(** Whenever the comparator returns, it returns what [less] does. *)
Definition agrees (less : T → T → bool) : Prop :=
  ∀ c x y r, invoke c x y = inr r → r = less x y.

(** The comparator never throws and computes [less]. *)
Definition computes (less : T → T → bool) : Prop :=
  ∀ c x y, invoke c x y = inr (less x y).

(** ** What a call does to the count *)

Definition count_effect (c : call) (s s' : state) : Prop :=
  match c with
  | CPush h _ =>
      ∀ n, pq_size h s = (Ok n, s) → pq_size h s' = (Ok (n + 1), s')
  | CPop h =>
      ∀ n, pq_size h s = (Ok n, s) → pq_size h s' = (Ok (n - 1), s')
  | CMerge h o =>
      h ≠ o →
      ∀ n1 n2, pq_size h s = (Ok n1, s) → pq_size o s = (Ok n2, s) →
               pq_size h s' = (Ok (n1 + n2), s')
  | CCopy h o | CAssign h o =>
      ∀ n, pq_size o s = (Ok n, s) → pq_size h s' = (Ok n, s')
  | _ => True
  end.

(** A list in which no element is below a later one. *)
Definition descending (less : T → T → bool) (ys : list T) : Prop :=
  StronglySorted (λ a b, less a b = false) ys.

(** ** Calls during which the comparator throws *)

(** The comparator of [q] has thrown [x] in a call made between the states
    [s] and [s']. *)
Definition threw (q : pq) (s s' : state) (x : E) : Prop :=
  ∃ a b new, calls s' = new ++ calls s ∧ (a, b) ∈ new ∧
             invoke (comp q) a b = inl x.

(** The calls that change a queue through [meld]. *)
Definition melds_into (c : call) (this : handle) : Prop :=
  match c with
  | CPush h _ | CPop h | CMerge h _ => h = this
  | _ => False
  end.

(** A node that did not exist in [s] exists in [s'], while the queue
    objects and the nodes of [s] are in [s'] as they were: nothing points
    to that node. *)
Definition leaks (s s' : state) : Prop :=
  queues s' = queues s ∧ mem s ⊆ mem s' ∧
  ∃ l, mem s !! l = None ∧ is_Some (mem s' !! l).

(** ** Properties of computations *)

(** Two states that differ in the free store only. *)
Definition same_but_mem (s s' : state) : Prop :=
  cap s' = cap s ∧ queues s' = queues s ∧ calls s' = calls s.

(** Computations that read and write nodes and do nothing else: they do
    not throw, and they leave everything but the free store alone. *)
Definition quiet {A} (c : M A) : Prop :=
  ∀ s r s', c s = (r, s') →
    same_but_mem s s' ∧ (∀ e, r ≠ Throw e) ∧ r ≠ OutOfFuel.

(** Computations that throw no exception but those in [P]. *)
Definition throws_only {A} (P : exn → Prop) (c : M A) : Prop :=
  ∀ s e s', c s = (Throw e, s') → P e.

Definition from_comparator (e : exn) : Prop := ∃ x, e = comp_exn x.

(** ** More about calls *)

(** Computations that do not call the comparator, however they end. *)
Definition silent {A} (c : M A) : Prop :=
  ∀ s r s', c s = (r, s') → calls s' = calls s.


(** The queue objects a call can write to. *)
Definition touches (c : call) (h : handle) : Prop :=
  match c with
  | CDefault this | CCopy this _ | CDtor this | CAssign this _
  | CPush this _ | CPop this => h = this
  | CMerge this other => h = this ∨ h = other
  | CTop _ | CSize _ | CEmpty _ => False
  end.

(** The count of the queue at [h], zero if there is none. *)
Definition size_of (s : state) (h : handle) : Z :=
  match queues s !! h with
  | Some q => cnt q
  | None => 0
  end.

(** A bound on the number of comparator calls of a call made in the state
    [s]: logarithmic in the sizes of the queues for the calls that meld,
    zero for the others. *)
Definition comparison_bound (s : state) (c : call) : Z :=
  match c with
  | CPush h _ => Z.log2 (size_of s h + 1)
  | CPop h => 2 * Z.log2 (size_of s h)
  | CMerge h o => Z.log2 (size_of s h + 1) + Z.log2 (size_of s o + 1)
  | _ => 0
  end.

(** ** Garbage *)

(** The nodes of the trees of a family of queues, and their number. *)
Definition owned (F : gmap positive tree) : gset positive :=
  map_fold (λ _ t X, list_to_set (locs t) ∪ X) ∅ F.

Definition total (F : gmap positive tree) : nat :=
  map_fold (λ _ t n, (tsize t + n)%nat) 0%nat F.

(** Every node of the free store can be reached from the root of a live
    queue. *)
Definition garbage_free (s : state) : Prop :=
  ∀ l, is_Some (mem s !! l) →
       ∃ h q, queues s !! h = Some q ∧ reaches (mem s) (root q) l.

(** The calls that copy a queue, and the outcomes that are exceptions. *)
Definition copies (c : call) : bool :=
  match c with
  | CCopy _ _ | CAssign _ _ => true
  | _ => false
  end.

Definition throws {A} (r : outcome exn A) : bool :=
  match r with
  | Throw _ => true
  | _ => false
  end.

(** A client program none of whose copies ends in an exception. *)
Fixpoint no_failed_copy (fuel : nat) (cs : list call) (s : state) : bool :=
  match cs with
  | [] => true
  | c :: cs' =>
      negb (copies c && throws (fst (run fuel c s))) &&
      no_failed_copy fuel cs' (snd (run fuel c s))
  end.

(** ** Elements and their nodes *)

(** The addresses of the nodes of a tree, each with the value it holds. *)
Fixpoint cells (t : tree) : list (positive * T) :=
  match t with
  | Leaf => []
  | Nd l v _ tl tr => (l, v) :: cells tl ++ cells tr
  end.

(** The node at [l] holds [x] and can be reached from the root of the
    queue at [h]. *)
Definition holds (s : state) (h : handle) (l : positive) (x : T) : Prop :=
  ∃ q n, queues s !! h = Some q ∧ reaches (mem s) (root q) l ∧
         mem s !! l = Some n ∧ val n = x.

(** What a call that returns does to the places of the elements. *)
Definition place_effect (c : call) (s s' : state) : Prop :=
  match c with
  | CPush h e =>
      ∃ l0, mem s !! l0 = None ∧
            ∀ l x, holds s' h l x ↔ holds s h l x ∨ (l = l0 ∧ x = e)
  | CPop h =>
      ∃ q l0, queues s !! h = Some q ∧ root q = Some l0 ∧
              ∀ l x, holds s' h l x ↔ holds s h l x ∧ l ≠ l0
  | CMerge h o =>
      h ≠ o →
      (∀ l x, holds s' h l x ↔ holds s h l x ∨ holds s o l x) ∧
      (∀ l x, ¬ holds s' o l x)
  | _ => True
  end.

End Model.

(** * Two comparators on the integers, and some programs *)

Module Examples.

(** [std::less<int>], which has no state and never throws. *)
Definition Z_less : Comparator Z Empty_set unit :=
  {| invoke := λ _ a b, inr (a <? b); default_comp := tt |}.

(** A comparator that throws when one of its arguments is 13 and is
    [std::less<int>] otherwise (scenario 4 of the spec). *)
Definition Z_picky : Comparator Z unit unit :=
  {| invoke := λ _ a b,
       if (a =? 13) || (b =? 13) then inl tt else inr (a <? b);
     default_comp := tt |}.

(** A new queue in a free store with room for ten nodes. *)
Definition new_queue : @state Z unit :=
  runs (cmp := Z_less) 100 [CDefault 1%positive] (initial 10).

(** Scenario 1 of the spec: 5, 3, 8 and 1 pushed into a new queue. *)
Definition scenario1 : list (@call Z) :=
  [CDefault 1%positive; CPush 1%positive 5; CPush 1%positive 3;
   CPush 1%positive 8; CPush 1%positive 1].

Definition state1 : @state Z unit :=
  runs (cmp := Z_less) 100 scenario1 (initial 10).

(** Scenario 3 of the spec, up to the [merge]: a [pop] on the first queue,
    and 10 and 2 pushed into a second queue. *)
Definition scenario3 : list (@call Z) :=
  scenario1 ++
  [CPop 1%positive; CDefault 2%positive; CPush 2%positive 10;
   CPush 2%positive 2].

Definition state3 : @state Z unit :=
  runs (cmp := Z_less) 100 scenario3 (initial 10).

(** A queue that holds 5, with the comparator that throws on 13. *)
Definition picky_queue : @state Z unit :=
  runs (cmp := Z_picky) 100
    [CDefault 1%positive; CPush 1%positive 5] (initial 10).

(** A queue of two elements in a free store with room for three nodes,
    and a second, empty queue. *)
Definition tight_store : @state Z unit :=
  runs (cmp := Z_less) 100
    [CDefault 1%positive; CPush 1%positive 5; CPush 1%positive 3;
     CDefault 2%positive] (initial 3).

(** A queue of one element in a free store with room for one node. *)
Definition full_store : @state Z unit :=
  runs (cmp := Z_less) 100
    [CDefault 1%positive; CPush 1%positive 5] (initial 1).

(** Scenario 3 followed by a copy construction, a copy assignment, the
    destruction of the copy and a [pop]. *)
Definition copy_program : list (@call Z) :=
  scenario3 ++
  [CCopy 3%positive 1%positive; CAssign 2%positive 1%positive;
   CDtor 3%positive; CPop 2%positive].

End Examples.

(** * Reasoning about computations *)

Section Proofs.

Context {T E Compare : Type} {cmp : Comparator T E Compare}.

Local Abbreviation Node := (@Node T).
Local Abbreviation pq := (@pq Compare).
Local Abbreviation state := (@state T Compare).
Local Abbreviation exn := (@exn E).
Local Abbreviation M := (@M T E Compare).
Local Abbreviation tree := (@tree T).
Local Abbreviation call := (@call T).
Local Abbreviation value := (@value T).
Local Abbreviation ret := (ret (T:=T) (E:=E) (Compare:=Compare)).
Local Abbreviation bind := (bind (T:=T) (E:=E) (Compare:=Compare)).
Local Abbreviation throw := (throw (T:=T) (E:=E) (Compare:=Compare)).
Local Abbreviation fault := (fault (T:=T) (E:=E) (Compare:=Compare)).
Local Abbreviation out_of_fuel := (out_of_fuel (T:=T) (E:=E) (Compare:=Compare)).
Local Abbreviation try_catch := (try_catch (T:=T) (E:=E) (Compare:=Compare)).
Local Abbreviation load := (load (T:=T) (E:=E) (Compare:=Compare)).
Local Abbreviation store := (store (T:=T) (E:=E) (Compare:=Compare)).
Local Abbreviation new_Node := (new_Node (T:=T) (E:=E) (Compare:=Compare)).
Local Abbreviation delete_Node := (delete_Node (T:=T) (E:=E) (Compare:=Compare)).
Local Abbreviation call_comp := (call_comp (T:=T) (E:=E) (Compare:=Compare)).
Local Abbreviation get_queue := (get_queue (T:=T) (E:=E) (Compare:=Compare)).
Local Abbreviation put_queue := (put_queue (T:=T) (E:=E) (Compare:=Compare)).
Local Abbreviation npl := (npl (T:=T) (E:=E) (Compare:=Compare)).
Local Abbreviation meld_link := (meld_link (T:=T) (E:=E) (Compare:=Compare)).
Local Abbreviation meld := (meld (T:=T) (E:=E) (Compare:=Compare)).
Local Abbreviation destroy := (destroy (T:=T) (E:=E) (Compare:=Compare)).
Local Abbreviation clone := (clone (T:=T) (E:=E) (Compare:=Compare)).
Local Abbreviation begin_lifetime := (begin_lifetime (T:=T) (E:=E) (Compare:=Compare)).
Local Abbreviation end_lifetime := (end_lifetime (T:=T) (E:=E) (Compare:=Compare)).
Local Abbreviation local_handle := (local_handle (T:=T) (E:=E) (Compare:=Compare)).
Local Abbreviation modify_queue := (modify_queue (T:=T) (E:=E) (Compare:=Compare)).
Local Abbreviation pq_default := (pq_default (T:=T) (E:=E) (Compare:=Compare)).
Local Abbreviation pq_copy := (pq_copy (T:=T) (E:=E) (Compare:=Compare)).
Local Abbreviation pq_dtor := (pq_dtor (T:=T) (E:=E) (Compare:=Compare)).
Local Abbreviation pq_assign := (pq_assign (T:=T) (E:=E) (Compare:=Compare)).
Local Abbreviation pq_size := (pq_size (T:=T) (E:=E) (Compare:=Compare)).
Local Abbreviation pq_empty := (pq_empty (T:=T) (E:=E) (Compare:=Compare)).
Local Abbreviation pq_top := (pq_top (T:=T) (E:=E) (Compare:=Compare)).
Local Abbreviation pq_push := (pq_push (T:=T) (E:=E) (Compare:=Compare)).
Local Abbreviation pq_pop := (pq_pop (T:=T) (E:=E) (Compare:=Compare)).
Local Abbreviation pq_merge := (pq_merge (T:=T) (E:=E) (Compare:=Compare)).
Local Abbreviation run := (run (T:=T) (E:=E) (Compare:=Compare)).
Local Abbreviation push_all := (push_all (T:=T) (E:=E) (Compare:=Compare)).
Local Abbreviation drain := (drain (T:=T) (E:=E) (Compare:=Compare)).
Local Abbreviation count_effect :=
  (count_effect (T:=T) (E:=E) (Compare:=Compare)).
Local Abbreviation runs := (runs (T:=T) (E:=E) (Compare:=Compare)).
Local Abbreviation well_run := (well_run (T:=T) (E:=E) (Compare:=Compare)).
Local Abbreviation reachable :=
  (reachable (T:=T) (E:=E) (Compare:=Compare)).
Local Abbreviation same_but_mem :=
  (same_but_mem (T:=T) (Compare:=Compare)).
Local Abbreviation quiet := (quiet (T:=T) (E:=E) (Compare:=Compare)).
Local Abbreviation throws_only :=
  (throws_only (T:=T) (E:=E) (Compare:=Compare)).
Local Abbreviation silent := (silent (T:=T) (E:=E) (Compare:=Compare)).

Local Notation "x <- c ;; k" := (bind c (fun x => k))
  (at level 100, c at next level, right associativity).
Local Notation "c ;;; k" := (bind c (fun _ => k))
  (at level 100, right associativity).


Lemma bind_inv {A B} (c : M A) (k : A → M B) s r s' :
  bind c k s = (r, s') →
  (∃ a s1, c s = (Ok a, s1) ∧ k a s1 = (r, s')) ∨
  (∃ e, c s = (Throw e, s') ∧ r = Throw e) ∨
  (c s = (Fault, s') ∧ r = Fault) ∨
  (c s = (OutOfFuel, s') ∧ r = OutOfFuel).
Proof.
  unfold bind. destruct (c s) as [[a|e| |] s1]; intros H.
  - left. eauto.
  - right. left. inversion H; subst. eauto.
  - right. right. left. inversion H; subst. eauto.
  - right. right. right. inversion H; subst. eauto.
Qed.

Lemma bind_ok {A B} (c : M A) (k : A → M B) s a s1 :
  c s = (Ok a, s1) → bind c k s = k a s1.
Proof. unfold bind. intros ->. reflexivity. Qed.

Lemma bind_throw {A B} (c : M A) (k : A → M B) s e s1 :
  c s = (Throw e, s1) → bind c k s = (Throw e, s1).
Proof. unfold bind. intros ->. reflexivity. Qed.

Lemma bind_out_of_fuel {A B} (c : M A) (k : A → M B) s s1 :
  c s = (OutOfFuel, s1) → bind c k s = (OutOfFuel, s1).
Proof. unfold bind. intros ->. reflexivity. Qed.

Lemma try_catch_inv {A} (body : M A) (handler : exn → M A) s r s' :
  try_catch body handler s = (r, s') →
  (∃ e s1, body s = (Throw e, s1) ∧ handler e s1 = (r, s')) ∨
  (body s = (r, s') ∧ ∀ e, r ≠ Throw e).
Proof.
  unfold try_catch. destruct (body s) as [[a|e| |] s1]; intros H.
  - right. inversion H; subst. split; [done|]. intros e; discriminate.
  - left. eauto.
  - right. inversion H; subst. split; [done|]. intros e; discriminate.
  - right. inversion H; subst. split; [done|]. intros e; discriminate.
Qed.

Lemma load_inv p s r s' :
  load p s = (r, s') →
  s' = s ∧ (r = Fault ∨ ∃ l n, p = Some l ∧ mem s !! l = Some n ∧ r = Ok n).
Proof.
  unfold load. destruct p as [l|]; [destruct (mem s !! l) as [n|] eqn:Hl|];
    intros H; inversion H; subst; split; eauto 8.
Qed.

Lemma store_inv p n s r s' :
  store p n s = (r, s') →
  (r = Fault ∧ s' = s) ∨
  (∃ l, p = Some l ∧ is_Some (mem s !! l) ∧ r = Ok tt ∧
        s' = with_mem s (<[l := n]> (mem s))).
Proof.
  unfold store. destruct p as [l|]; [destruct (mem s !! l) as [n0|] eqn:Hl|];
    intros H; inversion H; subst; eauto 8.
Qed.

Lemma npl_inv p s r s' :
  npl p s = (r, s') → s' = s ∧ (r = Fault ∨ ∃ z, r = Ok z).
Proof.
  unfold npl. destruct p as [l|].
  - intros H. apply bind_inv in H
      as [(n & s1 & H1 & H) | [(e & H1 & ->) | [[H1 ->] | [H1 ->]]]];
      apply load_inv in H1 as [-> H1].
    + inversion H; subst. eauto.
    + destruct H1 as [|(? & ? & ? & ? & ?)]; discriminate.
    + eauto.
    + destruct H1 as [|(? & ? & ? & ? & ?)]; discriminate.
  - intros H. inversion H; subst. eauto.
Qed.

Lemma get_queue_inv h s r s' :
  get_queue h s = (r, s') →
  s' = s ∧ (r = Fault ∨ ∃ q, queues s !! h = Some q ∧ r = Ok q).
Proof.
  unfold get_queue. destruct (queues s !! h) as [q|] eqn:Hq;
    intros H; inversion H; subst; eauto.
Qed.

Lemma put_queue_inv h q s r s' :
  put_queue h q s = (r, s') →
  (r = Fault ∧ s' = s) ∨
  (is_Some (queues s !! h) ∧ r = Ok tt ∧
   s' = with_queues s (<[h := q]> (queues s))).
Proof.
  unfold put_queue. destruct (queues s !! h) as [q0|] eqn:Hq;
    intros H; inversion H; subst; eauto.
Qed.

Lemma modify_queue_inv h f s r s' :
  modify_queue h f s = (r, s') →
  (r = Fault ∧ s' = s) ∨
  (∃ q, queues s !! h = Some q ∧ r = Ok tt ∧
        s' = with_queues s (<[h := f q]> (queues s))).
Proof.
  unfold modify_queue. intros H.
  apply bind_inv in H
    as [(q & s1 & H1 & H) | [(e & H1 & ->) | [[H1 ->] | [H1 ->]]]];
    apply get_queue_inv in H1 as [-> H1].
  - destruct H1 as [|(q' & Hq & [= <-])]; [discriminate|].
    apply put_queue_inv in H as [[-> ->]|(_ & -> & ->)]; eauto.
  - destruct H1 as [|(? & ? & ?)]; discriminate.
  - eauto.
  - destruct H1 as [|(? & ? & ?)]; discriminate.
Qed.

Lemma call_comp_inv c a b s r s' :
  call_comp c a b s = (r, s') →
  s' = with_calls s ((a, b) :: calls s) ∧
  ((∃ lt, invoke c a b = inr lt ∧ r = Ok lt) ∨
   (∃ e, invoke c a b = inl e ∧ r = Throw (comp_exn e))).
Proof.
  unfold call_comp. destruct (invoke c a b) as [e|lt] eqn:Hc;
    intros H; inversion H; subst; eauto.
Qed.

(** The same, for a primitive action followed by a continuation. *)

Lemma bind_load_inv {B} p (k : Node → M B) s r s' :
  bind (load p) k s = (r, s') →
  (r = Fault ∧ s' = s) ∨
  (∃ l n, p = Some l ∧ mem s !! l = Some n ∧ k n s = (r, s')).
Proof.
  intros H. apply bind_inv in H
    as [(n & s1 & H1 & H) | [(e & H1 & ->) | [[H1 ->] | [H1 ->]]]];
    apply load_inv in H1 as [-> H1].
  - destruct H1 as [|(l & n' & -> & Hl & [= <-])]; [discriminate|]. eauto 8.
  - destruct H1 as [|(? & ? & ? & ? & ?)]; discriminate.
  - eauto.
  - destruct H1 as [|(? & ? & ? & ? & ?)]; discriminate.
Qed.

Lemma bind_store_inv {B} p n (k : unit → M B) s r s' :
  bind (store p n) k s = (r, s') →
  (r = Fault ∧ s' = s) ∨
  (∃ l, p = Some l ∧ is_Some (mem s !! l) ∧
        k tt (with_mem s (<[l := n]> (mem s))) = (r, s')).
Proof.
  intros H. apply bind_inv in H
    as [(n' & s1 & H1 & H) | [(e & H1 & ->) | [[H1 ->] | [H1 ->]]]];
    apply store_inv in H1 as [[? ?]|(l & -> & Hl & ? & ?)];
    try discriminate; simplify_eq; eauto 8.
Qed.

Lemma bind_npl_inv {B} p (k : Z → M B) s r s' :
  bind (npl p) k s = (r, s') →
  (r = Fault ∧ s' = s) ∨
  (p = None ∧ k 0 s = (r, s')) ∨
  (∃ l n, p = Some l ∧ mem s !! l = Some n ∧ k (dist n) s = (r, s')).
Proof.
  destruct p as [l|]; unfold npl.
  - intros H. apply bind_inv in H
      as [(z & s1 & H1 & H) | [(e & H1 & ->) | [[H1 ->] | [H1 ->]]]];
      apply bind_load_inv in H1 as [[? ?]|(l' & n & [= <-] & Hl & H1)];
      try discriminate; simplify_eq; eauto 8.
    inversion H1; subst. eauto 8.
  - intros H. rewrite (bind_ok _ _ s 0 s) in H by done. eauto.
Qed.

Lemma bind_get_queue_inv {B} h (k : pq → M B) s r s' :
  bind (get_queue h) k s = (r, s') →
  (r = Fault ∧ s' = s) ∨
  (∃ q, queues s !! h = Some q ∧ k q s = (r, s')).
Proof.
  intros H. apply bind_inv in H
    as [(q & s1 & H1 & H) | [(e & H1 & ->) | [[H1 ->] | [H1 ->]]]];
    apply get_queue_inv in H1 as [-> [?|(q' & Hq & ?)]];
    try discriminate; simplify_eq; eauto.
Qed.

Lemma bind_modify_queue_inv {B} h f (k : unit → M B) s r s' :
  bind (modify_queue h f) k s = (r, s') →
  (r = Fault ∧ s' = s) ∨
  (∃ q, queues s !! h = Some q ∧
        k tt (with_queues s (<[h := f q]> (queues s))) = (r, s')).
Proof.
  intros H. apply bind_inv in H
    as [(u & s1 & H1 & H) | [(e & H1 & ->) | [[H1 ->] | [H1 ->]]]];
    apply modify_queue_inv in H1 as [[? ?]|(q & Hq & ? & ?)];
    try discriminate; simplify_eq; eauto.
Qed.

Lemma bind_call_comp_inv {B} c a b (k : bool → M B) s r s' :
  bind (call_comp c a b) k s = (r, s') →
  (∃ e, invoke c a b = inl e ∧ r = Throw (comp_exn e) ∧
        s' = with_calls s ((a, b) :: calls s)) ∨
  (∃ lt, invoke c a b = inr lt ∧
         k lt (with_calls s ((a, b) :: calls s)) = (r, s')).
Proof.
  intros H. apply bind_inv in H
    as [(lt & s1 & H1 & H) | [(e & H1 & ->) | [[H1 ->] | [H1 ->]]]];
    apply call_comp_inv in H1 as [-> [(lt' & Hc & ?)|(e' & Hc & ?)]];
    try discriminate; simplify_eq; eauto.
Qed.

Ltac mload H l n Hp Hl :=
  apply bind_load_inv in H as [[-> ->]|(l & n & Hp & Hl & H)].
Ltac mstore H l Hp Hl :=
  apply bind_store_inv in H as [[-> ->]|(l & Hp & Hl & H)].
Ltac mnpl H l n Hp Hl :=
  apply bind_npl_inv in H as [[-> ->]|[[Hp H]|(l & n & Hp & Hl & H)]].
Ltac mget H q Hq :=
  apply bind_get_queue_inv in H as [[-> ->]|(q & Hq & H)].
Ltac mmodify H q Hq :=
  apply bind_modify_queue_inv in H as [[-> ->]|(q & Hq & H)].
Ltac mcomp H e less Hc :=
  apply bind_call_comp_inv in H as [(e & Hc & -> & ->)|(less & Hc & H)].
Ltac mloadx H l n Hp Hl :=
  apply bind_load_inv in H as [[? ?]|(l & n & Hp & Hl & H)]; [simplify_eq|].
Ltac mgetx H q Hq :=
  apply bind_get_queue_inv in H as [[? ?]|(q & Hq & H)]; [simplify_eq|].
Ltac mmodifyx H q Hq :=
  apply bind_modify_queue_inv in H as [[? ?]|(q & Hq & H)]; [simplify_eq|].
Ltac mbindx H a s1 H1 :=
  apply bind_inv in H
    as [(a & s1 & H1 & H) | [(? & H1 & ?) | [[H1 ?] | [H1 ?]]]];
  [|simplify_eq..].
Ltac mbind H a s1 H1 :=
  apply bind_inv in H
    as [(a & s1 & H1 & H) | [(? & H1 & ->) | [[H1 ->] | [H1 ->]]]].

(** * What [meld] does in any state *)

Lemma same_but_mem_refl s : same_but_mem s s.
Proof. done. Qed.

Lemma same_but_mem_trans s1 s2 s3 :
  same_but_mem s1 s2 → same_but_mem s2 s3 → same_but_mem s1 s3.
Proof. intros (? & ? & ?) (? & ? & ?). split_and!; congruence. Qed.

Lemma same_but_mem_with_mem s s' m :
  same_but_mem s s' → same_but_mem s (with_mem s' m).
Proof. done. Qed.

Lemma quiet_ret {A} (a : A) : quiet (ret a).
Proof. intros s r s' [= <- <-]. done. Qed.

Lemma quiet_load p : quiet (load p).
Proof.
  intros s r s' H. apply load_inv in H as [-> [->|(l & n & _ & _ & ->)]]; done.
Qed.

Lemma quiet_store p n : quiet (store p n).
Proof.
  intros s r s' H.
  apply store_inv in H as [[-> ->]|(l & _ & _ & -> & ->)]; done.
Qed.

Lemma quiet_bind {A B} (c : M A) (k : A → M B) :
  quiet c → (∀ a, quiet (k a)) → quiet (bind c k).
Proof.
  intros Hc Hk s r s' H. mbind H a s1 H1.
  - destruct (Hc _ _ _ H1) as [(? & ? & ?) _].
    destruct (Hk _ _ _ _ H) as [(? & ? & ?) ?].
    split; [|done]. split_and!; congruence.
  - destruct (Hc _ _ _ H1) as (_ & Hne & _). by destruct (Hne x).
  - destruct (Hc _ _ _ H1) as (? & _ & _). done.
  - destruct (Hc _ _ _ H1) as (_ & _ & ?). done.
Qed.

Lemma quiet_npl p : quiet (npl p).
Proof.
  destruct p; [|apply quiet_ret].
  apply quiet_bind; [apply quiet_load|intros; apply quiet_ret].
Qed.

Lemma quiet_if {A} (b : bool) (c1 c2 : M A) :
  quiet c1 → quiet c2 → quiet (if b then c1 else c2).
Proof. by destruct b. Qed.

Lemma quiet_meld_link a nr : quiet (meld_link a nr).
Proof.
  unfold meld_link.
  repeat first
    [ apply quiet_bind; [|intros ?] | apply quiet_load | apply quiet_store
    | apply quiet_npl | apply quiet_if | apply quiet_ret ].
Qed.

(** [meld] leaves the queue objects and the capacity alone, only adds to the
    log, ends in the exception of the comparator as soon as a call of it
    throws, and has then written to no node. *)
Lemma meld_calls fuel : ∀ this a b s r s' q,
  queues s !! this = Some q →
  meld fuel this a b s = (r, s') →
  ∃ new, calls s' = new ++ calls s ∧ cap s' = cap s ∧
    queues s' = queues s ∧
    (∀ x y e, (x, y) ∈ new → invoke (comp q) x y = inl e →
              r = Throw (comp_exn e)) ∧
    (∀ e, r = Throw e →
          mem s' = mem s ∧
          ∃ x y e', (x, y) ∈ new ∧ invoke (comp q) x y = inl e' ∧
                    e = comp_exn e').
Proof.
  induction fuel as [|fuel IH]; intros this a b s r s' q Hq H.
  { inversion H; subst. exists []. split_and!; try done.
    intros x y e Hin. by apply elem_of_nil in Hin. }
  cbn [meld] in H.
  destruct a as [la|]; [destruct b as [lb|]|].
  2, 3: inversion H; subst; exists []; split_and!; try done;
        intros x y e Hin; by apply elem_of_nil in Hin.
  mload H la' na Hpa Hla; [|mload H lb' nb Hpb Hlb; [|mget H q' Hq']].
  1-3: exists []; split_and!; try done;
        intros x y e Hin; by apply elem_of_nil in Hin.
  simplify_eq.
  mcomp H e less Hc.
  { exists [(val na, val nb)]. split_and!; try done.
    - intros x y e' Hin Hinv. apply list_elem_of_singleton in Hin.
      simplify_eq. congruence.
    - intros e' [= <-]. split; [done|].
      exists (val na), (val nb), e. split_and!; try done.
      apply list_elem_of_singleton. done. }
  cbv zeta in H.
  set (s1 := with_calls s ((val na, val nb) :: calls s)) in *.
  set (a' := if less then Some lb' else Some la') in *.
  set (b' := if less then Some la' else Some lb') in *.
  assert (Hone : ∀ (r0 : outcome exn ptr) x y e',
            (x, y) ∈ [(val na, val nb)] →
            invoke (comp q) x y = inl e' → r0 = Throw (comp_exn e')).
  { intros r0 x y e' Hin Hinv. apply list_elem_of_singleton in Hin.
    simplify_eq. congruence. }
  mload H l n Hp Hl.
  { exists [(val na, val nb)]. split_and!; try done. apply Hone. }
  assert (Hsplit : ∀ new (r0 r1 : outcome exn ptr),
    (∀ x y e, (x, y) ∈ new → invoke (comp q) x y = inl e →
              r1 = Throw (comp_exn e)) →
    (∀ e, r1 = Throw e → r0 = r1) →
    ∀ x y e, (x, y) ∈ new ++ [(val na, val nb)] →
             invoke (comp q) x y = inl e → r0 = Throw (comp_exn e)).
  { intros new r0 r1 Hnew Hr x y e' Hin Hinv.
    apply elem_of_app in Hin as [Hin|Hin]; [|by eapply Hone].
    pose proof (Hnew _ _ _ Hin Hinv) as Hr1. rewrite (Hr _ Hr1). done. }
  mbind H nr s2 Hrec;
    (apply (IH _ _ _ _ _ _ q) in Hrec; [|done]);
    destruct Hrec as (new & Hcalls & Hcap & Hqs & Hthrows & Hatomic);
    exists (new ++ [(val na, val nb)]); rewrite <- app_assoc;
    cbn in Hcalls, Hcap, Hqs; cbn [app].
  - destruct (quiet_meld_link _ _ _ _ _ H) as ((? & ? & ?) & Hnt & _).
    split_and!; try congruence.
    eapply Hsplit; [exact Hthrows|]. intros e' [=].
  - split_and!; try done.
    + eapply Hsplit; [exact Hthrows|]. done.
    + intros e' [= <-].
      destruct (Hatomic _ eq_refl) as (-> & x' & y' & e'' & Hin & ? & ?).
      split; [done|]. exists x', y', e''. split_and!; try done.
      apply elem_of_app. by left.
  - split_and!; try done. eapply Hsplit; [exact Hthrows|]. done.
  - split_and!; try done. eapply Hsplit; [exact Hthrows|]. done.
Qed.

(** * Trees *)

Lemma wrap_int_small z : - 2 ^ 31 ≤ z < 2 ^ 31 → wrap_int z = z.
Proof. intros Hz. unfold wrap_int. rewrite Z.mod_small; lia. Qed.

Lemma wrap_size_t_small z : 0 ≤ z < size_t_modulus → wrap_size_t z = z.
Proof. intros Hz. unfold wrap_size_t. rewrite Z.mod_small; lia. Qed.

Lemma shape_frame m m' (t : tree) :
  shape m t → (∀ l, l ∈ locs t → m' !! l = m !! l) → shape m' t.
Proof.
  induction t as [|l v d tl IHl tr IHr]; [done|].
  cbn [shape locs]. intros (Hl & Hsl & Hsr) Hsame. split_and!.
  - rewrite Hsame; [done|]. apply list_elem_of_here.
  - apply IHl; [done|]. intros l' Hin. apply Hsame.
    apply list_elem_of_further, elem_of_app. by left.
  - apply IHr; [done|]. intros l' Hin. apply Hsame.
    apply list_elem_of_further, elem_of_app. by right.
Qed.

Lemma shape_lookup m (t : tree) l :
  shape m t → l ∈ locs t → is_Some (m !! l).
Proof.
  induction t as [|l0 v d tl IHl tr IHr]; cbn [shape locs].
  - intros _ Hin. by apply elem_of_nil in Hin.
  - intros (Hl & Hsl & Hsr) Hin.
    apply elem_of_cons in Hin as [->|Hin]; [by eexists|].
    apply elem_of_app in Hin as [Hin|Hin]; eauto.
Qed.

Lemma shape_unique m (t t' : tree) :
  shape m t → shape m t' → ptr_of t = ptr_of t' → t = t'.
Proof.
  revert t'. induction t as [|l v d tl IHl tr IHr]; intros [|l' v' d' tl' tr'];
    cbn [shape ptr_of]; try done.
  intros (Hl & Hsl & Hsr) (Hl' & Hsl' & Hsr') [= <-].
  rewrite Hl in Hl'. injection Hl' as <- Hpl Hpr <-.
  f_equal; eauto.
Qed.

Lemma tsize_Nd l v d (tl tr : tree) :
  tsize (Nd l v d tl tr) = S (tsize tl + tsize tr).
Proof. unfold tsize. cbn [locs length]. by rewrite length_app. Qed.

Lemma leftist_rank (t : tree) :
  leftist t → 0 ≤ rank t ∧ 2 ^ rank t ≤ Z.of_nat (tsize t) + 1.
Proof.
  induction t as [|l v d tl IHl tr IHr]; cbn [leftist rank].
  - intros _. unfold tsize. cbn. lia.
  - intros (Hle & -> & Hll & Hlr).
    destruct (IHl Hll) as [Hl0 Hl2]. destruct (IHr Hlr) as [Hr0 Hr2].
    rewrite tsize_Nd. split; [lia|].
    rewrite Z.pow_add_r by lia.
    assert (2 ^ rank tr ≤ 2 ^ rank tl) by (apply Z.pow_le_mono_r; lia).
    lia.
Qed.

Lemma leftist_rank_small (t : tree) :
  leftist t → Z.of_nat (tsize t) < size_t_modulus → 0 ≤ rank t ≤ 64.
Proof.
  intros Hl Hsz. destruct (leftist_rank t Hl) as [H0 H2]. split; [done|].
  destruct (decide (rank t ≤ 64)) as [|Hgt]; [done|].
  assert (2 ^ 65 ≤ 2 ^ rank t) by (apply Z.pow_le_mono_r; lia).
  unfold size_t_modulus in Hsz. lia.
Qed.

Lemma link_locs l v (tl nr : tree) :
  locs (link l v tl nr) ≡ₚ l :: locs tl ++ locs nr.
Proof.
  unfold link. destruct (rank tl <? rank nr); cbn [locs]; [|done].
  by rewrite (comm app).
Qed.

Lemma link_elems l v (tl nr : tree) :
  elems (link l v tl nr) ≡ₚ v :: elems tl ++ elems nr.
Proof.
  unfold link. destruct (rank tl <? rank nr); cbn [elems]; [|done].
  by rewrite (comm app).
Qed.

Lemma ptr_of_link l v (tl nr : tree) : ptr_of (link l v tl nr) = Some l.
Proof. unfold link. by destruct (rank tl <? rank nr). Qed.

Lemma link_root c l v (tl nr : tree) w :
  not_above c v w → root_not_above c (link l v tl nr) w.
Proof. unfold link. by destruct (rank tl <? rank nr). Qed.

Lemma link_heap c l v (tl nr : tree) :
  root_not_above c tl v → root_not_above c nr v →
  heap_ordered c tl → heap_ordered c nr →
  heap_ordered c (link l v tl nr).
Proof. unfold link. by destruct (rank tl <? rank nr). Qed.

Lemma link_leftist l v (tl nr : tree) :
  leftist tl → leftist nr →
  Z.of_nat (tsize tl) < size_t_modulus →
  Z.of_nat (tsize nr) < size_t_modulus →
  leftist (link l v tl nr).
Proof.
  intros Hl Hr Hsl Hsr.
  pose proof (leftist_rank_small _ Hl Hsl).
  pose proof (leftist_rank_small _ Hr Hsr).
  unfold link. destruct (rank tl <? rank nr) eqn:Hlt; cbn [leftist rank].
  - apply Z.ltb_lt in Hlt. rewrite wrap_int_small by lia. split_and!; try done; lia.
  - apply Z.ltb_ge in Hlt. rewrite wrap_int_small by lia. split_and!; try done; lia.
Qed.

(** * [meld] on trees *)

(** One unfolding of [meldT] on two nodes: the comparator throws, or the
    right subtree of the root that is not below the other is melded with
    the other tree and linked back. *)
Lemma meldT_inv fuel c (a b t : tree) :
  meldT fuel c a b = Ok t →
  (a = Leaf ∧ t = b) ∨ (b = Leaf ∧ t = a) ∨
  ∃ fuel' la va da al ar lb vb db bl br nr,
    fuel = S fuel' ∧
    a = Nd la va da al ar ∧ b = Nd lb vb db bl br ∧
    ((invoke c va vb = inr true ∧ meldT fuel' c br a = Ok nr ∧
      t = link lb vb bl nr) ∨
     (invoke c va vb = inr false ∧ meldT fuel' c ar b = Ok nr ∧
      t = link la va al nr)).
Proof.
  destruct fuel as [|fuel']; [done|]. cbn [meldT].
  destruct a as [|la va da al ar]; [intros [= <-]; by left|].
  destruct b as [|lb vb db bl br]; [intros [= <-]; right; by left|].
  destruct (invoke c va vb) as [e|[]] eqn:Hc; [done| |].
  - destruct (meldT fuel' c br _) as [nr| | |] eqn:Hrec; try done.
    intros [= <-]. right. right.
    exists fuel', la, va, da, al, ar, lb, vb, db, bl, br, nr. eauto 10.
  - destruct (meldT fuel' c ar _) as [nr| | |] eqn:Hrec; try done.
    intros [= <-]. right. right.
    exists fuel', la, va, da, al, ar, lb, vb, db, bl, br, nr. eauto 10.
Qed.

Lemma meldT_locs fuel c : ∀ (a b t : tree),
  meldT fuel c a b = Ok t → locs t ≡ₚ locs a ++ locs b.
Proof.
  induction fuel as [|fuel IH]; intros a b t H; [done|].
  apply meldT_inv in H as [[-> ->]|[[-> ->]|H]]; [done|by rewrite app_nil_r|].
  destruct H as (f & la & va & da & al & ar & lb & vb & db & bl & br & nr &
                 [= <-] & -> & -> & [(_ & Hrec & ->)|(_ & Hrec & ->)]);
    rewrite link_locs, (IH _ _ _ Hrec); cbn [locs].
  - rewrite (Permutation_app_comm (_ :: _ ++ _) (_ :: _ ++ _)).
    rewrite <- app_comm_cons. by rewrite <- (assoc_L app).
  - rewrite <- app_comm_cons. by rewrite <- (assoc_L app).
Qed.

Lemma meldT_elems fuel c : ∀ (a b t : tree),
  meldT fuel c a b = Ok t → elems t ≡ₚ elems a ++ elems b.
Proof.
  induction fuel as [|fuel IH]; intros a b t H; [done|].
  apply meldT_inv in H as [[-> ->]|[[-> ->]|H]]; [done|by rewrite app_nil_r|].
  destruct H as (f & la & va & da & al & ar & lb & vb & db & bl & br & nr &
                 [= <-] & -> & -> & [(_ & Hrec & ->)|(_ & Hrec & ->)]);
    rewrite link_elems, (IH _ _ _ Hrec); cbn [elems].
  - rewrite (Permutation_app_comm (_ :: _ ++ _) (_ :: _ ++ _)).
    rewrite <- app_comm_cons. by rewrite <- (assoc_L app).
  - rewrite <- app_comm_cons. by rewrite <- (assoc_L app).
Qed.

Lemma meldT_tsize fuel c (a b t : tree) :
  meldT fuel c a b = Ok t → tsize t = (tsize a + tsize b)%nat.
Proof.
  intros H. unfold tsize. rewrite (meldT_locs _ _ _ _ _ H). apply length_app.
Qed.

Lemma meldT_root fuel c (a b t : tree) w :
  meldT fuel c a b = Ok t →
  root_not_above c a w → root_not_above c b w → root_not_above c t w.
Proof.
  intros H Ha Hb.
  apply meldT_inv in H as [[-> ->]|[[-> ->]|H]]; [done|done|].
  destruct H as (f & la & va & da & al & ar & lb & vb & db & bl & br & nr &
                 -> & -> & -> & [(_ & Hrec & ->)|(_ & Hrec & ->)]);
    by apply link_root.
Qed.

Lemma meldT_heap fuel c : ∀ (a b t : tree),
  meldT fuel c a b = Ok t →
  heap_ordered c a → heap_ordered c b → heap_ordered c t.
Proof.
  induction fuel as [|fuel IH]; intros a b t H Ha Hb; [done|].
  apply meldT_inv in H as [[-> ->]|[[-> ->]|H]]; [done|done|].
  destruct H as (f & la & va & da & al & ar & lb & vb & db & bl & br & nr &
                 [= <-] & -> & -> & [(Hc & Hrec & ->)|(Hc & Hrec & ->)]).
  - destruct Hb as (Hbl & Hbr & Hhl & Hhr).
    apply link_heap; try done.
    + eapply meldT_root; [exact Hrec|done|]. by right.
    + eapply IH; [exact Hrec|done|done].
  - destruct Ha as (Hal & Har & Hhl & Hhr).
    apply link_heap; try done.
    + eapply meldT_root; [exact Hrec|done|]. by left.
    + eapply IH; [exact Hrec|done|done].
Qed.

Lemma meldT_leftist fuel c : ∀ (a b t : tree),
  meldT fuel c a b = Ok t →
  leftist a → leftist b →
  Z.of_nat (tsize a + tsize b) < size_t_modulus →
  leftist t.
Proof.
  induction fuel as [|fuel IH]; intros a b t H Ha Hb Hsz; [done|].
  apply meldT_inv in H as [[-> ->]|[[-> ->]|H]]; [done|done|].
  destruct H as (f & la & va & da & al & ar & lb & vb & db & bl & br & nr &
                 [= <-] & -> & -> & [(Hc & Hrec & ->)|(Hc & Hrec & ->)]);
    rewrite !tsize_Nd in Hsz; pose proof (meldT_tsize _ _ _ _ _ Hrec) as Hn;
    rewrite ?tsize_Nd in Hn.
  - destruct Hb as (? & ? & Hll & Hlr).
    apply link_leftist; try done; try lia.
    eapply IH; [exact Hrec|done|done|]. rewrite tsize_Nd. lia.
  - destruct Ha as (? & ? & Hll & Hlr).
    apply link_leftist; try done; try lia.
    eapply IH; [exact Hrec|done|done|]. rewrite tsize_Nd. lia.
Qed.

Lemma meldT_fuel fuel c : ∀ (a b : tree),
  (tsize a + tsize b < fuel)%nat → meldT fuel c a b ≠ OutOfFuel.
Proof.
  induction fuel as [|fuel IH]; intros a b Hf; [lia|]. cbn [meldT].
  destruct a as [|la va da al ar]; [done|].
  destruct b as [|lb vb db bl br]; [done|].
  rewrite !tsize_Nd in Hf.
  destruct (invoke c va vb) as [e|[]]; [done| |].
  - specialize (IH br (Nd la va da al ar)). rewrite tsize_Nd in IH.
    destruct (meldT fuel c br _); try done. apply IH. lia.
  - specialize (IH ar (Nd lb vb db bl br)). rewrite tsize_Nd in IH.
    destruct (meldT fuel c ar _); try done. apply IH. lia.
Qed.

Lemma meldT_no_fault fuel c : ∀ (a b : tree), meldT fuel c a b ≠ Fault.
Proof.
  induction fuel as [|fuel IH]; intros a b; [done|]. cbn [meldT].
  destruct a as [|la va da al ar]; [done|].
  destruct b as [|lb vb db bl br]; [done|].
  destruct (invoke c va vb) as [e|[]]; [done| |].
  - specialize (IH br (Nd la va da al ar)). by destruct (meldT fuel c br _).
  - specialize (IH ar (Nd lb vb db bl br)). by destruct (meldT fuel c ar _).
Qed.

(** * Running computations forwards *)

Lemma load_ok (s : state) l n :
  mem s !! l = Some n → load (Some l) s = (Ok n, s).
Proof. unfold load. by intros ->. Qed.

Lemma store_ok (s : state) l n n0 :
  mem s !! l = Some n0 →
  store (Some l) n s = (Ok tt, with_mem s (<[l := n]> (mem s))).
Proof. unfold store. by intros ->. Qed.

Lemma npl_ok (s : state) (t : tree) :
  shape (mem s) t → npl (ptr_of t) s = (Ok (rank t), s).
Proof.
  destruct t as [|l v d tl tr]; [done|]. intros (Hl & _ & _).
  unfold npl. cbn [ptr_of]. by rewrite (bind_ok _ _ _ _ _ (load_ok _ _ _ Hl)).
Qed.

Lemma get_queue_ok (s : state) h q :
  queues s !! h = Some q → get_queue h s = (Ok q, s).
Proof. unfold get_queue. by intros ->. Qed.

Lemma modify_queue_ok (s : state) h f q :
  queues s !! h = Some q →
  modify_queue h f s = (Ok tt, with_queues s (<[h := f q]> (queues s))).
Proof.
  intros Hq. unfold modify_queue.
  rewrite (bind_ok _ _ _ _ _ (get_queue_ok _ _ _ Hq)).
  unfold put_queue. by rewrite Hq.
Qed.

(** [meld_link] builds [link]. *)
Lemma meld_link_ok (s : state) l v d pr (tl nr : tree) :
  mem s !! l = Some (mkNode v (ptr_of tl) pr d) →
  shape (mem s) tl → shape (mem s) nr →
  l ∉ locs tl → l ∉ locs nr →
  ∃ n, meld_link (Some l) (ptr_of nr) s
         = (Ok (Some l), with_mem s (<[l := n]> (mem s))) ∧
       shape (<[l := n]> (mem s)) (link l v tl nr).
Proof.
  intros Hl Hsl Hsr Hnl Hnr. unfold meld_link.
  rewrite (bind_ok _ _ _ _ _ (load_ok _ _ _ Hl)).
  rewrite (bind_ok _ _ _ _ _ (store_ok _ _ _ _ Hl)).
  set (n1 := set_right _ _). set (s1 := with_mem s _).
  assert (Hl1 : mem s1 !! l = Some n1) by apply lookup_insert_eq.
  assert (Hframe : ∀ (n : Node) (t : tree), shape (mem s) t → l ∉ locs t →
            shape (<[l := n]> (mem s)) t).
  { intros n t Hs Hn. eapply shape_frame; [exact Hs|].
    intros l' Hin. apply lookup_insert_ne. intros ->. done. }
  rewrite (bind_ok _ _ _ _ _ (load_ok _ _ _ Hl1)).
  rewrite (bind_ok _ _ _ _ _ (npl_ok s1 tl (Hframe _ _ Hsl Hnl))).
  rewrite (bind_ok _ _ _ _ _ (npl_ok s1 nr (Hframe _ _ Hsr Hnr))).
  unfold link. destruct (rank tl <? rank nr) eqn:Hlt.
  - rewrite (bind_ok _ _ _ _ _ (store_ok _ _ _ _ Hl1)).
    set (n2 := set_right _ _). set (s2 := with_mem s1 _).
    assert (Hl2 : mem s2 !! l = Some n2) by apply lookup_insert_eq.
    assert (Hs2 : mem s2 = <[l := n2]> (mem s)) by apply insert_insert_eq.
    rewrite (bind_ok _ _ _ _ _ (load_ok _ _ _ Hl2)).
    assert (Hsl2 : shape (mem s2) tl) by (rewrite Hs2; by apply Hframe).
    rewrite (bind_ok _ _ _ _ _ (npl_ok s2 tl Hsl2)).
    rewrite (bind_ok _ _ _ _ _ (store_ok _ _ _ _ Hl2)).
    eexists. split.
    + unfold ret, with_mem. cbn. rewrite !insert_insert_eq. reflexivity.
    + cbn [shape]. split_and!; [by rewrite lookup_insert_eq| |]; by apply Hframe.
  - rewrite (bind_ok _ _ _ _ _ (eq_refl : ret tt s1 = (Ok tt, s1))).
    rewrite (bind_ok _ _ _ _ _ (load_ok _ _ _ Hl1)).
    rewrite (bind_ok _ _ _ _ _ (npl_ok s1 nr (Hframe _ _ Hsr Hnr))).
    rewrite (bind_ok _ _ _ _ _ (store_ok _ _ _ _ Hl1)).
    eexists. split.
    + unfold ret, with_mem. cbn. rewrite !insert_insert_eq. reflexivity.
    + cbn [shape]. split_and!; [by rewrite lookup_insert_eq| |]; by apply Hframe.
Qed.

(** * [meld] computes [meldT] *)

(** On the trees of two disjoint heaps, [meld] ends as [meldT] does; when
    it returns, the free store holds the tree [meldT] returns, in the nodes
    of the two trees, and no other node has been written to. *)
Lemma meld_refines fuel : ∀ this q (s : state) (ta tb : tree),
  queues s !! this = Some q →
  shape (mem s) ta → shape (mem s) tb →
  NoDup (locs ta ++ locs tb) →
  ∃ s', meld fuel this (ptr_of ta) (ptr_of tb) s
          = (ptr_outcome (meldT fuel (comp q) ta tb), s') ∧
        ∀ t, meldT fuel (comp q) ta tb = Ok t →
             shape (mem s') t ∧
             (∀ l, l ∉ locs ta ++ locs tb → mem s' !! l = mem s !! l) ∧
             dom (mem s') = dom (mem s).
Proof.
  induction fuel as [|fuel IH]; intros this q s ta tb Hq Hsa Hsb Hnd.
  { exists s. split; [done|]. intros t [=]. }
  cbn [meld meldT].
  destruct ta as [|la va da al ar].
  { exists s. split; [done|]. intros t [= <-]. done. }
  destruct tb as [|lb vb db bl br].
  { exists s. split; [done|]. intros t [= <-]. done. }
  cbn [ptr_of].
  pose proof Hsa as (Hla & Hsal & Hsar).
  pose proof Hsb as (Hlb & Hsbl & Hsbr).
  rewrite (bind_ok _ _ _ _ _ (load_ok _ _ _ Hla)).
  rewrite (bind_ok _ _ _ _ _ (load_ok _ _ _ Hlb)).
  rewrite (bind_ok _ _ _ _ _ (get_queue_ok _ _ _ Hq)).
  cbn [val].
  unfold bind at 1, call_comp at 1.
  destruct (invoke (comp q) va vb) as [e|less] eqn:Hc.
  { eexists. split; [done|]. intros t [=]. }
  set (s1 := with_calls s _).
  cbn [locs] in Hnd.
  assert (Hrest : ∀ l v d (tl tr tb' : tree),
    mem s !! l = Some (mkNode v (ptr_of tl) (ptr_of tr) d) →
    shape (mem s) tl → shape (mem s) tr → shape (mem s) tb' →
    NoDup (l :: locs tl ++ locs tr ++ locs tb') →
    ∃ s', (n <- load (Some l) ;;
           nr <- meld fuel this (right n) (ptr_of tb') ;;
           meld_link (Some l) nr) s1
          = (ptr_outcome
               match meldT fuel (comp q) tr tb' with
               | Ok nr => Ok (link l v tl nr)
               | r => r
               end, s') ∧
      ∀ nr, meldT fuel (comp q) tr tb' = Ok nr →
            shape (mem s') (link l v tl nr) ∧
            (∀ l', l' ∉ l :: locs tl ++ locs tr ++ locs tb' →
                   mem s' !! l' = mem s !! l') ∧
            dom (mem s') = dom (mem s)).
  { intros l v d tl tr tb' Hl Hsl Hsr Hsb' Hnd'.
    apply NoDup_cons in Hnd' as [Hnl Hnd'].
    apply NoDup_app in Hnd' as (_ & Hdisj & Hnd').
    rewrite (bind_ok _ _ _ _ _ (load_ok s1 _ _ Hl)). cbn [right].
    destruct (IH this q s1 tr tb' Hq Hsr Hsb' Hnd') as (s2 & Hrun & Hok).
    destruct (meldT fuel (comp q) tr tb') as [nr|e| |] eqn:Hm.
    2-4: exists s2; split; [|done]; unfold bind at 1; by rewrite Hrun.
    destruct (Hok nr eq_refl) as (Hsnr & Hframe & Hdom).
    rewrite (bind_ok _ _ _ _ _ Hrun).
    pose proof (meldT_locs _ _ _ _ _ Hm) as Hperm.
    assert (Hl2 : mem s2 !! l = Some (mkNode v (ptr_of tl) (ptr_of tr) d)).
    { rewrite Hframe; [done|]. set_solver. }
    assert (Hsl2 : shape (mem s2) tl).
    { eapply shape_frame; [exact Hsl|]. intros l' Hin. apply Hframe.
      intros Hin'. by apply (Hdisj l'). }
    destruct (meld_link_ok s2 l v d (ptr_of tr) tl nr Hl2 Hsl2 Hsnr)
      as (n & Hlink & Hshape).
    { set_solver. }
    { rewrite Hperm. set_solver. }
    exists (with_mem s2 (<[l := n]> (mem s2))).
    split; [cbn [ptr_outcome]; by rewrite ptr_of_link|].
    intros ? [= <-]. split_and!.
    - done.
    - intros l' Hl'. cbn. rewrite lookup_insert_ne by set_solver.
      apply Hframe. set_solver.
    - cbn. rewrite dom_insert_lookup_L; [done|]. by eexists. }
  destruct less.
  - destruct (Hrest lb vb db bl br (Nd la va da al ar)) as (s' & Hrun & Hok);
      try done.
    { cbn [locs]. eapply NoDup_Permutation_proper; [|exact Hnd].
      rewrite (Permutation_app_comm (_ :: _ ++ _) (_ :: _ ++ _)).
      rewrite <- app_comm_cons. by rewrite <- (assoc_L app). }
    exists s'. split; [exact Hrun|].
    intros t Ht. destruct (meldT fuel (comp q) br _) as [nr| | |]; try done.
    injection Ht as <-. destruct (Hok nr eq_refl) as (? & Hframe & ?).
    split_and!; try done.
    intros l Hl. apply Hframe. cbn [locs]. set_solver.
  - destruct (Hrest la va da al ar (Nd lb vb db bl br)) as (s' & Hrun & Hok);
      try done.
    { cbn [locs]. rewrite <- app_comm_cons, <- (assoc_L app) in Hnd.
      exact Hnd. }
    exists s'. split; [exact Hrun|].
    intros t Ht. destruct (meldT fuel (comp q) ar _) as [nr| | |]; try done.
    injection Ht as <-. destruct (Hok nr eq_refl) as (? & Hframe & ?).
    split_and!; try done.
    intros l Hl. apply Hframe. cbn [locs]. set_solver.
Qed.

Lemma meldT_throw fuel c : ∀ (a b : tree) e,
  meldT fuel c a b = Throw e → ∃ x y, invoke c x y = inl e.
Proof.
  induction fuel as [|fuel IH]; intros a b e; [done|]. cbn [meldT].
  destruct a as [|la va da al ar]; [done|].
  destruct b as [|lb vb db bl br]; [done|].
  destruct (invoke c va vb) as [e'|[]] eqn:Hc.
  - intros [= <-]. eauto.
  - destruct (meldT fuel c br _) eqn:Hrec; try done.
    intros [= <-]. eauto.
  - destruct (meldT fuel c ar _) eqn:Hrec; try done.
    intros [= <-]. eauto.
Qed.

(** [meld] on the trees of two disjoint heaps, in full. *)
Lemma meld_spec fuel this q (s : state) (ta tb : tree) :
  queues s !! this = Some q →
  shape (mem s) ta → shape (mem s) tb →
  NoDup (locs ta ++ locs tb) →
  ∃ s', meld fuel this (ptr_of ta) (ptr_of tb) s
          = (ptr_outcome (meldT fuel (comp q) ta tb), s') ∧
        cap s' = cap s ∧ queues s' = queues s ∧
        match meldT fuel (comp q) ta tb with
        | Ok t =>
            shape (mem s') t ∧
            (∀ l, l ∉ locs ta ++ locs tb → mem s' !! l = mem s !! l) ∧
            dom (mem s') = dom (mem s)
        | Throw _ => mem s' = mem s
        | _ => True
        end.
Proof.
  intros Hq Hsa Hsb Hnd.
  destruct (meld_refines fuel this q s ta tb Hq Hsa Hsb Hnd) as (s' & Hrun & Hok).
  destruct (meld_calls _ _ _ _ _ _ _ _ Hq Hrun)
    as (new & _ & Hcap & Hqs & _ & Hatomic).
  exists s'. split_and!; try done.
  destruct (meldT fuel (comp q) ta tb) as [t|e| |] eqn:Hm; try done.
  - by apply Hok.
  - by destruct (Hatomic _ eq_refl).
Qed.

(** * The comparator calls of [meld] *)

Lemma leftist_rank_pos l v d (tl tr : tree) :
  leftist (Nd l v d tl tr) → 1 ≤ d ∧ d = rank tr + 1.
Proof.
  intros (_ & -> & _ & Hr). pose proof (leftist_rank _ Hr). lia.
Qed.

Lemma meld_steps_nonneg (a b : tree) :
  leftist a → leftist b → 0 ≤ meld_steps a b.
Proof.
  intros Ha Hb. unfold meld_steps.
  destruct a as [|la va da al ar]; [done|].
  destruct b as [|lb vb db bl br]; [done|]. cbn [rank].
  apply leftist_rank_pos in Ha. apply leftist_rank_pos in Hb. lia.
Qed.

Lemma meld_steps_comm (a b : tree) : meld_steps a b = meld_steps b a.
Proof. unfold meld_steps. destruct a, b; try done. lia. Qed.

(** One comparison, and then the right subtree of one root against the
    other tree. *)
Lemma meld_steps_step l v d (tl tr b : tree) :
  leftist (Nd l v d tl tr) → leftist b → b ≠ Leaf →
  1 + meld_steps tr b ≤ meld_steps (Nd l v d tl tr) b.
Proof.
  intros Ha Hb Hne. destruct b as [|lb vb db bl br]; [done|].
  pose proof (leftist_rank_pos _ _ _ _ _ Ha) as [_ ->].
  apply leftist_rank_pos in Hb as [? _].
  destruct Ha as (_ & _ & _ & Har).
  unfold meld_steps. cbn [rank]. destruct tr as [|lr vr dr rl rr]; cbn [rank].
  - lia.
  - lia.
Qed.

(** [meld] on two leftist trees makes at most [meld_steps] comparator
    calls, however it ends. *)
Lemma meld_count fuel : ∀ this (ta tb : tree) (s : state) r s',
  shape (mem s) ta → shape (mem s) tb → leftist ta → leftist tb →
  meld fuel this (ptr_of ta) (ptr_of tb) s = (r, s') →
  ∃ new, calls s' = new ++ calls s ∧
         Z.of_nat (length new) ≤ meld_steps ta tb.
Proof.
  induction fuel as [|fuel IH]; intros this ta tb s r s' Hsa Hsb Hla Hlb H.
  { inversion H; subst. exists []. split; [done|]. by apply meld_steps_nonneg. }
  assert (Hnil : ∃ new, calls s = new ++ calls s ∧
                        Z.of_nat (length new) ≤ meld_steps ta tb).
  { exists []. split; [done|]. by apply meld_steps_nonneg. }
  cbn [meld] in H.
  destruct ta as [|la va da al ar]; [by inversion H; subst|].
  destruct tb as [|lb vb db bl br]; [by inversion H; subst|].
  cbn [ptr_of] in H.
  pose proof Hsa as (Hma & Hsal & Hsar).
  pose proof Hsb as (Hmb & Hsbl & Hsbr).
  rewrite (bind_ok _ _ _ _ _ (load_ok _ _ _ Hma)) in H.
  rewrite (bind_ok _ _ _ _ _ (load_ok _ _ _ Hmb)) in H.
  mget H q Hq; [done|]. cbn [val] in H.
  pose proof (meld_steps_step la va da al ar _ Hla Hlb) as Hstepa.
  pose proof (meld_steps_step lb vb db bl br _ Hlb Hla) as Hstepb.
  rewrite (meld_steps_comm (Nd lb vb db bl br)) in Hstepb.
  specialize (Hstepa ltac:(done)). specialize (Hstepb ltac:(done)).
  assert (Hnn : 0 ≤ meld_steps ar (Nd lb vb db bl br)).
  { apply meld_steps_nonneg; [|done]. by destruct Hla as (_ & _ & _ & ?). }
  mcomp H e less Hc.
  { exists [(va, vb)]. split; [done|]. cbn [length]. lia. }
  cbv zeta in H.
  assert (Hrec : ∀ l v d (tl tr tb' : tree) (r0 : outcome exn ptr) s0,
    mem s !! l = Some (mkNode v (ptr_of tl) (ptr_of tr) d) →
    shape (mem s) tr → shape (mem s) tb' → leftist tr → leftist tb' →
    (n <- load (Some l) ;;
     nr <- meld fuel this (right n) (ptr_of tb') ;;
     meld_link (Some l) nr) (with_calls s ((va, vb) :: calls s)) = (r0, s0) →
    ∃ new, calls s0 = (new ++ [(va, vb)]) ++ calls s ∧
           Z.of_nat (length new) ≤ meld_steps tr tb').
  { intros l v d tl tr tb' r0 s0 Hl Hstr Hstb Hltr Hltb Hk.
    rewrite (bind_ok _ _ _ _ _ (load_ok (with_calls s _) _ _ Hl)) in Hk.
    cbn [right] in Hk.
    assert (Hsub : ∀ r1 s1,
      meld fuel this (ptr_of tr) (ptr_of tb')
        (with_calls s ((va, vb) :: calls s)) = (r1, s1) →
      ∃ new, calls s1 = (new ++ [(va, vb)]) ++ calls s ∧
             Z.of_nat (length new) ≤ meld_steps tr tb').
    { intros r1 s1 H1.
      destruct (IH this tr tb' (with_calls s ((va, vb) :: calls s)) _ _
                  Hstr Hstb Hltr Hltb H1) as (new & Hcalls & Hlen).
      exists new. split; [|done]. rewrite Hcalls. cbn [calls with_calls].
      by rewrite <- app_assoc. }
    mbind Hk nr s1 H1.
    - destruct (Hsub _ _ H1) as (new & Hcalls & Hlen).
      destruct (quiet_meld_link _ _ _ _ _ Hk) as ((_ & _ & Hsame) & _).
      exists new. split; [congruence|done].
    - by apply (Hsub _ _ H1).
    - by apply (Hsub _ _ H1).
    - by apply (Hsub _ _ H1). }
  assert (Hlar : leftist ar) by (by destruct Hla as (_ & _ & _ & ?)).
  assert (Hlbr : leftist br) by (by destruct Hlb as (_ & _ & _ & ?)).
  destruct less.
  - destruct (Hrec lb vb db bl br (Nd la va da al ar) _ _
                Hmb Hsbr Hsa Hlbr Hla H) as (new & Hcalls & Hlen).
    exists (new ++ [(va, vb)]). split; [done|].
    rewrite length_app. cbn [length]. lia.
  - destruct (Hrec la va da al ar (Nd lb vb db bl br) _ _
                Hma Hsar Hsb Hlar Hlb H) as (new & Hcalls & Hlen).
    exists (new ++ [(va, vb)]). split; [done|].
    rewrite length_app. cbn [length]. lia.
Qed.

(** * [destroy] and [clone] *)

Lemma delete_Node_ok (s : state) l n :
  mem s !! l = Some n →
  delete_Node (Some l) s = (Ok tt, with_mem s (delete l (mem s))).
Proof. unfold delete_Node. by intros ->. Qed.

(** [destroy] deletes the nodes of a tree and nothing else. *)
Lemma destroy_spec fuel : ∀ (s : state) (t : tree),
  shape (mem s) t → NoDup (locs t) →
  ∃ r s', destroy fuel (ptr_of t) s = (r, s') ∧
    same_but_mem s s' ∧
    ((r = Ok tt ∧
      (∀ l, l ∈ locs t → mem s' !! l = None) ∧
      (∀ l, l ∉ locs t → mem s' !! l = mem s !! l)) ∨
     (r = OutOfFuel ∧ (fuel ≤ tsize t)%nat)).
Proof.
  induction fuel as [|fuel IH]; intros s t Hs Hnd.
  { exists OutOfFuel, s. split_and!; try done. right. split; [done|lia]. }
  destruct t as [|l v d tl tr].
  { exists (Ok tt), s. split_and!; try done. left. split_and!; try done.
    intros l Hin. by apply elem_of_nil in Hin. }
  cbn [destroy ptr_of]. destruct Hs as (Hl & Hsl & Hsr).
  cbn [locs] in Hnd. apply NoDup_cons in Hnd as [Hnl Hnd].
  apply NoDup_app in Hnd as (Hndl & Hdisj & Hndr).
  rewrite (bind_ok _ _ _ _ _ (load_ok _ _ _ Hl)). cbn [left right].
  destruct (IH s tl Hsl Hndl) as (r1 & s1 & Hrun1 & Hsame1 & Hres1).
  destruct Hres1 as [(-> & Hgone1 & Hkeep1)|[-> Hfuel1]]; cycle 1.
  { exists OutOfFuel, s1. unfold bind at 1. rewrite Hrun1.
    split_and!; try done. right. split; [done|]. rewrite tsize_Nd. lia. }
  rewrite (bind_ok _ _ _ _ _ Hrun1).
  assert (Hl1 : mem s1 !! l = Some (mkNode v (ptr_of tl) (ptr_of tr) d)).
  { rewrite Hkeep1; [done|]. set_solver. }
  rewrite (bind_ok _ _ _ _ _ (load_ok _ _ _ Hl1)). cbn [left right].
  assert (Hsr1 : shape (mem s1) tr).
  { eapply shape_frame; [exact Hsr|]. intros l' Hin. apply Hkeep1.
    intros Hin'. by apply (Hdisj l'). }
  destruct (IH s1 tr Hsr1 Hndr) as (r2 & s2 & Hrun2 & Hsame2 & Hres2).
  pose proof (same_but_mem_trans _ _ _ Hsame1 Hsame2) as Hsame.
  destruct Hres2 as [(-> & Hgone2 & Hkeep2)|[-> Hfuel2]]; cycle 1.
  { exists OutOfFuel, s2. unfold bind at 1. rewrite Hrun2.
    split_and!; try done. right. split; [done|]. rewrite tsize_Nd. lia. }
  rewrite (bind_ok _ _ _ _ _ Hrun2).
  assert (Hl2 : mem s2 !! l = Some (mkNode v (ptr_of tl) (ptr_of tr) d)).
  { rewrite Hkeep2; [done|]. set_solver. }
  rewrite (delete_Node_ok _ _ _ Hl2).
  eexists _, _. split; [reflexivity|]. split.
  { by apply same_but_mem_with_mem. }
  left. split_and!; [done| |]; cbn [mem with_mem locs].
  - intros l' Hin. destruct (decide (l' = l)) as [->|Hne].
    { apply lookup_delete_eq. }
    rewrite lookup_delete_ne by done.
    apply elem_of_cons in Hin as [?|Hin]; [done|].
    destruct (decide (l' ∈ locs tr)) as [Hr|Hr]; [by apply Hgone2|].
    rewrite Hkeep2 by done. apply Hgone1. set_solver.
  - intros l' Hin. rewrite lookup_delete_ne by set_solver.
    rewrite Hkeep2 by set_solver. apply Hkeep1. set_solver.
Qed.

Lemma shape_subseteq m m' (t : tree) : shape m t → m ⊆ m' → shape m' t.
Proof.
  intros Hs Hsub. eapply shape_frame; [exact Hs|]. intros l Hin.
  destruct (shape_lookup _ _ _ Hs Hin) as [n Hn]. rewrite Hn.
  eapply lookup_weaken; eauto.
Qed.

Lemma shape_insert m (t : tree) l n :
  shape m t → l ∉ locs t → shape (<[l := n]> m) t.
Proof.
  intros Hs Hn. eapply shape_frame; [exact Hs|].
  intros l' Hin. apply lookup_insert_ne. by intros ->.
Qed.

Lemma size_insert_Some (m : gmap positive Node) l n :
  is_Some (m !! l) → size (<[l := n]> m) = size m.
Proof. intros [n0 Hn0]. by eapply map_size_insert_Some. Qed.

(** [clone] copies a tree into fresh nodes; when it throws, the nodes it
    has made so far stay in the free store. *)
Lemma clone_spec fuel : ∀ (s : state) (t : tree),
  shape (mem s) t →
  ∃ r s', clone fuel (ptr_of t) s = (r, s') ∧
    same_but_mem s s' ∧ mem s ⊆ mem s' ∧
    ((size (mem s) ≤ cap s)%nat → (size (mem s') ≤ cap s)%nat) ∧
    match r with
    | Ok p =>
        ∃ t', p = ptr_of t' ∧ shape (mem s') t' ∧ NoDup (locs t') ∧
              (∀ l, l ∈ locs t' → mem s !! l = None) ∧ same_data t t' ∧
              size (mem s') = (size (mem s) + tsize t)%nat
    | Throw e => e = bad_alloc ∧ (cap s ≤ size (mem s'))%nat
    | Fault => False
    | OutOfFuel => (fuel ≤ tsize t)%nat
    end.
Proof.
  induction fuel as [|fuel IH]; intros s t Hs.
  { exists OutOfFuel, s. split_and!; try done. lia. }
  destruct t as [|lx v d tl tr].
  { exists (Ok None), s. split_and!; try done. exists Leaf.
    split_and!; try done; [apply NoDup_nil_2|].
    intros l Hin. by apply elem_of_nil in Hin. }
  cbn [clone ptr_of]. destruct Hs as (Hl & Hsl & Hsr).
  rewrite (bind_ok _ _ _ _ _ (load_ok _ _ _ Hl)).
  unfold bind at 1, new_Node at 1.
  destruct (decide (size (mem s) < cap s)%nat) as [Hroom|Hfull].
  2: { exists (Throw bad_alloc), s. split_and!; try done. lia. }
  set (l := fresh (dom (mem s))).
  assert (Hfresh : mem s !! l = None).
  { apply not_elem_of_dom, is_fresh. }
  assert (Hne : lx ≠ l) by (intros ->; congruence).
  set (s1 := with_mem s _). cbn [val].
  assert (Hl1 : mem s1 !! lx = Some (mkNode v (ptr_of tl) (ptr_of tr) d))
    by (cbn; by rewrite lookup_insert_ne).
  rewrite (bind_ok _ _ _ _ _ (load_ok s1 _ _ Hl1)).
  assert (Hn1 : mem s1 !! l = Some (mkNode v None None 1))
    by apply lookup_insert_eq.
  rewrite (bind_ok _ _ _ _ _ (load_ok s1 _ _ Hn1)).
  rewrite (bind_ok _ _ _ _ _ (store_ok s1 _ _ _ Hn1)).
  set (n2 := set_dist _ _). set (s2 := with_mem s1 _).
  assert (Hm2 : mem s2 = <[l := n2]> (mem s)) by apply insert_insert_eq.
  assert (Hsub2 : mem s ⊆ mem s2).
  { rewrite Hm2. by apply insert_subseteq. }
  assert (Hsize2 : (size (mem s2) ≤ cap s)%nat).
  { rewrite Hm2, map_size_insert_None by done. lia. }
  assert (Hcount2 : size (mem s2) = S (size (mem s))).
  { by rewrite Hm2, map_size_insert_None. }
  assert (Hn2 : mem s2 !! l = Some n2) by apply lookup_insert_eq.
  rewrite (bind_ok _ _ _ _ _
             (load_ok s2 _ _ (lookup_weaken _ _ _ _ Hl Hsub2))).
  cbn [left right].
  destruct (IH s2 tl (shape_subseteq _ _ _ Hsl Hsub2))
    as (r1 & s3 & Hrun1 & Hsame1 & Hsub3 & Hsize3 & Hres1).
  specialize (Hsize3 Hsize2).
  assert (Hsame3 : same_but_mem s s3).
  { eapply same_but_mem_trans; [|exact Hsame1]. done. }
  destruct r1 as [p1|e1| |]; try done.
  2: { exists (Throw e1), s3. unfold bind at 1. rewrite Hrun1.
       destruct Hres1 as [-> Hfull1].
       split_and!; try done. by etrans. }
  2: { exists OutOfFuel, s3. unfold bind at 1. rewrite Hrun1.
       split_and!; try done; [by etrans|]. rewrite tsize_Nd. lia. }
  destruct Hres1 as (tl' & -> & Hsl' & Hndl' & Hfreshl' & Hdatal & Hcountl).
  rewrite (bind_ok _ _ _ _ _ Hrun1).
  pose proof (lookup_weaken _ _ _ _ Hn2 Hsub3) as Hn3.
  rewrite (bind_ok _ _ _ _ _ (load_ok s3 _ _ Hn3)).
  rewrite (bind_ok _ _ _ _ _ (store_ok s3 _ _ _ Hn3)).
  set (n4 := set_left _ _). set (s4 := with_mem s3 _).
  assert (Hsub4 : mem s ⊆ mem s4).
  { cbn. apply insert_subseteq_r; [done|]. by etrans. }
  assert (Hsize4 : (size (mem s4) ≤ cap s)%nat).
  { cbn. rewrite size_insert_Some by (by eexists). done. }
  assert (Hcount4 : size (mem s4) = size (mem s3)).
  { cbn. by rewrite size_insert_Some by (by eexists). }
  assert (Hn4 : mem s4 !! l = Some n4) by apply lookup_insert_eq.
  rewrite (bind_ok _ _ _ _ _
             (load_ok s4 _ _ (lookup_weaken _ _ _ _ Hl Hsub4))).
  cbn [left right].
  destruct (IH s4 tr (shape_subseteq _ _ _ Hsr Hsub4))
    as (r2 & s5 & Hrun2 & Hsame2 & Hsub5 & Hsize5 & Hres2).
  assert (Hcap4 : cap s4 = cap s) by (destruct Hsame3 as (? & _); done).
  rewrite Hcap4 in Hsize5. specialize (Hsize5 Hsize4).
  assert (Hsame5 : same_but_mem s s5).
  { eapply same_but_mem_trans; [|exact Hsame2].
    by apply same_but_mem_with_mem. }
  destruct r2 as [p2|e2| |]; try done.
  2: { exists (Throw e2), s5. unfold bind at 1. rewrite Hrun2.
       destruct Hres2 as [-> Hfull2]. rewrite Hcap4 in Hfull2.
       split_and!; try done. by etrans. }
  2: { exists OutOfFuel, s5. unfold bind at 1. rewrite Hrun2.
       split_and!; try done; [by etrans|]. rewrite tsize_Nd. lia. }
  destruct Hres2 as (tr' & -> & Hsr' & Hndr' & Hfreshr' & Hdatar & Hcountr).
  rewrite (bind_ok _ _ _ _ _ Hrun2).
  pose proof (lookup_weaken _ _ _ _ Hn4 Hsub5) as Hn5.
  rewrite (bind_ok _ _ _ _ _ (load_ok s5 _ _ Hn5)).
  rewrite (bind_ok _ _ _ _ _ (store_ok s5 _ _ _ Hn5)).
  set (n6 := set_right _ _). set (s6 := with_mem s5 _).
  assert (Hnl : l ∉ locs tl').
  { intros Hin. apply Hfreshl' in Hin. congruence. }
  assert (Hnr : l ∉ locs tr').
  { intros Hin. apply Hfreshr' in Hin. congruence. }
  exists (Ok (Some l)), s6. split_and!.
  - done.
  - by apply same_but_mem_with_mem.
  - cbn. apply insert_subseteq_r; [done|]. by etrans.
  - intros _. cbn. rewrite size_insert_Some by (by eexists). done.
  - exists (Nd l v d tl' tr'). split_and!.
    + done.
    + cbn [shape]. split_and!.
      * cbn. by rewrite lookup_insert_eq.
      * cbn. apply shape_insert; [|done].
        eapply shape_subseteq; [|exact Hsub5].
        cbn. by apply shape_insert.
      * cbn. by apply shape_insert.
    + cbn [locs]. apply NoDup_cons. split; [set_solver|].
      apply NoDup_app. split_and!; try done.
      intros l' Hinl Hinr.
      destruct (shape_lookup _ _ _ Hsl' Hinl) as [n' Hn'].
      apply Hfreshr' in Hinr. cbn in Hinr.
      rewrite lookup_insert_ne in Hinr by (intros <-; done). congruence.
    + cbn [locs]. intros l' Hin.
      apply elem_of_cons in Hin as [->|Hin]; [done|].
      apply elem_of_app in Hin as [Hin|Hin].
      * apply Hfreshl' in Hin. eapply lookup_weaken_None; eauto.
      * apply Hfreshr' in Hin. eapply lookup_weaken_None; eauto.
    + done.
    + rewrite tsize_Nd. unfold s6. cbn [mem with_mem].
      rewrite size_insert_Some by (by eexists). lia.
Qed.

(** * The invariant *)

Lemma try_catch_ok {A} (body : M A) handler (s : state) a s' :
  body s = (Ok a, s') → try_catch body handler s = (Ok a, s').
Proof. unfold try_catch. by intros ->. Qed.

Lemma try_catch_throw {A} (body : M A) handler (s : state) e s' :
  body s = (Throw e, s') → try_catch body handler s = handler e s'.
Proof. unfold try_catch. by intros ->. Qed.

Lemma try_catch_out_of_fuel {A} (body : M A) handler (s : state) s' :
  body s = (OutOfFuel, s') → try_catch body handler s = (OutOfFuel, s').
Proof. unfold try_catch. by intros ->. Qed.

Lemma inv_ext F (s s' : state) :
  mem s' = mem s → cap s' = cap s → queues s' = queues s →
  inv F s → inv F s'.
Proof.
  intros Hm Hc Hq [H1 H2 H3 H4 H5].
  split; rewrite ?Hm, ?Hc, ?Hq; try done.
  intros h t Ht. destruct (H4 h t Ht) as [Ha Hb Hd].
  split; rewrite ?Hm, ?Hq; done.
Qed.

Lemma owns_frame (s s' : state) h (t : tree) :
  owns s h t →
  queues s' !! h = queues s !! h →
  (∀ l, l ∈ locs t → mem s' !! l = mem s !! l) →
  owns s' h t.
Proof.
  intros [Hq Hs Hg] Hq' Hm. split; [by rewrite Hq'| |done].
  eapply shape_frame; eauto.
Qed.

Lemma locs_size (m : gmap positive Node) (ls : list positive) :
  NoDup ls → (∀ l, l ∈ ls → is_Some (m !! l)) → (length ls ≤ size m)%nat.
Proof.
  intros Hnd Hin. rewrite <- size_dom, <- (size_list_to_set (C := gset positive)) by done.
  apply subseteq_size. intros l Hl. apply elem_of_list_to_set in Hl.
  apply elem_of_dom. by apply Hin.
Qed.

(** Deleting the nodes at a list of distinct addresses takes that many
    nodes out of the free store. *)
Lemma size_gone (m m' : gmap positive Node) (ls : list positive) :
  NoDup ls → (∀ l, l ∈ ls → is_Some (m !! l)) →
  (∀ l, l ∈ ls → m' !! l = None) →
  (∀ l, l ∉ ls → m' !! l = m !! l) →
  (size m' + length ls = size m)%nat.
Proof.
  intros Hnd Hin Hgone Hkeep.
  rewrite <- !size_dom, <- (size_list_to_set (C := gset positive)) by done.
  rewrite <- size_union.
  - f_equal. apply set_eq. intros l.
    rewrite elem_of_union, elem_of_list_to_set, !elem_of_dom.
    destruct (decide (l ∈ ls)) as [Hl|Hl].
    + rewrite (Hgone l Hl). split; [|by auto]. intros [[? [=]]|?]. by apply Hin.
    + rewrite (Hkeep l Hl). tauto.
  - intros l Hl1 Hl2. apply elem_of_list_to_set in Hl2.
    apply elem_of_dom in Hl1 as [n Hn]. rewrite Hgone in Hn; done.
Qed.

Lemma inv_tsize F (s : state) h (t : tree) :
  inv F s → F !! h = Some t → (tsize t ≤ size (mem s))%nat.
Proof.
  intros Hinv Ht. destruct (inv_owns _ _ Hinv h t Ht) as [_ Hs [Hnd _ _]].
  apply locs_size; [done|]. intros l Hl. by eapply shape_lookup.
Qed.

Lemma inv_nodup2 F (s : state) h1 h2 (t1 t2 : tree) :
  inv F s → h1 ≠ h2 → F !! h1 = Some t1 → F !! h2 = Some t2 →
  NoDup (locs t1 ++ locs t2).
Proof.
  intros Hinv Hne H1 H2.
  destruct (inv_owns _ _ Hinv h1 t1 H1) as [_ _ [Hnd1 _ _]].
  destruct (inv_owns _ _ Hinv h2 t2 H2) as [_ _ [Hnd2 _ _]].
  apply NoDup_app. split_and!; try done.
  intros l. by eapply (inv_disj _ _ Hinv).
Qed.

Lemma inv_tsize2 F (s : state) h1 h2 (t1 t2 : tree) :
  inv F s → h1 ≠ h2 → F !! h1 = Some t1 → F !! h2 = Some t2 →
  (tsize t1 + tsize t2 ≤ size (mem s))%nat.
Proof.
  intros Hinv Hne H1 H2. unfold tsize. rewrite <- length_app.
  apply locs_size; [by eapply inv_nodup2|].
  intros l Hl. apply elem_of_app in Hl as [Hl|Hl].
  - destruct (inv_owns _ _ Hinv h1 t1 H1) as [_ Hs _]. by eapply shape_lookup.
  - destruct (inv_owns _ _ Hinv h2 t2 H2) as [_ Hs _]. by eapply shape_lookup.
Qed.

Lemma inv_lookup F (s : state) h (t : tree) l :
  inv F s → F !! h = Some t → l ∈ locs t → is_Some (mem s !! l).
Proof.
  intros Hinv Ht Hl. destruct (inv_owns _ _ Hinv h t Ht) as [_ Hs _].
  by eapply shape_lookup.
Qed.

Lemma good_node l (v : T) : good (Nd l v 1 Leaf Leaf).
Proof.
  split; cbn.
  - apply NoDup_singleton.
  - split_and!; done.
  - done.
Qed.

Lemma good_meldT fuel (a b t : tree) :
  meldT fuel default_comp a b = Ok t →
  good a → good b → NoDup (locs a ++ locs b) →
  Z.of_nat (tsize a + tsize b) < size_t_modulus →
  good t.
Proof.
  intros Hm [_ Hla Hha] [_ Hlb Hhb] Hnd Hsz. split.
  - by rewrite (meldT_locs _ _ _ _ _ Hm).
  - by eapply meldT_leftist.
  - by eapply meldT_heap.
Qed.

(** * The public member functions and the invariant *)

Lemma push_spec F (s : state) h (t : tree) fuel e :
  inv F s → F !! h = Some t →
  ∃ r s', pq_push fuel h e s = (r, s') ∧ cap s' = cap s ∧
    (∃ new, calls s' = new ++ calls s ∧ Z.of_nat (length new) ≤ rank t) ∧
    match r with
    | Ok _ =>
        ∃ t', inv (<[h := t']> F) s' ∧ elems t' ≡ₚ elems t ++ [e] ∧
              size (mem s') = S (size (mem s)) ∧
              ∃ l, mem s !! l = None ∧
                   meldT fuel default_comp t (Nd l e 1 Leaf Leaf) = Ok t'
    | Throw ex =>
        inv F s' ∧ mem s' = mem s ∧ queues s' = queues s ∧
        ((ex = bad_alloc ∧ (cap s ≤ size (mem s))%nat) ∨
         (∃ x a b, ex = comp_exn x ∧ invoke default_comp a b = inl x))
    | Fault => False
    | OutOfFuel => (fuel ≤ tsize t + 1 ≤ cap s)%nat
    end.
Proof.
  intros Hinv Ht. unfold pq_push.
  pose proof (inv_owns _ _ Hinv h t Ht) as [Hq Hs Hg].
  assert (Hrank : 0 ≤ rank t).
  { destruct Hg as [_ Hl _]. by destruct (leftist_rank _ Hl). }
  unfold bind at 1, try_catch at 1, new_Node at 1.
  destruct (decide (size (mem s) < cap s)%nat) as [Hroom|Hfull].
  2: { exists (Throw bad_alloc), s. split_and!; try done.
       - by exists [].
       - left. split; [done|lia]. }
  set (l := fresh (dom (mem s))).
  assert (Hfresh : mem s !! l = None).
  { apply not_elem_of_dom, is_fresh. }
  set (s1 := with_mem s _). clearbody l.
  set (tb := Nd l e 1 Leaf Leaf).
  assert (Hnl : ∀ h' (t' : tree), F !! h' = Some t' → l ∉ locs t').
  { intros h' t' Ht' Hin.
    destruct (inv_lookup _ _ _ _ _ Hinv Ht' Hin). congruence. }
  assert (Hs1 : shape (mem s1) t).
  { cbn. apply shape_insert; [done|]. by eapply Hnl. }
  assert (Hsb : shape (mem s1) tb).
  { cbn. by rewrite lookup_insert_eq. }
  assert (Hnd : NoDup (locs t ++ locs tb)).
  { cbn. apply NoDup_app. split_and!.
    - by destruct Hg.
    - intros l' Hin Hl'. apply list_elem_of_singleton in Hl' as ->.
      by eapply Hnl.
    - apply NoDup_singleton. }
  destruct (meld_spec fuel h _ s1 t tb Hq Hs1 Hsb Hnd)
    as (s2 & Hrun & Hcap2 & Hqs2 & Hres).
  cbn [comp] in Hrun, Hres. unfold s1 in Hcap2, Hqs2. cbn in Hcap2, Hqs2.
  assert (Hbound : ∃ new, calls s2 = new ++ calls s ∧
                          Z.of_nat (length new) ≤ rank t).
  { destruct (meld_count _ _ _ _ _ _ _ Hs1 Hsb (good_leftist _ Hg)
                (good_leftist _ (good_node l e)) Hrun) as (new & Hnew & Hlen).
    exists new. split; [done|]. etrans; [exact Hlen|].
    unfold meld_steps, tb. destruct t; cbn [rank]; lia. }
  assert (Htb : tsize tb = 1%nat) by done.
  assert (Hsz : (tsize t + tsize tb ≤ cap s)%nat).
  { pose proof (inv_tsize _ _ _ _ Hinv Ht). lia. }
  pose proof (inv_cap _ _ Hinv) as Hcap.
  destruct (meldT fuel default_comp t tb) as [t'|x| |] eqn:Hm.
  - destruct Hres as (Hs' & Hframe & Hdom).
    pose proof (meldT_tsize _ _ _ _ _ Hm) as Hsize.
    assert (Hq2 : queues s2 !! h
                  = Some (mkPq (ptr_of t) (Z.of_nat (tsize t)) default_comp)).
    { by rewrite Hqs2. }
    eexists (Ok tt), _. split; [|split].
    { erewrite try_catch_ok; [reflexivity|].
      rewrite (bind_ok _ _ _ _ _ (get_queue_ok s1 _ _ Hq)).
      cbn [root]. rewrite (bind_ok _ _ _ _ _ Hrun).
      rewrite (bind_ok _ _ _ _ _ (modify_queue_ok s2 _ _ _ Hq2)).
      erewrite modify_queue_ok; [reflexivity|]. cbn. apply lookup_insert_eq. }
    { done. }
    split; [exact Hbound|].
    exists t'. cbn. rewrite insert_insert_eq.
    unfold set_cnt, set_root. cbn.
    rewrite wrap_size_t_small by lia.
    split_and!.
    + split; cbn.
      * rewrite <- size_dom, Hdom, size_dom. cbn.
        rewrite map_size_insert_None by done. lia.
      * by rewrite Hcap2.
      * intros h' Hh'. rewrite Hqs2 in Hh'. cbn in Hh'.
        rewrite lookup_insert in Hh'. rewrite lookup_insert.
        case_decide; [by eexists|]. by apply (inv_dom _ _ Hinv).
      * intros h' t'' Ht''. rewrite lookup_insert in Ht''.
        case_decide; simplify_eq.
        -- split; cbn.
           ++ rewrite lookup_insert_eq. do 2 f_equal. lia.
           ++ done.
           ++ eapply good_meldT; [exact Hm|done|apply good_node|done|lia].
        -- eapply owns_frame; [by apply (inv_owns _ _ Hinv)| |].
           ++ cbn. rewrite lookup_insert_ne by done. by rewrite Hqs2.
           ++ intros l' Hl'. cbn. rewrite Hframe.
              ** cbn. apply lookup_insert_ne. intros <-. by eapply Hnl.
              ** intros Hin. apply elem_of_app in Hin as [Hin|Hin].
                 --- by eapply (inv_disj _ _ Hinv h' h).
                 --- apply list_elem_of_singleton in Hin as ->. by eapply Hnl.
      * assert (Hold : ∀ h' (t'' : tree) l', h' ≠ h → F !! h' = Some t'' →
                  l' ∈ locs t' → l' ∉ locs t'').
        { intros h' t'' l' Hne Ht'' Hin.
          rewrite (meldT_locs _ _ _ _ _ Hm) in Hin.
          apply elem_of_app in Hin as [Hin|Hin].
          - by eapply (inv_disj _ _ Hinv h h').
          - apply list_elem_of_singleton in Hin as ->. by eapply Hnl. }
        intros h1 h2 t1 t2 l' Hne H1 H2 Hin1 Hin2.
        rewrite lookup_insert in H1. rewrite lookup_insert in H2.
        destruct (decide (h = h1)) as [<-|Hn1];
          destruct (decide (h = h2)) as [<-|Hn2]; simplify_eq.
        -- by eapply (Hold h2 t2 l').
        -- by eapply (Hold h1 t1 l').
        -- by eapply (inv_disj _ _ Hinv h1 h2).
    + by rewrite (meldT_elems _ _ _ _ _ Hm).
    + rewrite <- size_dom, Hdom, size_dom. cbn.
      by rewrite map_size_insert_None.
    + by exists l.
  - assert (Hl2 : mem s2 !! l = Some (mkNode e None None 1)).
    { rewrite Hres. apply lookup_insert_eq. }
    eexists (Throw (comp_exn x)), _. split; [|split].
    { erewrite try_catch_throw; cycle 1.
      { rewrite (bind_ok _ _ _ _ _ (get_queue_ok s1 _ _ Hq)).
        cbn [root]. by rewrite (bind_throw _ _ _ _ _ Hrun). }
      rewrite (bind_ok _ _ _ _ _ (delete_Node_ok s2 _ _ Hl2)). reflexivity. }
    { done. }
    split; [exact Hbound|].
    assert (Hmem : delete l (mem s2) = mem s).
    { rewrite Hres. cbn. by apply delete_insert_id. }
    split_and!; cbn; try done.
    + eapply inv_ext; [| | |exact Hinv]; done.
    + right. destruct (meldT_throw _ _ _ _ _ Hm) as (a & b & Hab). eauto.
  - by destruct (meldT_no_fault fuel default_comp t tb).
  - eexists OutOfFuel, _. split; [|split].
    { erewrite try_catch_out_of_fuel; [reflexivity|].
      rewrite (bind_ok _ _ _ _ _ (get_queue_ok s1 _ _ Hq)).
      cbn [root]. by rewrite (bind_out_of_fuel _ _ _ _ Hrun). }
    { done. }
    split; [exact Hbound|].
    split; [|lia].
    destruct (decide (fuel ≤ tsize t + 1)%nat) as [|Hgt]; [done|].
    destruct (meldT_fuel fuel default_comp t tb); [|done]. lia.
Qed.

Lemma pq_empty_ok (s : state) h q :
  queues s !! h = Some q → pq_empty h s = (Ok (cnt q =? 0), s).
Proof.
  intros Hq. unfold pq_empty.
  by rewrite (bind_ok _ _ _ _ _ (get_queue_ok _ _ _ Hq)).
Qed.

Lemma pop_spec F (s : state) h l v d (tl tr : tree) fuel :
  inv F s → F !! h = Some (Nd l v d tl tr) →
  ∃ r s', pq_pop fuel h s = (r, s') ∧ cap s' = cap s ∧
    (∃ new, calls s' = new ++ calls s ∧
            Z.of_nat (length new) ≤ meld_steps tl tr) ∧
    match r with
    | Ok _ =>
        ∃ t', inv (<[h := t']> F) s' ∧ elems t' ≡ₚ elems tl ++ elems tr ∧
              S (size (mem s')) = size (mem s) ∧
              meldT fuel default_comp tl tr = Ok t' ∧ mem s' !! l = None
    | Throw ex =>
        inv F s' ∧ mem s' = mem s ∧ queues s' = queues s ∧
        ∃ x a b, ex = comp_exn x ∧ invoke default_comp a b = inl x
    | Fault => False
    | OutOfFuel => (fuel ≤ tsize tl + tsize tr)%nat
    end.
Proof.
  intros Hinv Ht. unfold pq_pop.
  pose proof (inv_owns _ _ Hinv h _ Ht) as [Hq Hs Hg].
  pose proof (inv_tsize _ _ _ _ Hinv Ht) as Hsz.
  pose proof (inv_cap _ _ Hinv) as Hcap.
  pose proof (inv_size _ _ Hinv) as Hsize.
  rewrite tsize_Nd in Hq, Hsz.
  rewrite (bind_ok _ _ _ _ _ (pq_empty_ok _ _ _ Hq)). cbn [cnt].
  replace (Z.of_nat (S (tsize tl + tsize tr)) =? 0) with false
    by (symmetry; apply Z.eqb_neq; lia).
  rewrite (bind_ok _ _ _ _ _ (get_queue_ok _ _ _ Hq)). cbn [root ptr_of].
  destruct Hs as (Hl & Hsl & Hsr).
  rewrite (bind_ok _ _ _ _ _ (load_ok _ _ _ Hl)).
  rewrite (bind_ok _ _ _ _ _ (load_ok _ _ _ Hl)). cbn [left right].
  destruct Hg as [Hnd Hleft Hheap]. cbn [locs] in Hnd.
  apply NoDup_cons in Hnd as [Hnl Hnd].
  destruct (meld_spec fuel h _ s tl tr Hq Hsl Hsr Hnd)
    as (s2 & Hrun & Hcap2 & Hqs2 & Hres).
  cbn [comp] in Hrun, Hres.
  destruct Hleft as (_ & _ & Hleftl & Hleftr).
  destruct Hheap as (_ & _ & Hheapl & Hheapr).
  apply NoDup_app in Hnd as Hnd'. destruct Hnd' as (Hndl & _ & Hndr).
  pose proof (meld_count _ _ _ _ _ _ _ Hsl Hsr Hleftl Hleftr Hrun) as Hbound.
  destruct (meldT fuel default_comp tl tr) as [t'|x| |] eqn:Hm.
  - destruct Hres as (Hs' & Hframe & Hdom).
    pose proof (meldT_tsize _ _ _ _ _ Hm) as Hsize'.
    pose proof (meldT_locs _ _ _ _ _ Hm) as Hperm.
    assert (Hq2 : queues s2 !! h = Some
              (mkPq (Some l) (Z.of_nat (S (tsize tl + tsize tr))) default_comp)).
    { by rewrite Hqs2. }
    assert (Hl2 : mem s2 !! l = Some (mkNode v (ptr_of tl) (ptr_of tr) d)).
    { by rewrite Hframe. }
    assert (Hnl' : l ∉ locs t') by (by rewrite Hperm).
    eexists (Ok tt), _. split; [|split].
    { erewrite try_catch_ok; [reflexivity|].
      rewrite (bind_ok _ _ _ _ _ Hrun).
      rewrite (bind_ok _ _ _ _ _ (modify_queue_ok s2 _ _ _ Hq2)).
      erewrite bind_ok; cycle 1.
      { apply modify_queue_ok. cbn. apply lookup_insert_eq. }
      eapply delete_Node_ok. cbn. exact Hl2. }
    { done. }
    split; [exact Hbound|].
    exists t'. cbn. rewrite insert_insert_eq.
    unfold set_cnt, set_root. cbn.
    rewrite wrap_size_t_small by lia.
    assert (Hsz' : S (size (delete l (mem s2))) = size (mem s)).
    { rewrite map_size_delete, Hl2.
      rewrite <- size_dom, Hdom, size_dom. lia. }
    split_and!; [|by rewrite (meldT_elems _ _ _ _ _ Hm)|done|done
                |apply lookup_delete_eq].
    assert (Hold : ∀ h' (t'' : tree) l', h' ≠ h → F !! h' = Some t'' →
              l' ∈ locs t'' → l' ≠ l ∧ l' ∉ locs tl ++ locs tr).
    { intros h' t'' l' Hne Ht'' Hin.
      pose proof (inv_disj _ _ Hinv h' h _ _ l' Hne Ht'' Ht Hin) as Hd.
      cbn [locs] in Hd. set_solver. }
    split; cbn.
    + lia.
    + by rewrite Hcap2.
    + intros h' Hh'. rewrite Hqs2 in Hh'.
      rewrite lookup_insert in Hh'. rewrite lookup_insert.
      case_decide; [by eexists|]. by apply (inv_dom _ _ Hinv).
    + intros h' t'' Ht''. rewrite lookup_insert in Ht''.
      destruct (decide (h = h')) as [<-|Hne]; simplify_eq.
      * split; cbn.
        -- rewrite lookup_insert_eq. do 2 f_equal. lia.
        -- eapply shape_frame; [exact Hs'|]. intros l' Hl'.
           apply lookup_delete_ne. by intros <-.
        -- split.
           ++ by rewrite Hperm.
           ++ eapply meldT_leftist; [exact Hm|done|done|lia].
           ++ by eapply meldT_heap.
      * eapply owns_frame; [by apply (inv_owns _ _ Hinv)| |].
        -- cbn. rewrite lookup_insert_ne by done. by rewrite Hqs2.
        -- intros l' Hl'. cbn.
           destruct (Hold h' t'' l') as [? ?]; try done.
           rewrite lookup_delete_ne by done. by apply Hframe.
    + intros h1 h2 t1 t2 l' Hne H1 H2 Hin1 Hin2.
      rewrite lookup_insert in H1. rewrite lookup_insert in H2.
      destruct (decide (h = h1)) as [<-|Hn1];
        destruct (decide (h = h2)) as [<-|Hn2]; simplify_eq.
      * rewrite Hperm in Hin1. by destruct (Hold h2 t2 l').
      * rewrite Hperm in Hin2. by destruct (Hold h1 t1 l').
      * by eapply (inv_disj _ _ Hinv h1 h2).
  - eexists (Throw (comp_exn x)), _. split; [|split].
    { erewrite try_catch_throw; cycle 1.
      { by rewrite (bind_throw _ _ _ _ _ Hrun). }
      reflexivity. }
    { done. }
    split; [exact Hbound|].
    split_and!; try done.
    + eapply inv_ext; [| | |exact Hinv]; done.
    + destruct (meldT_throw _ _ _ _ _ Hm) as (a & b & Hab). eauto.
  - by destruct (meldT_no_fault fuel default_comp tl tr).
  - eexists OutOfFuel, _. split; [|split].
    { erewrite try_catch_out_of_fuel; [reflexivity|].
      by rewrite (bind_out_of_fuel _ _ _ _ Hrun). }
    { done. }
    split; [exact Hbound|].
    destruct (decide (fuel ≤ tsize tl + tsize tr)%nat) as [|Hgt]; [done|].
    destruct (meldT_fuel fuel default_comp tl tr); [|done]. lia.
Qed.

Lemma good_Leaf : good (Leaf : tree).
Proof. split; cbn; try done. apply NoDup_nil_2. Qed.

Lemma merge_spec_full F (s : state) h1 h2 (t1 t2 : tree) fuel :
  inv F s → h1 ≠ h2 → F !! h1 = Some t1 → F !! h2 = Some t2 →
  ∃ r s', pq_merge fuel h1 h2 s = (r, s') ∧ cap s' = cap s ∧
    (∃ new, calls s' = new ++ calls s ∧
            Z.of_nat (length new) ≤ meld_steps t1 t2) ∧
    match r with
    | Ok _ =>
        ∃ t', inv (<[h2 := Leaf]> (<[h1 := t']> F)) s' ∧
              elems t' ≡ₚ elems t1 ++ elems t2 ∧
              size (mem s') = size (mem s) ∧
              meldT fuel default_comp t1 t2 = Ok t'
    | Throw ex =>
        inv F s' ∧ mem s' = mem s ∧ queues s' = queues s ∧
        ∃ x a b, ex = comp_exn x ∧ invoke default_comp a b = inl x
    | Fault => False
    | OutOfFuel => (fuel ≤ tsize t1 + tsize t2)%nat
    end.
Proof.
  intros Hinv Hne Ht1 Ht2. unfold pq_merge.
  destruct (decide (h1 = h2)) as [|_]; [done|].
  pose proof (inv_owns _ _ Hinv h1 _ Ht1) as [Hq1 Hs1 Hg1].
  pose proof (inv_owns _ _ Hinv h2 _ Ht2) as [Hq2 Hs2 Hg2].
  pose proof (inv_tsize2 _ _ _ _ _ _ Hinv Hne Ht1 Ht2) as Hsz.
  pose proof (inv_nodup2 _ _ _ _ _ _ Hinv Hne Ht1 Ht2) as Hnd.
  pose proof (inv_cap _ _ Hinv) as Hcap.
  pose proof (inv_size _ _ Hinv) as Hsize.
  rewrite (bind_ok _ _ _ _ _ (get_queue_ok _ _ _ Hq1)).
  rewrite (bind_ok _ _ _ _ _ (get_queue_ok _ _ _ Hq2)). cbn [root].
  destruct (meld_spec fuel h1 _ s t1 t2 Hq1 Hs1 Hs2 Hnd)
    as (s2 & Hrun & Hcap2 & Hqs2 & Hres).
  cbn [comp] in Hrun, Hres.
  pose proof (meld_count _ _ _ _ _ _ _ Hs1 Hs2 (good_leftist _ Hg1)
                (good_leftist _ Hg2) Hrun) as Hbound.
  destruct (meldT fuel default_comp t1 t2) as [t'|x| |] eqn:Hm.
  - destruct Hres as (Hs' & Hframe & Hdom).
    pose proof (meldT_tsize _ _ _ _ _ Hm) as Hsize'.
    pose proof (meldT_locs _ _ _ _ _ Hm) as Hperm.
    eexists (Ok tt), _. split; [|split].
    { erewrite try_catch_ok; [reflexivity|].
      rewrite (bind_ok _ _ _ _ _ Hrun).
      erewrite bind_ok; cycle 1.
      { apply modify_queue_ok. rewrite Hqs2. exact Hq1. }
      erewrite bind_ok; cycle 1.
      { apply get_queue_ok. cbn. rewrite lookup_insert_ne by done.
        rewrite Hqs2. exact Hq2. }
      erewrite bind_ok; cycle 1.
      { apply modify_queue_ok. cbn. apply lookup_insert_eq. }
      erewrite bind_ok; cycle 1.
      { apply modify_queue_ok. cbn. rewrite lookup_insert_ne by done.
        rewrite lookup_insert_ne by done. rewrite Hqs2. exact Hq2. }
      apply modify_queue_ok. cbn. apply lookup_insert_eq. }
    { done. }
    split; [exact Hbound|].
    exists t'. cbn. rewrite !insert_insert_eq.
    unfold set_cnt, set_root. cbn.
    rewrite wrap_size_t_small by lia.
    assert (Hsz' : size (mem s2) = size (mem s)).
    { by rewrite <- size_dom, Hdom, size_dom. }
    split_and!; [|by rewrite (meldT_elems _ _ _ _ _ Hm)|done|done].
    assert (Hold : ∀ h' (t'' : tree) l', h' ≠ h1 → h' ≠ h2 →
              F !! h' = Some t'' →
              l' ∈ locs t'' → l' ∉ locs t1 ++ locs t2).
    { intros h' t'' l' Hn1 Hn2 Ht'' Hin.
      pose proof (inv_disj _ _ Hinv h' h1 _ _ l' Hn1 Ht'' Ht1 Hin).
      pose proof (inv_disj _ _ Hinv h' h2 _ _ l' Hn2 Ht'' Ht2 Hin).
      set_solver. }
    split; cbn.
    + lia.
    + by rewrite Hcap2.
    + intros h' Hh'. rewrite Hqs2 in Hh'.
      rewrite !lookup_insert in Hh'. rewrite !lookup_insert.
      repeat case_decide; try by eexists. by apply (inv_dom _ _ Hinv).
    + intros h' t'' Ht''. rewrite !lookup_insert in Ht''.
      destruct (decide (h2 = h')) as [<-|Hn2]; simplify_eq.
      { split; cbn; [by rewrite lookup_insert_eq|done|apply good_Leaf]. }
      destruct (decide (h1 = h')) as [<-|Hn1]; simplify_eq.
      * split; cbn.
        -- rewrite lookup_insert_ne by done. rewrite lookup_insert_eq.
           do 2 f_equal. lia.
        -- done.
        -- eapply good_meldT; [exact Hm|done|done|done|lia].
      * eapply owns_frame; [by apply (inv_owns _ _ Hinv)| |].
        -- cbn. rewrite !lookup_insert_ne by done. by rewrite Hqs2.
        -- intros l' Hl'. apply Hframe. by eapply Hold.
    + intros ha hb ta tb l' Hab Ha Hb Hina Hinb.
      rewrite !lookup_insert in Ha. rewrite !lookup_insert in Hb.
      destruct (decide (h2 = ha)) as [<-|Ha2]; simplify_eq.
      { by apply elem_of_nil in Hina. }
      destruct (decide (h2 = hb)) as [<-|Hb2]; simplify_eq.
      { by apply elem_of_nil in Hinb. }
      destruct (decide (h1 = ha)) as [<-|Ha1];
        destruct (decide (h1 = hb)) as [<-|Hb1]; simplify_eq.
      * rewrite Hperm in Hina. by eapply (Hold hb tb l').
      * rewrite Hperm in Hinb. by eapply (Hold ha ta l').
      * by eapply (inv_disj _ _ Hinv ha hb).
  - eexists (Throw (comp_exn x)), _. split; [|split].
    { erewrite try_catch_throw; cycle 1.
      { by rewrite (bind_throw _ _ _ _ _ Hrun). }
      reflexivity. }
    { done. }
    split; [exact Hbound|].
    split_and!; try done.
    + eapply inv_ext; [| | |exact Hinv]; done.
    + destruct (meldT_throw _ _ _ _ _ Hm) as (a & b & Hab). eauto.
  - by destruct (meldT_no_fault fuel default_comp t1 t2).
  - eexists OutOfFuel, _. split; [|split].
    { erewrite try_catch_out_of_fuel; [reflexivity|].
      by rewrite (bind_out_of_fuel _ _ _ _ Hrun). }
    { done. }
    split; [exact Hbound|].
    destruct (decide (fuel ≤ tsize t1 + tsize t2)%nat) as [|Hgt]; [done|].
    destruct (meldT_fuel fuel default_comp t1 t2); [|done]. lia.
Qed.

Lemma merge_spec F (s : state) h1 h2 (t1 t2 : tree) fuel :
  inv F s → h1 ≠ h2 → F !! h1 = Some t1 → F !! h2 = Some t2 →
  ∃ r s', pq_merge fuel h1 h2 s = (r, s') ∧ cap s' = cap s ∧
    match r with
    | Ok _ =>
        ∃ t', inv (<[h2 := Leaf]> (<[h1 := t']> F)) s' ∧
              elems t' ≡ₚ elems t1 ++ elems t2 ∧
              size (mem s') = size (mem s)
    | Throw ex =>
        inv F s' ∧ mem s' = mem s ∧ queues s' = queues s ∧
        ∃ x a b, ex = comp_exn x ∧ invoke default_comp a b = inl x
    | Fault => False
    | OutOfFuel => (fuel ≤ tsize t1 + tsize t2)%nat
    end.
Proof.
  intros Hinv Hne Ht1 Ht2.
  destruct (merge_spec_full F s h1 h2 t1 t2 fuel Hinv Hne Ht1 Ht2)
    as (r & s' & Hrun & Hcap & _ & Hres).
  exists r, s'. split_and!; try done.
  destruct r as [[]|ex| |]; try done.
  destruct Hres as (t' & ? & ? & ? & _). eauto.
Qed.

Lemma same_data_rank (t t' : tree) : same_data t t' → rank t' = rank t.
Proof. destruct t, t'; cbn; try done. by intros (_ & -> & _). Qed.

Lemma same_data_tsize (t t' : tree) : same_data t t' → tsize t' = tsize t.
Proof.
  revert t'. induction t as [|l v d tl IHl tr IHr]; intros [|l' v' d' tl' tr'];
    cbn [same_data]; try done.
  intros (_ & _ & Hl & Hr). rewrite !tsize_Nd. by rewrite (IHl _ Hl), (IHr _ Hr).
Qed.

Lemma same_data_elems (t t' : tree) : same_data t t' → elems t' = elems t.
Proof.
  revert t'. induction t as [|l v d tl IHl tr IHr]; intros [|l' v' d' tl' tr'];
    cbn [same_data]; try done.
  intros (-> & _ & Hl & Hr). cbn. by rewrite (IHl _ Hl), (IHr _ Hr).
Qed.

Lemma same_data_leftist (t t' : tree) :
  same_data t t' → leftist t → leftist t'.
Proof.
  revert t'. induction t as [|l v d tl IHl tr IHr]; intros [|l' v' d' tl' tr'];
    cbn [same_data leftist]; try done.
  intros (_ & <- & Hl & Hr) (? & ? & ? & ?).
  rewrite (same_data_rank _ _ Hl), (same_data_rank _ _ Hr).
  split_and!; eauto.
Qed.

Lemma same_data_root c (t t' : tree) v :
  same_data t t' → root_not_above c t v → root_not_above c t' v.
Proof. destruct t, t'; cbn; try done. by intros (<- & _). Qed.

Lemma same_data_heap c (t t' : tree) :
  same_data t t' → heap_ordered c t → heap_ordered c t'.
Proof.
  revert t'. induction t as [|l v d tl IHl tr IHr]; intros [|l' v' d' tl' tr'];
    cbn [same_data heap_ordered]; try done.
  intros (<- & _ & Hl & Hr) (? & ? & ? & ?).
  split_and!; eauto using same_data_root.
Qed.

Lemma inv_dead F (s : state) h :
  inv F s → queues s !! h = None → F !! h = None.
Proof.
  intros Hinv Hq. destruct (F !! h) as [t|] eqn:Ht; [|done].
  destruct (inv_owns _ _ Hinv h t Ht) as [Hq' _ _]. congruence.
Qed.

Lemma inv_live F (s : state) h :
  inv F s → is_Some (queues s !! h) → ∃ t, F !! h = Some t.
Proof. intros Hinv Hq. by apply (inv_dom _ _ Hinv). Qed.

Lemma default_spec F (s : state) h :
  inv F s → queues s !! h = None →
  ∃ s', pq_default h s = (Ok tt, s') ∧ cap s' = cap s ∧ mem s' = mem s ∧
        inv (<[h := Leaf]> F) s'.
Proof.
  intros Hinv Hq. unfold pq_default, begin_lifetime. rewrite Hq.
  eexists. split; [reflexivity|]. split; [done|]. split; [done|].
  pose proof (inv_dead _ _ _ Hinv Hq) as HF.
  split; cbn.
  - apply (inv_size _ _ Hinv).
  - apply (inv_cap _ _ Hinv).
  - intros h' Hh'. rewrite lookup_insert in Hh'. rewrite lookup_insert.
    case_decide; [by eexists|]. by apply (inv_dom _ _ Hinv).
  - intros h' t Ht. rewrite lookup_insert in Ht.
    destruct (decide (h = h')) as [<-|Hne]; simplify_eq.
    + split; cbn; [by rewrite lookup_insert_eq|done|apply good_Leaf].
    + eapply owns_frame; [by apply (inv_owns _ _ Hinv)| |done].
      cbn. by rewrite lookup_insert_ne.
  - intros h1 h2 t1 t2 l Hne H1 H2 Hin1 Hin2.
    rewrite lookup_insert in H1. rewrite lookup_insert in H2.
    destruct (decide (h = h1)) as [<-|Hn1]; simplify_eq.
    { by apply elem_of_nil in Hin1. }
    destruct (decide (h = h2)) as [<-|Hn2]; simplify_eq.
    { by apply elem_of_nil in Hin2. }
    by eapply (inv_disj _ _ Hinv h1 h2).
Qed.

Lemma copy_spec F (s : state) this other (t : tree) fuel :
  inv F s → F !! other = Some t → queues s !! this = None →
  ∃ r s', pq_copy fuel this other s = (r, s') ∧ cap s' = cap s ∧
    mem s ⊆ mem s' ∧
    match r with
    | Ok _ =>
        ∃ t', inv (<[this := t']> F) s' ∧ same_data t t' ∧
              size (mem s') = (size (mem s) + tsize t)%nat
    | Throw ex =>
        ex = bad_alloc ∧ inv F s' ∧ queues s' = queues s ∧
        (cap s ≤ size (mem s'))%nat
    | Fault => False
    | OutOfFuel => (fuel ≤ tsize t)%nat
    end.
Proof.
  intros Hinv Ht Hthis. unfold pq_copy.
  pose proof (inv_owns _ _ Hinv other _ Ht) as [Hq Hs Hg].
  pose proof (inv_dead _ _ _ Hinv Hthis) as HF.
  assert (Hne : this ≠ other) by (intros ->; congruence).
  rewrite (bind_ok _ _ _ _ _ (get_queue_ok _ _ _ Hq)). cbn [cnt comp].
  unfold bind at 1, begin_lifetime at 1. rewrite Hthis.
  set (q0 := mkPq None _ _). set (s1 := with_queues s _).
  assert (Hq1 : queues s1 !! other
                = Some (mkPq (ptr_of t) (Z.of_nat (tsize t)) default_comp)).
  { cbn. by rewrite lookup_insert_ne. }
  destruct (clone_spec fuel s1 t Hs)
    as (r & s2 & Hrun & (Hcap2 & Hqs2 & _) & Hsub & Hsize & Hres).
  unfold s1 in Hcap2, Hqs2, Hsub, Hsize, Hres.
  cbn in Hcap2, Hqs2, Hsub, Hsize, Hres.
  specialize (Hsize (inv_size _ _ Hinv)).
  assert (Hframe : ∀ h' (t'' : tree) (s' : state), F !! h' = Some t'' →
            mem s' = mem s2 → queues s' !! h' = queues s !! h' →
            owns s' h' t'').
  { intros h' t'' s' Ht'' Hm' Hq'.
    eapply owns_frame; [by apply (inv_owns _ _ Hinv)|done|].
    intros l Hl. destruct (inv_lookup _ _ _ _ _ Hinv Ht'' Hl) as [n Hn].
    rewrite Hm', Hn. eapply lookup_weaken; eauto. }
  destruct r as [p|ex| |]; try done.
  - destruct Hres as (t' & -> & Hs' & Hnd' & Hfresh & Hdata & Hcount).
    eexists (Ok tt), _. split; [|split; [|split]].
    { erewrite try_catch_ok; [reflexivity|].
      rewrite (bind_ok _ _ _ _ _ (get_queue_ok s1 _ _ Hq1)). cbn [root].
      rewrite (bind_ok _ _ _ _ _ Hrun).
      apply modify_queue_ok. rewrite Hqs2. apply lookup_insert_eq. }
    { done. }
    { done. }
    exists t'. split; [|split; [done|exact Hcount]].
    cbn. rewrite Hqs2, insert_insert_eq.
    unfold set_root, q0. cbn.
    split; cbn.
    + by rewrite Hcap2.
    + rewrite Hcap2. apply (inv_cap _ _ Hinv).
    + intros h' Hh'. rewrite lookup_insert in Hh'. rewrite lookup_insert.
      case_decide; [by eexists|]. by apply (inv_dom _ _ Hinv).
    + intros h' t'' Ht''. rewrite lookup_insert in Ht''.
      destruct (decide (this = h')) as [<-|Hn]; simplify_eq.
      * split; cbn.
        -- rewrite lookup_insert_eq.
           by rewrite (same_data_tsize _ _ Hdata).
        -- done.
        -- destruct Hg as [_ Hl Hh]. split; [done| |].
           ++ by eapply same_data_leftist.
           ++ by eapply same_data_heap.
      * apply Hframe; [done|done|]. cbn. by rewrite lookup_insert_ne.
    + intros h1 h2 t1 t2 l Hn H1 H2 Hin1 Hin2.
      rewrite lookup_insert in H1. rewrite lookup_insert in H2.
      destruct (decide (this = h1)) as [<-|Hn1];
        destruct (decide (this = h2)) as [<-|Hn2]; simplify_eq.
      * apply Hfresh in Hin1.
        destruct (inv_lookup _ _ _ _ _ Hinv H2 Hin2). congruence.
      * apply Hfresh in Hin2.
        destruct (inv_lookup _ _ _ _ _ Hinv H1 Hin1). congruence.
      * by eapply (inv_disj _ _ Hinv h1 h2).
  - destruct Hres as [-> Hfull].
    assert (Hq2 : queues s2 !! this = Some q0).
    { rewrite Hqs2. apply lookup_insert_eq. }
    eexists (Throw bad_alloc), _. split; [|split; [|split]].
    { erewrite try_catch_throw; cycle 1.
      { rewrite (bind_ok _ _ _ _ _ (get_queue_ok s1 _ _ Hq1)). cbn [root].
        by rewrite (bind_throw _ _ _ _ _ Hrun). }
      unfold bind at 1, end_lifetime at 1. rewrite Hq2. reflexivity. }
    { done. }
    { done. }
    cbn. rewrite Hqs2, delete_insert_id by done.
    split_and!; try done.
    split; cbn.
    + by rewrite Hcap2.
    + rewrite Hcap2. apply (inv_cap _ _ Hinv).
    + apply (inv_dom _ _ Hinv).
    + intros h' t'' Ht''. by apply Hframe.
    + apply (inv_disj _ _ Hinv).
  - eexists OutOfFuel, _. split; [|split; [|split]].
    { erewrite try_catch_out_of_fuel; [reflexivity|].
      rewrite (bind_ok _ _ _ _ _ (get_queue_ok s1 _ _ Hq1)). cbn [root].
      by rewrite (bind_out_of_fuel _ _ _ _ Hrun). }
    { done. }
    { done. }
    done.
Qed.

Lemma dtor_spec F (s : state) h (t : tree) fuel :
  inv F s → F !! h = Some t →
  ∃ r s', pq_dtor fuel h s = (r, s') ∧ cap s' = cap s ∧
    match r with
    | Ok _ =>
        inv (delete h F) s' ∧ queues s' = delete h (queues s) ∧
        (∀ l, l ∈ locs t → mem s' !! l = None) ∧
        (∀ l, l ∉ locs t → mem s' !! l = mem s !! l) ∧
        (size (mem s') + tsize t = size (mem s))%nat
    | OutOfFuel => (fuel ≤ tsize t)%nat
    | _ => False
    end.
Proof.
  intros Hinv Ht. unfold pq_dtor.
  pose proof (inv_owns _ _ Hinv h _ Ht) as [Hq Hs Hg].
  rewrite (bind_ok _ _ _ _ _ (get_queue_ok _ _ _ Hq)). cbn [root].
  destruct (destroy_spec fuel s t Hs (good_nodup _ Hg))
    as (r & s1 & Hrun & (Hcap1 & Hqs1 & _) & Hres).
  destruct Hres as [(-> & Hgone & Hkeep)|[-> Hfuel]]; cycle 1.
  { eexists OutOfFuel, _. split; [|split]; [|done|done].
    by rewrite (bind_out_of_fuel _ _ _ _ Hrun). }
  assert (Hq1 : queues s1 !! h
                = Some (mkPq (ptr_of t) (Z.of_nat (tsize t)) default_comp)).
  { by rewrite Hqs1. }
  eexists (Ok tt), _. split; [|split].
  { rewrite (bind_ok _ _ _ _ _ Hrun). unfold end_lifetime. rewrite Hq1.
    reflexivity. }
  { done. }
  cbn. rewrite Hqs1. split; [|split_and!; try done]; cycle 1.
  { eapply size_gone; [exact (good_nodup _ Hg)| |exact Hgone|exact Hkeep].
    intros l Hl. by eapply shape_lookup. }
  assert (Hsub : mem s1 ⊆ mem s).
  { apply map_subseteq_spec. intros l n Hl.
    destruct (decide (l ∈ locs t)) as [Hin|Hin].
    - rewrite Hgone in Hl by done. done.
    - by rewrite Hkeep in Hl. }
  split; cbn.
  - rewrite Hcap1. etrans; [|apply (inv_size _ _ Hinv)].
    by apply map_subseteq_size.
  - rewrite Hcap1. apply (inv_cap _ _ Hinv).
  - intros h' Hh'. rewrite lookup_delete in Hh'. rewrite lookup_delete.
    case_decide; [by destruct Hh'|]. by apply (inv_dom _ _ Hinv).
  - intros h' t' Ht'. rewrite lookup_delete in Ht'.
    destruct (decide (h = h')) as [<-|Hne]; [done|].
    eapply owns_frame; [by apply (inv_owns _ _ Hinv)| |].
    + cbn. by rewrite lookup_delete_ne.
    + intros l Hl. apply Hkeep.
      by eapply (inv_disj _ _ Hinv h' h).
  - intros h1 h2 t1 t2 l Hne H1 H2.
    rewrite lookup_delete in H1. rewrite lookup_delete in H2.
    destruct (decide (h = h1)); [done|]. destruct (decide (h = h2)); [done|].
    by eapply (inv_disj _ _ Hinv h1 h2).
Qed.

(** Exchanging the members of two queue objects exchanges their trees. *)
Lemma inv_swap F (s : state) a b (ta tb : tree) qs :
  inv F s → a ≠ b → F !! a = Some ta → F !! b = Some tb →
  qs !! a = queues s !! b → qs !! b = queues s !! a →
  (∀ h, h ≠ a → h ≠ b → qs !! h = queues s !! h) →
  inv (<[a := tb]> (<[b := ta]> F)) (with_queues s qs).
Proof.
  intros Hinv Hne Ha Hb Hqa Hqb Hqo.
  set (swap := λ h : positive,
         if decide (h = a) then b else if decide (h = b) then a else h).
  assert (HF : ∀ h, <[a := tb]> (<[b := ta]> F) !! h = F !! swap h).
  { intros h. unfold swap. rewrite !lookup_insert.
    repeat case_decide; congruence. }
  assert (Hqs : ∀ h, qs !! h = queues s !! swap h).
  { intros h. unfold swap. repeat case_decide; subst; auto. }
  assert (Hinj : ∀ h1 h2, h1 ≠ h2 → swap h1 ≠ swap h2).
  { intros h1 h2. unfold swap. repeat case_decide; congruence. }
  split; cbn.
  - apply (inv_size _ _ Hinv).
  - apply (inv_cap _ _ Hinv).
  - intros h Hh. rewrite HF. rewrite Hqs in Hh. by apply (inv_dom _ _ Hinv).
  - intros h t Ht. rewrite HF in Ht.
    destruct (inv_owns _ _ Hinv _ t Ht) as [Hq0 Hs Hg].
    split; cbn; [by rewrite Hqs|done|done].
  - intros h1 h2 t1 t2 l Hn H1 H2. rewrite HF in H1. rewrite HF in H2.
    eapply (inv_disj _ _ Hinv (swap h1) (swap h2)); eauto.
Qed.

Lemma assign_spec F (s : state) this other (t1 t2 : tree) fuel :
  inv F s → this ≠ other → F !! this = Some t1 → F !! other = Some t2 →
  ∃ r s', pq_assign fuel this other s = (r, s') ∧ cap s' = cap s ∧
    match r with
    | Ok _ =>
        ∃ t', inv (<[this := t']> F) s' ∧ same_data t2 t' ∧
              (size (mem s') + tsize t1 = size (mem s) + tsize t2)%nat ∧
              (∀ l, l ∈ locs t1 → mem s' !! l = None)
    | Throw ex =>
        ex = bad_alloc ∧ inv F s' ∧ queues s' = queues s ∧ mem s ⊆ mem s' ∧
        (cap s ≤ size (mem s'))%nat
    | Fault => False
    | OutOfFuel => (fuel ≤ tsize t1 ∨ fuel ≤ tsize t2)%nat
    end.
Proof.
  intros Hinv Hne Ht1 Ht2. unfold pq_assign.
  destruct (decide (this = other)) as [|_]; [done|].
  unfold bind at 1, local_handle at 1.
  set (tmp := fresh (dom (queues s))).
  assert (Htmp : queues s !! tmp = None).
  { apply not_elem_of_dom, is_fresh. }
  pose proof (inv_dead _ _ _ Hinv Htmp) as HFtmp.
  assert (Hn1 : tmp ≠ this) by (intros Heq; rewrite Heq in HFtmp; congruence).
  assert (Hn2 : tmp ≠ other) by (intros Heq; rewrite Heq in HFtmp; congruence).
  clearbody tmp.
  destruct (copy_spec F s tmp other t2 fuel Hinv Ht2 Htmp)
    as (r & s1 & Hrun & Hcap1 & Hsub1 & Hres).
  destruct r as [[]|ex| |]; try done.
  2: { exists (Throw ex), s1. rewrite (bind_throw _ _ _ _ _ Hrun).
       destruct Hres as (? & ? & ? & ?). split_and!; done. }
  2: { exists OutOfFuel, s1. rewrite (bind_out_of_fuel _ _ _ _ Hrun).
       split_and!; try done. by right. }
  destruct Hres as (t' & Hinv1 & Hdata & Hcount1).
  rewrite (bind_ok _ _ _ _ _ Hrun).
  set (F1 := <[tmp := t']> F) in *.
  assert (HF1this : F1 !! this = Some t1) by (unfold F1; by rewrite lookup_insert_ne).
  assert (HF1tmp : F1 !! tmp = Some t') by apply lookup_insert_eq.
  assert (HF1other : F1 !! other = Some t2) by (unfold F1; by rewrite lookup_insert_ne).
  pose proof (inv_owns _ _ Hinv1 this _ HF1this) as [Hq1 _ _].
  pose proof (inv_owns _ _ Hinv1 tmp _ HF1tmp) as [Hqt _ _].
  pose proof (inv_owns _ _ Hinv1 other _ HF1other) as [Hqo _ _].
  set (q1 := mkPq (ptr_of t1) _ _) in *.
  set (qt := mkPq (ptr_of t') _ _) in *.
  set (qo := mkPq (ptr_of t2) _ _) in *.
  set (qs := <[this := qt]> (<[tmp := q1]> (queues s1))).
  assert (Hswap : inv (<[this := t']> (<[tmp := t1]> F1)) (with_queues s1 qs)).
  { apply inv_swap; try done.
    - unfold qs. by rewrite lookup_insert_eq.
    - unfold qs. rewrite lookup_insert_ne by done. by rewrite lookup_insert_eq.
    - intros h Ha Hb. unfold qs. by rewrite !lookup_insert_ne. }
  assert (HF2 : <[this := t']> (<[tmp := t1]> F1) !! tmp = Some t1).
  { rewrite lookup_insert_ne by done. apply lookup_insert_eq. }
  destruct (dtor_spec _ _ tmp t1 fuel Hswap HF2)
    as (r & s3 & Hrun3 & Hcap3 & Hres3).
  assert (Hexec : ∀ (k : M unit) r s',
    k (with_queues s1 qs) = (r, s') →
    (q <- get_queue this ;;
     let tr := root q in
     t <- get_queue tmp ;;
     modify_queue this (λ q, set_root q (root t)) ;;;
     modify_queue tmp (λ t, set_root t tr) ;;;
     q <- get_queue this ;;
     let tc := cnt q in
     t <- get_queue tmp ;;
     modify_queue this (λ q, set_cnt q (cnt t)) ;;;
     modify_queue tmp (λ t, set_cnt t tc) ;;;
     o <- get_queue other ;;
     modify_queue this (λ q, set_comp q (comp o)) ;;;
     k) s1 = (r, s')).
  { intros k r0 s0 Hk.
    rewrite (bind_ok _ _ _ _ _ (get_queue_ok _ _ _ Hq1)). cbv zeta.
    rewrite (bind_ok _ _ _ _ _ (get_queue_ok _ _ _ Hqt)).
    rewrite (bind_ok _ _ _ _ _ (modify_queue_ok _ _ _ _ Hq1)).
    erewrite bind_ok; cycle 1.
    { apply modify_queue_ok. cbn. rewrite lookup_insert_ne by done. exact Hqt. }
    erewrite bind_ok; cycle 1.
    { apply get_queue_ok. cbn. rewrite lookup_insert_ne by done.
      apply lookup_insert_eq. }
    erewrite bind_ok; cycle 1.
    { apply get_queue_ok. cbn. apply lookup_insert_eq. }
    erewrite bind_ok; cycle 1.
    { apply modify_queue_ok. cbn. rewrite lookup_insert_ne by done.
      apply lookup_insert_eq. }
    erewrite bind_ok; cycle 1.
    { apply modify_queue_ok. cbn. rewrite lookup_insert_ne by done.
      apply lookup_insert_eq. }
    erewrite bind_ok; cycle 1.
    { apply get_queue_ok. cbn. rewrite !lookup_insert_ne by done. exact Hqo. }
    erewrite bind_ok; cycle 1.
    { apply modify_queue_ok. cbn. rewrite lookup_insert_ne by done.
      apply lookup_insert_eq. }
    rewrite <- Hk. f_equal. unfold with_queues. cbn. f_equal.
    apply map_eq. intros h. unfold qs. rewrite !lookup_insert.
    repeat case_decide; try congruence; done. }
  exists r, s3. split; [by apply Hexec|]. split; [by rewrite Hcap3|].
  destruct r as [[]|ex| |]; try done.
  - destruct Hres3 as (Hinv3 & _ & Hgone3 & _ & Hcount3). exists t'.
    split; [|split_and!; [done|cbn in Hcount3; lia|done]].
    replace (<[this := t']> F)
      with (delete tmp (<[this := t']> (<[tmp := t1]> F1))); [done|].
    apply map_eq. intros h. unfold F1.
    rewrite lookup_delete, !lookup_insert.
    repeat case_decide; congruence.
  - by left.
Qed.

Lemma top_spec F (s : state) h (t : tree) :
  inv F s → F !! h = Some t →
  pq_top h s
  = (match t with
     | Leaf => Throw container_is_empty
     | Nd _ v _ _ _ => Ok v
     end, s).
Proof.
  intros Hinv Ht. unfold pq_top.
  pose proof (inv_owns _ _ Hinv h _ Ht) as [Hq Hs Hg].
  rewrite (bind_ok _ _ _ _ _ (pq_empty_ok _ _ _ Hq)). cbn [cnt].
  destruct t as [|l v d tl tr]; [done|].
  rewrite tsize_Nd.
  replace (Z.of_nat (S (tsize tl + tsize tr)) =? 0) with false
    by (symmetry; apply Z.eqb_neq; lia).
  rewrite (bind_ok _ _ _ _ _ (get_queue_ok _ _ _ Hq)). cbn [root ptr_of].
  destruct Hs as (Hl & _ & _).
  by rewrite (bind_ok _ _ _ _ _ (load_ok _ _ _ Hl)).
Qed.

Lemma pop_empty_spec F (s : state) h fuel :
  inv F s → F !! h = Some Leaf →
  pq_pop fuel h s = (Throw container_is_empty, s).
Proof.
  intros Hinv Ht. unfold pq_pop.
  pose proof (inv_owns _ _ Hinv h _ Ht) as [Hq Hs Hg].
  by rewrite (bind_ok _ _ _ _ _ (pq_empty_ok _ _ _ Hq)).
Qed.

Lemma size_spec F (s : state) h (t : tree) :
  inv F s → F !! h = Some t →
  pq_size h s = (Ok (Z.of_nat (tsize t)), s).
Proof.
  intros Hinv Ht. unfold pq_size.
  pose proof (inv_owns _ _ Hinv h _ Ht) as [Hq Hs Hg].
  by rewrite (bind_ok _ _ _ _ _ (get_queue_ok _ _ _ Hq)).
Qed.

Lemma empty_spec F (s : state) h (t : tree) :
  inv F s → F !! h = Some t →
  pq_empty h s = (Ok (Z.of_nat (tsize t) =? 0), s).
Proof.
  intros Hinv Ht.
  pose proof (inv_owns _ _ Hinv h _ Ht) as [Hq Hs Hg].
  by rewrite (pq_empty_ok _ _ _ Hq).
Qed.

(** The outcome of a call followed by [ret v]. *)
Lemma bind_ret {A B} (c : M A) (v : B) (s : state) r s' :
  c s = (r, s') →
  bind c (λ _, ret v) s
  = (match r with
     | Ok _ => Ok v
     | Throw e => Throw e
     | Fault => Fault
     | OutOfFuel => OutOfFuel
     end, s').
Proof. unfold bind. intros ->. by destruct r. Qed.

(** * Every call keeps the invariant *)

(** A valid call in a state with the invariant has defined behaviour, runs
    out of fuel only if it was given no more than the capacity of the free
    store, and otherwise ends in a state with the invariant. *)
Lemma run_spec F (s : state) fuel c :
  inv F s → valid_call s c →
  ∃ r s', run fuel c s = (r, s') ∧ cap s' = cap s ∧ r ≠ Fault ∧
          (r = OutOfFuel → (fuel ≤ cap s)%nat) ∧
          (r ≠ OutOfFuel → wf s').
Proof.
  intros Hinv Hvalid.
  pose proof (inv_size _ _ Hinv) as Hsize.
  destruct c as [this|this other|this|this other|this|this e|this|this|this
                |this other]; cbn [valid_call run] in *.
  - assert (Hq : queues s !! this = None).
    { destruct (queues s !! this) eqn:Hq; [|done]. destruct Hvalid. by eexists. }
    destruct (default_spec F s this Hinv Hq) as (s' & Hrun & Hcap & _ & Hinv').
    eexists _, _. split; [by apply bind_ret|]. split_and!; try done.
    intros _. by eexists.
  - destruct Hvalid as [Hdead Hlive].
    assert (Hq : queues s !! this = None).
    { destruct (queues s !! this) eqn:Hq; [|done]. destruct Hdead. by eexists. }
    destruct (inv_live _ _ _ Hinv Hlive) as [t Ht].
    pose proof (inv_tsize _ _ _ _ Hinv Ht).
    destruct (copy_spec F s this other t fuel Hinv Ht Hq)
      as (r & s' & Hrun & Hcap & _ & Hres).
    eexists _, _. split; [by apply bind_ret|].
    destruct r as [[]|ex| |]; try done; split_and!; try done.
    + intros _. destruct Hres as (t' & ? & _). by eexists.
    + intros _. destruct Hres as (_ & ? & _). by eexists.
    + intros _. lia.
  - destruct (inv_live _ _ _ Hinv Hvalid) as [t Ht].
    pose proof (inv_tsize _ _ _ _ Hinv Ht).
    destruct (dtor_spec F s this t fuel Hinv Ht) as (r & s' & Hrun & Hcap & Hres).
    eexists _, _. split; [by apply bind_ret|].
    destruct r as [[]|ex| |]; try done; split_and!; try done.
    + intros _. destruct Hres as (? & _). by eexists.
    + intros _. lia.
  - destruct Hvalid as [Hlive1 Hlive2].
    destruct (decide (this = other)) as [<-|Hne].
    { exists (Ok VUnit), s. unfold pq_assign.
      destruct (decide (this = this)); [|done].
      split_and!; try done. intros _. by eexists. }
    destruct (inv_live _ _ _ Hinv Hlive1) as [t1 Ht1].
    destruct (inv_live _ _ _ Hinv Hlive2) as [t2 Ht2].
    pose proof (inv_tsize _ _ _ _ Hinv Ht1).
    pose proof (inv_tsize _ _ _ _ Hinv Ht2).
    destruct (assign_spec F s this other t1 t2 fuel Hinv Hne Ht1 Ht2)
      as (r & s' & Hrun & Hcap & Hres).
    eexists _, _. split; [by apply bind_ret|].
    destruct r as [[]|ex| |]; try done; split_and!; try done.
    + intros _. destruct Hres as (t' & ? & _). by eexists.
    + intros _. destruct Hres as (_ & ? & _). by eexists.
    + intros _. lia.
  - destruct (inv_live _ _ _ Hinv Hvalid) as [t Ht].
    pose proof (top_spec _ _ _ _ Hinv Ht) as Hrun.
    destruct t as [|l v d tl tr].
    + exists (Throw container_is_empty), s.
      rewrite (bind_throw _ _ _ _ _ Hrun).
      split_and!; try done. intros _. by eexists.
    + exists (Ok (VElem v)), s. rewrite (bind_ok _ _ _ _ _ Hrun).
      split_and!; try done. intros _. by eexists.
  - destruct (inv_live _ _ _ Hinv Hvalid) as [t Ht].
    pose proof (inv_tsize _ _ _ _ Hinv Ht).
    destruct (push_spec F s this t fuel e Hinv Ht)
      as (r & s' & Hrun & Hcap & _ & Hres).
    eexists _, _. split; [by apply bind_ret|].
    destruct r as [[]|ex| |]; try done; split_and!; try done.
    + intros _. destruct Hres as (t' & ? & _). by eexists.
    + intros _. destruct Hres as (? & _). by eexists.
    + intros _. lia.
  - destruct (inv_live _ _ _ Hinv Hvalid) as [t Ht].
    pose proof (inv_tsize _ _ _ _ Hinv Ht) as Hsz.
    destruct t as [|l v d tl tr].
    { exists (Throw container_is_empty), s.
      rewrite (bind_throw _ _ _ _ _ (pop_empty_spec _ _ _ fuel Hinv Ht)).
      split_and!; try done. intros _. by eexists. }
    rewrite tsize_Nd in Hsz.
    destruct (pop_spec F s this l v d tl tr fuel Hinv Ht)
      as (r & s' & Hrun & Hcap & _ & Hres).
    eexists _, _. split; [by apply bind_ret|].
    destruct r as [[]|ex| |]; try done; split_and!; try done.
    + intros _. destruct Hres as (t' & ? & _). by eexists.
    + intros _. destruct Hres as (? & _). by eexists.
    + intros _. lia.
  - destruct (inv_live _ _ _ Hinv Hvalid) as [t Ht].
    eexists _, s. rewrite (bind_ok _ _ _ _ _ (size_spec _ _ _ _ Hinv Ht)).
    split_and!; try done. intros _. by eexists.
  - destruct (inv_live _ _ _ Hinv Hvalid) as [t Ht].
    eexists _, s. rewrite (bind_ok _ _ _ _ _ (empty_spec _ _ _ _ Hinv Ht)).
    split_and!; try done. intros _. by eexists.
  - destruct Hvalid as [Hlive1 Hlive2].
    destruct (decide (this = other)) as [<-|Hne].
    { exists (Ok VUnit), s. unfold pq_merge.
      destruct (decide (this = this)); [|done].
      split_and!; try done. intros _. by eexists. }
    destruct (inv_live _ _ _ Hinv Hlive1) as [t1 Ht1].
    destruct (inv_live _ _ _ Hinv Hlive2) as [t2 Ht2].
    pose proof (inv_tsize2 _ _ _ _ _ _ Hinv Hne Ht1 Ht2).
    destruct (merge_spec F s this other t1 t2 fuel Hinv Hne Ht1 Ht2)
      as (r & s' & Hrun & Hcap & Hres).
    eexists _, _. split; [by apply bind_ret|].
    destruct r as [[]|ex| |]; try done; split_and!; try done.
    + intros _. destruct Hres as (t' & ? & _). by eexists.
    + intros _. destruct Hres as (? & _). by eexists.
    + intros _. lia.
Qed.

Lemma initial_wf capacity :
  Z.of_nat capacity < size_t_modulus → wf (initial capacity : state).
Proof.
  intros Hcap. exists ∅. split; cbn; try done.
  - rewrite map_size_empty. lia.
  - intros h [q Hq]. by rewrite lookup_empty in Hq.
Qed.

Lemma reachable_wf (s : state) : reachable s → wf s.
Proof.
  induction 1 as [capacity Hcap|s fuel c r s' _ [F Hinv] Hvalid Hrun Hr].
  - by apply initial_wf.
  - destruct (run_spec F s fuel c Hinv Hvalid)
      as (r' & s'' & Hrun' & _ & _ & _ & Hwf).
    rewrite Hrun in Hrun'. injection Hrun' as <- <-. by apply Hwf.
Qed.

(** * Calls during which the comparator throws *)

Lemma new_Node_inv v (s : state) r s' :
  new_Node v s = (r, s') →
  (r = Throw bad_alloc ∧ s' = s ∧ (cap s ≤ size (mem s))%nat) ∨
  (∃ l, r = Ok (Some l) ∧ mem s !! l = None ∧
        s' = with_mem s (<[l := mkNode v None None 1]> (mem s))).
Proof.
  unfold new_Node. destruct (decide (size (mem s) < cap s)%nat).
  - intros [= <- <-]. right. eexists. split_and!; try done.
    apply not_elem_of_dom, is_fresh.
  - intros [= <- <-]. left. split_and!; try done. lia.
Qed.

Lemma delete_Node_inv p (s : state) r s' :
  delete_Node p s = (r, s') →
  (r = Fault ∧ s' = s) ∨ (r = Ok tt ∧ p = None ∧ s' = s) ∨
  (∃ l, p = Some l ∧ is_Some (mem s !! l) ∧ r = Ok tt ∧
        s' = with_mem s (delete l (mem s))).
Proof.
  unfold delete_Node. destruct p as [l|]; [destruct (mem s !! l) eqn:Hl|];
    intros [= <- <-]; eauto 10.
Qed.

Lemma app_eq_self {A} (new l : list A) : new ++ l = l → new = [].
Proof.
  intros H. apply (f_equal length) in H. rewrite length_app in H.
  destruct new; [done|]. cbn in H. lia.
Qed.

Ltac no_calls :=
  exists []; split; [done|];
  let Hin := fresh "Hin" in intros ? ? ? Hin; by apply elem_of_nil in Hin.

(** What [push] does when a call of the comparator throws. *)
Lemma push_throw fuel this e (s : state) q r s' :
  queues s !! this = Some q →
  pq_push fuel this e s = (r, s') →
  ∃ new, calls s' = new ++ calls s ∧
    ∀ a b x, (a, b) ∈ new → invoke (comp q) a b = inl x →
      r = Throw (comp_exn x) ∧
      mem s' = mem s ∧ queues s' = queues s ∧ cap s' = cap s.
Proof.
  intros Hq H. unfold pq_push in H.
  mbind H n s1 Hnew; apply try_catch_inv in Hnew
    as [(ex & s0 & Hnew & Hh)|[Hnew Hnt]];
    apply new_Node_inv in Hnew
      as [(? & -> & Hfull)|(l & ? & Hfresh & ->)]; simplify_eq.
  all: try (by destruct (Hnt bad_alloc)).
  all: try (cbn in Hh; simplify_eq).
  2: { unfold throw in Hh. simplify_eq. no_calls. }
  clear Hnt.
  apply try_catch_inv in H as [(ex & s2 & Hbody & Hh)|[Hbody Hnt]].
  - mgetx Hbody q' Hq'. cbn in Hq'. simplify_eq.
    mbindx Hbody new_root s3 Hmeld.
    { mmodifyx Hbody q1 Hq1.
      apply modify_queue_inv in Hbody as [[? ?]|(q2 & _ & ? & ?)]; done. }
    destruct (meld_calls _ _ _ _ (with_mem s _) _ _ _ Hq Hmeld)
      as (new & Hcalls & Hcap & Hqs & Hthrows & Hatomic).
    destruct (Hatomic _ eq_refl) as (Hmem & _).
    cbn in Hcalls, Hcap, Hqs, Hmem.
    assert (Hl2 : mem s2 !! l = Some (mkNode e None None 1)).
    { rewrite Hmem. apply lookup_insert_eq. }
    rewrite (bind_ok _ _ _ _ _ (delete_Node_ok s2 l _ Hl2)) in Hh.
    unfold throw in Hh. simplify_eq. exists new. split; [done|].
    intros a b y Hin Hinv. cbn. split_and!; try done.
    + specialize (Hthrows _ _ _ Hin Hinv). by simplify_eq.
    + rewrite Hmem. by apply delete_insert_id.
  - mget Hbody q' Hq'.
    { no_calls. }
    cbn in Hq'. simplify_eq.
    mbind Hbody new_root s3 Hmeld;
      destruct (meld_calls _ _ _ _ (with_mem s _) _ _ _ Hq Hmeld)
        as (new & Hcalls & Hcap & Hqs & Hthrows & Hatomic);
      cbn in Hcalls, Hcap, Hqs; exists new.
    + assert (calls s' = calls s3) as ->.
      { mmodify Hbody q1 Hq1; [done|].
        apply modify_queue_inv in Hbody as [[-> ->]|(q2 & _ & -> & ->)]; done. }
      split; [done|]. intros a b x Hin Hinv.
      by specialize (Hthrows _ _ _ Hin Hinv).
    + by destruct (Hnt x).
    + split; [done|]. intros a b x Hin Hinv.
      by specialize (Hthrows _ _ _ Hin Hinv).
    + split; [done|]. intros a b x Hin Hinv.
      by specialize (Hthrows _ _ _ Hin Hinv).
Qed.

Lemma pop_throw fuel this (s : state) q r s' :
  queues s !! this = Some q →
  pq_pop fuel this s = (r, s') →
  ∃ new, calls s' = new ++ calls s ∧
    ∀ a b x, (a, b) ∈ new → invoke (comp q) a b = inl x →
      r = Throw (comp_exn x) ∧
      mem s' = mem s ∧ queues s' = queues s ∧ cap s' = cap s.
Proof.
  intros Hq H. unfold pq_pop in H.
  rewrite (bind_ok _ _ _ _ _ (pq_empty_ok _ _ _ Hq)) in H.
  destruct (cnt q =? 0).
  { unfold throw in H. simplify_eq. no_calls. }
  rewrite (bind_ok _ _ _ _ _ (get_queue_ok _ _ _ Hq)) in H.
  mload H l n Hp Hl; [no_calls|].
  mload H l' n' Hp' Hl'; [no_calls|].
  apply try_catch_inv in H as [(ex & s2 & Hbody & Hh)|[Hbody Hnt]].
  - unfold throw in Hh. simplify_eq.
    mbindx Hbody new_root s3 Hmeld.
    { mmodifyx Hbody q1 Hq1. mmodifyx Hbody q2 Hq2.
      apply delete_Node_inv in Hbody
        as [[? ?]|[(? & ? & ?)|(? & ? & ? & ? & ?)]]; done. }
    destruct (meld_calls _ _ _ _ _ _ _ _ Hq Hmeld)
      as (new & Hcalls & Hcap & Hqs & Hthrows & Hatomic).
    destruct (Hatomic _ eq_refl) as (Hmem & _).
    exists new. split; [done|].
    intros a b y Hin Hinv. split_and!; try done.
    specialize (Hthrows _ _ _ Hin Hinv). by simplify_eq.
  - mbind Hbody new_root s3 Hmeld;
      destruct (meld_calls _ _ _ _ _ _ _ _ Hq Hmeld)
        as (new & Hcalls & Hcap & Hqs & Hthrows & Hatomic);
      exists new.
    + assert (calls s' = calls s3) as ->.
      { mmodify Hbody q1 Hq1; [done|]. mmodify Hbody q2 Hq2; [done|].
        apply delete_Node_inv in Hbody
          as [[? ->]|[(? & ? & ->)|(? & ? & ? & ? & ->)]]; done. }
      split; [done|]. intros a b x Hin Hinv.
      by specialize (Hthrows _ _ _ Hin Hinv).
    + by destruct (Hnt x).
    + split; [done|]. intros a b x Hin Hinv.
      by specialize (Hthrows _ _ _ Hin Hinv).
    + split; [done|]. intros a b x Hin Hinv.
      by specialize (Hthrows _ _ _ Hin Hinv).
Qed.

Lemma merge_throw fuel this other (s : state) q r s' :
  queues s !! this = Some q →
  pq_merge fuel this other s = (r, s') →
  ∃ new, calls s' = new ++ calls s ∧
    ∀ a b x, (a, b) ∈ new → invoke (comp q) a b = inl x →
      r = Throw (comp_exn x) ∧
      mem s' = mem s ∧ queues s' = queues s ∧ cap s' = cap s.
Proof.
  intros Hq H. unfold pq_merge in H.
  destruct (decide (this = other)) as [_|_].
  { unfold ret in H. simplify_eq. no_calls. }
  rewrite (bind_ok _ _ _ _ _ (get_queue_ok _ _ _ Hq)) in H.
  mget H o Ho; [no_calls|].
  apply try_catch_inv in H as [(ex & s2 & Hbody & Hh)|[Hbody Hnt]].
  - unfold throw in Hh. simplify_eq.
    mbindx Hbody new_root s3 Hmeld.
    { mmodifyx Hbody q1 Hq1. mgetx Hbody o1 Ho1.
      mmodifyx Hbody q2 Hq2. mmodifyx Hbody q3 Hq3.
      apply modify_queue_inv in Hbody as [[? ?]|(q4 & _ & ? & ?)]; done. }
    destruct (meld_calls _ _ _ _ _ _ _ _ Hq Hmeld)
      as (new & Hcalls & Hcap & Hqs & Hthrows & Hatomic).
    destruct (Hatomic _ eq_refl) as (Hmem & _).
    exists new. split; [done|].
    intros a b y Hin Hinv. split_and!; try done.
    specialize (Hthrows _ _ _ Hin Hinv). by simplify_eq.
  - mbind Hbody new_root s3 Hmeld;
      destruct (meld_calls _ _ _ _ _ _ _ _ Hq Hmeld)
        as (new & Hcalls & Hcap & Hqs & Hthrows & Hatomic);
      exists new.
    + assert (calls s' = calls s3) as ->.
      { mmodify Hbody q1 Hq1; [done|]. mget Hbody o1 Ho1; [done|].
        mmodify Hbody q2 Hq2; [done|]. mmodify Hbody q3 Hq3; [done|].
        apply modify_queue_inv in Hbody as [[-> ->]|(q4 & _ & -> & ->)]; done. }
      split; [done|]. intros a b x Hin Hinv.
      by specialize (Hthrows _ _ _ Hin Hinv).
    + by destruct (Hnt x).
    + split; [done|]. intros a b x Hin Hinv.
      by specialize (Hthrows _ _ _ Hin Hinv).
    + split; [done|]. intros a b x Hin Hinv.
      by specialize (Hthrows _ _ _ Hin Hinv).
Qed.

(** [size] and [top] read the queue objects and the free store only. *)
Lemma pq_size_ext h (s s' : state) :
  queues s' = queues s → fst (pq_size h s') = fst (pq_size h s).
Proof.
  intros Hq. unfold pq_size, bind, get_queue, ret. rewrite Hq.
  by destruct (queues s !! h).
Qed.

Lemma pq_top_ext h (s s' : state) :
  mem s' = mem s → queues s' = queues s →
  fst (pq_top h s') = fst (pq_top h s).
Proof.
  intros Hm Hq. unfold pq_top, pq_empty, bind, get_queue, load, ret, throw.
  rewrite Hq. destruct (queues s !! h) as [q|]; [|done]. cbn.
  destruct (cnt q =? 0); [done|]. rewrite Hq.
  destruct (queues s !! h) as [q'|]; [|done]. cbn.
  destruct (root q') as [l|]; [|done]. rewrite Hm.
  by destruct (mem s !! l).
Qed.

Lemma tree_of_ext h (s s' : state) (t : tree) :
  mem s' = mem s → queues s' = queues s → tree_of s' h t ↔ tree_of s h t.
Proof. intros Hm Hq. unfold tree_of. by rewrite Hm, Hq. Qed.

(** C2 (exception atomicity).  Take a [push], [pop] or [merge] on the
    queue [this] during which a call of the comparator of [this] throws
    the exception [x].  Then the call ends by throwing [x]; and afterwards
    the free store, the queue objects and the capacity are what they were
    before the call: no node the call allocated is left, the other queue of
    a [merge] is not cleared, every queue has the tree it had, and [size]
    and [top] return what they returned before. *)
Theorem comparator_exception_atomic fuel c this q (s : state) r s' x :
  melds_into c this →
  queues s !! this = Some q →
  run fuel c s = (r, s') →
  threw q s s' x →
  r = Throw (comp_exn x) ∧
  mem s' = mem s ∧ queues s' = queues s ∧ cap s' = cap s ∧
  (∀ h t, tree_of s' h t ↔ tree_of s h t) ∧
  fst (pq_size this s') = fst (pq_size this s) ∧
  fst (pq_top this s') = fst (pq_top this s).
Proof.
  intros Hc Hq Hrun (a & b & new' & Hcalls' & Hin & Hinv).
  assert (Hmain : ∀ (op : M unit) r0,
    op s = (r0, s') →
    (∃ new, calls s' = new ++ calls s ∧
       ∀ a b x, (a, b) ∈ new → invoke (comp q) a b = inl x →
         r0 = Throw (comp_exn x) ∧
         mem s' = mem s ∧ queues s' = queues s ∧ cap s' = cap s) →
    r0 = Throw (comp_exn x) ∧
    mem s' = mem s ∧ queues s' = queues s ∧ cap s' = cap s).
  { intros op r0 Hop (new & Hcalls & Hthrow).
    rewrite Hcalls' in Hcalls. apply app_inv_tail in Hcalls as ->.
    by apply (Hthrow a b x). }
  assert (Hrest : mem s' = mem s → queues s' = queues s →
    (∀ h t, tree_of s' h t ↔ tree_of s h t) ∧
    fst (pq_size this s') = fst (pq_size this s) ∧
    fst (pq_top this s') = fst (pq_top this s)).
  { intros Hm Hqs. split_and!.
    - intros h t. by apply tree_of_ext.
    - by apply pq_size_ext.
    - by apply pq_top_ext. }
  destruct c as [ | | | | |h e|h| | |h other]; cbn in Hc; try done; subst h;
    cbn [run] in Hrun; mbind Hrun u s1 Hop.
  1, 5, 9: unfold ret in Hrun; simplify_eq.
  - destruct (Hmain _ _ Hop (push_throw _ _ _ _ _ _ _ Hq Hop)) as [? _]. done.
  - destruct (Hmain _ _ Hop (pop_throw _ _ _ _ _ _ Hq Hop)) as [? _]. done.
  - destruct (Hmain _ _ Hop (merge_throw _ _ _ _ _ _ _ Hq Hop)) as [? _]. done.
  - destruct (Hmain _ _ Hop (push_throw _ _ _ _ _ _ _ Hq Hop))
      as ([= ->] & Hm & Hqs & Hcap). split_and!; try done; by apply Hrest.
  - by destruct (Hmain _ _ Hop (push_throw _ _ _ _ _ _ _ Hq Hop)).
  - by destruct (Hmain _ _ Hop (push_throw _ _ _ _ _ _ _ Hq Hop)).
  - destruct (Hmain _ _ Hop (pop_throw _ _ _ _ _ _ Hq Hop))
      as ([= ->] & Hm & Hqs & Hcap). split_and!; try done; by apply Hrest.
  - by destruct (Hmain _ _ Hop (pop_throw _ _ _ _ _ _ Hq Hop)).
  - by destruct (Hmain _ _ Hop (pop_throw _ _ _ _ _ _ Hq Hop)).
  - destruct (Hmain _ _ Hop (merge_throw _ _ _ _ _ _ _ Hq Hop))
      as ([= ->] & Hm & Hqs & Hcap). split_and!; try done; by apply Hrest.
  - by destruct (Hmain _ _ Hop (merge_throw _ _ _ _ _ _ _ Hq Hop)).
  - by destruct (Hmain _ _ Hop (merge_throw _ _ _ _ _ _ _ Hq Hop)).
Qed.

(** C9.  [merge] called with the receiver's own handle returns at once:
    the state after it, with the free store, the queue objects and the log
    of the comparator calls, is the state before it. *)
Theorem self_merge_is_noop fuel this (s : state) :
  pq_merge fuel this this s = (Ok tt, s).
Proof. unfold pq_merge. by destruct (decide (this = this)). Qed.

(** C10.  Copy-assignment of a queue to itself is detected and returns at
    once: nothing is cloned or allocated, and the state after it is the
    state before it. *)
Theorem self_assignment_is_noop fuel this (s : state) :
  pq_assign fuel this this s = (Ok tt, s).
Proof. unfold pq_assign. by destruct (decide (this = this)). Qed.

(** * Which exceptions a call can end in *)

Lemma throws_only_mono {A} (P Q : exn → Prop) (c : M A) :
  (∀ e, P e → Q e) → throws_only P c → throws_only Q c.
Proof. intros HPQ Hc s e s' H. eapply HPQ, Hc, H. Qed.

Lemma throws_only_bind {A B} P (c : M A) (k : A → M B) :
  throws_only P c → (∀ a, throws_only P (k a)) →
  throws_only P (bind c k).
Proof.
  intros Hc Hk s e s' H. mbindx H a s1 H1.
  - by eapply Hk.
  - by eapply Hc.
Qed.

Lemma throws_only_try_catch {A} P (body : M A) handler :
  throws_only P body → (∀ e, P e → throws_only P (handler e)) →
  throws_only P (try_catch body handler).
Proof.
  intros Hb Hh s e s' H.
  apply try_catch_inv in H as [(e0 & s1 & H0 & H)|[_ Hnt]].
  - eapply Hh; [|exact H]. by eapply Hb.
  - by destruct (Hnt e).
Qed.

Lemma throws_only_throw {A} (P : exn → Prop) e :
  P e → throws_only P (throw e : M A).
Proof. intros He s e' s' [= <- <-]. done. Qed.

Lemma throws_only_ret {A} P (a : A) : throws_only P (ret a).
Proof. intros s e s' [=]. Qed.

Lemma throws_only_load P p : throws_only P (load p).
Proof.
  intros s e s' H.
  apply load_inv in H as [_ [|(? & ? & ? & ? & ?)]]; done.
Qed.

Lemma throws_only_store P p n : throws_only P (store p n).
Proof.
  intros s e s' H.
  apply store_inv in H as [[? ?]|(? & ? & ? & ? & ?)]; done.
Qed.

Lemma throws_only_get_queue P h : throws_only P (get_queue h).
Proof.
  intros s e s' H. apply get_queue_inv in H as [_ [|(? & ? & ?)]]; done.
Qed.

Lemma throws_only_modify_queue P h f : throws_only P (modify_queue h f).
Proof.
  intros s e s' H.
  apply modify_queue_inv in H as [[? ?]|(? & ? & ? & ?)]; done.
Qed.

Lemma throws_only_delete_Node P p : throws_only P (delete_Node p).
Proof.
  intros s e s' H.
  apply delete_Node_inv in H as [[? ?]|[(? & ? & ?)|(? & ? & ? & ? & ?)]];
    done.
Qed.

Lemma throws_only_new_Node v : throws_only (λ e, e = bad_alloc) (new_Node v).
Proof.
  intros s e s' H.
  apply new_Node_inv in H as [([= ->] & _)|(? & ? & _)]; done.
Qed.

Lemma throws_only_call_comp c a b :
  throws_only from_comparator (call_comp c a b).
Proof.
  intros s e s' H.
  apply call_comp_inv in H as [_ [(? & _ & ?)|(x & _ & [= ->])]];
    [done|by eexists].
Qed.

Lemma throws_only_begin_lifetime P h q : throws_only P (begin_lifetime h q).
Proof.
  intros s e s'. unfold begin_lifetime. by destruct (queues s !! h).
Qed.

Lemma throws_only_end_lifetime P h : throws_only P (end_lifetime h).
Proof.
  intros s e s'. unfold end_lifetime. by destruct (queues s !! h).
Qed.

Lemma throws_only_local_handle P : throws_only P local_handle.
Proof. intros s e s' [=]. Qed.

Ltac throws_step :=
  first
    [ apply throws_only_throw; assumption
    | apply throws_only_ret
    | apply throws_only_load
    | apply throws_only_store
    | apply throws_only_get_queue
    | apply throws_only_modify_queue
    | apply throws_only_delete_Node
    | apply throws_only_begin_lifetime
    | apply throws_only_end_lifetime
    | apply throws_only_local_handle
    | assumption
    | apply throws_only_try_catch; [|intros ? ?]
    | apply throws_only_bind; [|intros ?] ].

Lemma throws_only_npl P p : throws_only P (npl p).
Proof. destruct p; unfold npl; repeat throws_step. Qed.

Lemma throws_only_meld_link P a nr : throws_only P (meld_link a nr).
Proof.
  unfold meld_link.
  repeat first [ throws_step | apply throws_only_npl | case_match ].
Qed.

Lemma throws_only_meld fuel : ∀ this a b,
  throws_only from_comparator (meld fuel this a b).
Proof.
  induction fuel as [|fuel IH]; intros this a b; cbn [meld].
  { intros s e s' [=]. }
  destruct a, b;
    repeat first [ apply throws_only_call_comp | apply IH
                 | apply throws_only_meld_link | throws_step ].
Qed.

Lemma throws_only_destroy P fuel : ∀ x, throws_only P (destroy fuel x).
Proof.
  induction fuel as [|fuel IH]; intros x; cbn [destroy].
  { intros s e s' [=]. }
  destruct x; repeat first [ apply IH | throws_step ].
Qed.

Lemma throws_only_clone fuel : ∀ x,
  throws_only (λ e, e = bad_alloc) (clone fuel x).
Proof.
  induction fuel as [|fuel IH]; intros x; cbn [clone].
  { intros s e s' [=]. }
  destruct x;
    repeat first [ apply IH | apply throws_only_new_Node | throws_step ].
Qed.

Lemma throws_only_copy fuel this other :
  throws_only (λ e, e = bad_alloc) (pq_copy fuel this other).
Proof.
  unfold pq_copy.
  repeat first [ apply throws_only_clone | throws_step ].
Qed.

Lemma throws_only_dtor P fuel this : throws_only P (pq_dtor fuel this).
Proof.
  unfold pq_dtor. repeat first [ apply throws_only_destroy | throws_step ].
Qed.

Lemma throws_only_assign fuel this other :
  throws_only (λ e, e = bad_alloc) (pq_assign fuel this other).
Proof.
  unfold pq_assign. case_decide; [apply throws_only_ret|].
  repeat first [ apply throws_only_copy | apply throws_only_dtor
               | throws_step ].
Qed.

Lemma throws_only_push fuel this e :
  throws_only (λ e, e = bad_alloc ∨ from_comparator e) (pq_push fuel this e).
Proof.
  unfold pq_push.
  repeat first
    [ eapply throws_only_mono; [|apply throws_only_new_Node]; by left
    | eapply throws_only_mono; [|apply throws_only_meld]; by right
    | throws_step ].
Qed.

Lemma throws_only_merge fuel this other :
  throws_only from_comparator (pq_merge fuel this other).
Proof.
  unfold pq_merge. case_decide; [apply throws_only_ret|].
  repeat first [ apply throws_only_meld | throws_step ].
Qed.

(** [top] and [pop] throw [container_is_empty] on an empty queue, before
    anything else is done, and at no other time. *)
Lemma top_throws this (s : state) e s' :
  pq_top this s = (Throw e, s') →
  e = container_is_empty ∧ s' = s ∧
  ∃ q, queues s !! this = Some q ∧ cnt q = 0.
Proof.
  unfold pq_top, pq_empty. intros H.
  mbindx H b s1 H1; cycle 1.
  { mgetx H1 q Hq. done. }
  mgetx H1 q Hq. unfold ret in H1. simplify_eq.
  destruct (cnt q =? 0) eqn:Hc.
  - unfold throw in H. simplify_eq. split_and!; try done.
    exists q. split; [done|]. by apply Z.eqb_eq.
  - mgetx H q' Hq'. mloadx H l n Hp Hl. done.
Qed.

Lemma pop_throws fuel this (s : state) e s' :
  pq_pop fuel this s = (Throw e, s') →
  (e = container_is_empty ∧ s' = s ∧
   ∃ q, queues s !! this = Some q ∧ cnt q = 0) ∨
  (from_comparator e ∧ ∃ q, queues s !! this = Some q ∧ cnt q ≠ 0).
Proof.
  unfold pq_pop, pq_empty. intros H.
  mbindx H b s1 H1; cycle 1.
  { mgetx H1 q Hq. done. }
  mgetx H1 q Hq. unfold ret in H1. simplify_eq.
  destruct (cnt q =? 0) eqn:Hc.
  - unfold throw in H. simplify_eq. left. split_and!; try done.
    exists q. split; [done|]. by apply Z.eqb_eq.
  - right. split; [|exists q; split; [done|by apply Z.eqb_neq]].
    revert H. generalize s1 e s'. change (throws_only from_comparator
      (q0 <- get_queue this;;
       let old := root q0 in
       n <- load (root q0);;
       let L := left n in
       n0 <- load (root q0);;
       let R := right n0 in
       try_catch
         (new_root <- meld fuel this L R;;
          modify_queue this (λ q1 : pq, set_root q1 new_root);;;
          modify_queue this (λ q1 : pq, set_cnt q1 (wrap_size_t (cnt q1 - 1)));;;
          delete_Node old) (λ ex : exn, throw ex))).
    repeat first [ apply throws_only_meld | throws_step ].
Qed.

Lemma pq_size_ok (s : state) h q :
  queues s !! h = Some q → pq_size h s = (Ok (cnt q), s).
Proof.
  intros Hq. unfold pq_size.
  by rewrite (bind_ok _ _ _ _ _ (get_queue_ok _ _ _ Hq)).
Qed.

Lemma pq_size_inv (s : state) h n s' :
  pq_size h s = (Ok n, s') → ∃ q, queues s !! h = Some q ∧ cnt q = n.
Proof.
  unfold pq_size. intros H. mgetx H q Hq. unfold ret in H. simplify_eq.
  by exists q.
Qed.

(** C7.  On a queue of size zero, [top] and [pop] throw
    [container_is_empty] and the state after the call is the state before
    it, the log of the comparator calls included.  On a queue of any other
    size neither of them ends in [container_is_empty].  No call of a public
    member function ends in [container_is_empty] but a [top] or a [pop] on
    a queue of size zero: it is the one exception the component throws of
    its own (the others are [bad_alloc] out of [new] and what the
    comparator throws). *)
Theorem empty_queue_error fuel this n (s : state) :
  pq_size this s = (Ok n, s) →
  (n = 0 →
   pq_top this s = (Throw container_is_empty, s) ∧
   pq_pop fuel this s = (Throw container_is_empty, s)) ∧
  (n ≠ 0 →
   ∀ s', pq_top this s ≠ (Throw container_is_empty, s') ∧
         pq_pop fuel this s ≠ (Throw container_is_empty, s')) ∧
  (∀ c s', run fuel c s = (Throw container_is_empty, s') →
     s' = s ∧ ∃ h, (c = CTop h ∨ c = CPop h) ∧ pq_size h s = (Ok 0, s)).
Proof.
  intros Hsize. apply pq_size_inv in Hsize as (q & Hq & <-).
  split_and!.
  - intros Hn. unfold pq_top, pq_pop.
    rewrite !(bind_ok _ _ _ _ _ (pq_empty_ok _ _ _ Hq)).
    apply Z.eqb_eq in Hn. by rewrite Hn.
  - intros Hn s'. split; intros H.
    + apply top_throws in H as (_ & _ & q' & Hq' & Hc). congruence.
    + apply pop_throws in H as [(_ & _ & q' & Hq' & Hc)|[[x Hx] _]];
        [congruence|done].
  - intros c s' Hrun.
    destruct c as [h|h o|h|h o|h|h e|h|h|h|h o]; cbn [run] in Hrun;
      mbindx Hrun u s1 Hop; try (unfold ret in Hrun; simplify_eq).
    + by apply (throws_only_begin_lifetime (λ _, False)) in Hop.
    + by apply throws_only_copy in Hop.
    + by apply (throws_only_dtor (λ _, False)) in Hop.
    + by apply throws_only_assign in Hop.
    + apply top_throws in Hop as (_ & -> & q' & Hq' & Hc).
      split; [done|]. exists h. split; [by left|].
      rewrite <- Hc. by apply pq_size_ok.
    + by apply throws_only_push in Hop as [?|[? ?]].
    + apply pop_throws in Hop as [(_ & -> & q' & Hq' & Hc)|[[x Hx] _]];
        [|done].
      split; [done|]. exists h. split; [by right|].
      rewrite <- Hc. by apply pq_size_ok.
    + unfold pq_size in Hop. mgetx Hop q' Hq'. done.
    + unfold pq_empty in Hop. mgetx Hop q' Hq'. done.
    + by apply throws_only_merge in Hop as [? ?].
Qed.

(** * Trees and the nodes that can be reached *)

Lemma locs_reaches m (t : tree) l :
  shape m t → l ∈ locs t → reaches m (ptr_of t) l.
Proof.
  induction t as [|l0 v d tl IHl tr IHr]; cbn [shape locs ptr_of].
  - intros _ Hin. by apply elem_of_nil in Hin.
  - intros (Hl & Hsl & Hsr) Hin.
    apply elem_of_cons in Hin as [->|Hin]; [apply reaches_here|].
    apply elem_of_app in Hin as [Hin|Hin].
    + eapply reaches_left; [exact Hl|]. by apply IHl.
    + eapply reaches_right; [exact Hl|]. by apply IHr.
Qed.

Lemma reaches_locs m p l :
  reaches m p l → ∀ t : tree, shape m t → p = ptr_of t → l ∈ locs t.
Proof.
  induction 1 as [l|l n l' Hn _ IH|l n l' Hn _ IH];
    intros [|l0 v d tl tr]; cbn [shape ptr_of locs]; try done;
    intros (Hl & Hsl & Hsr) [= <-].
  - apply list_elem_of_here.
  - rewrite Hl in Hn. injection Hn as <-.
    apply list_elem_of_further, elem_of_app. left. by apply IH.
  - rewrite Hl in Hn. injection Hn as <-.
    apply list_elem_of_further, elem_of_app. right. by apply IH.
Qed.

(** The node at an address of a tree, with its subtrees. *)
Lemma node_at m (t : tree) l :
  shape m t → leftist t → l ∈ locs t →
  ∃ v d (tl tr : tree),
    m !! l = Some (mkNode v (ptr_of tl) (ptr_of tr) d) ∧
    shape m tl ∧ shape m tr ∧
    rank tr ≤ rank tl ∧ d = rank tr + 1 ∧ v ∈ elems t.
Proof.
  induction t as [|l0 v d tl IHl tr IHr]; cbn [shape leftist locs elems].
  - intros _ _ Hin. by apply elem_of_nil in Hin.
  - intros (Hl & Hsl & Hsr) (Hle & Hd & Hll & Hlr) Hin.
    apply elem_of_cons in Hin as [->|Hin].
    { exists v, d, tl, tr. split_and!; try done. apply list_elem_of_here. }
    apply elem_of_app in Hin as [Hin|Hin].
    + destruct (IHl Hsl Hll Hin) as (v' & d' & tl' & tr' & ? & ? & ? & ? & ? & ?).
      exists v', d', tl', tr'. split_and!; try done.
      apply list_elem_of_further, elem_of_app. by left.
    + destruct (IHr Hsr Hlr Hin) as (v' & d' & tl' & tr' & ? & ? & ? & ? & ? & ?).
      exists v', d', tl', tr'. split_and!; try done.
      apply list_elem_of_further, elem_of_app. by right.
Qed.

Lemma elems_locs m (t : tree) x :
  shape m t → x ∈ elems t →
  ∃ l n, l ∈ locs t ∧ m !! l = Some n ∧ val n = x.
Proof.
  induction t as [|l0 v d tl IHl tr IHr]; cbn [shape locs elems].
  - intros _ Hin. by apply elem_of_nil in Hin.
  - intros (Hl & Hsl & Hsr) Hin.
    apply elem_of_cons in Hin as [->|Hin].
    { eexists l0, _. split_and!; [apply list_elem_of_here|exact Hl|done]. }
    apply elem_of_app in Hin as [Hin|Hin].
    + destruct (IHl Hsl Hin) as (l & n & ? & ? & ?). exists l, n.
      split_and!; try done. apply list_elem_of_further, elem_of_app. by left.
    + destruct (IHr Hsr Hin) as (l & n & ? & ? & ?). exists l, n.
      split_and!; try done. apply list_elem_of_further, elem_of_app. by right.
Qed.

Lemma contains_elems F (s : state) h (t : tree) x :
  inv F s → F !! h = Some t → contains s h x ↔ x ∈ elems t.
Proof.
  intros Hinv Ht.
  destruct (inv_owns _ _ Hinv h t Ht) as [Hq Hs [_ Hleft _]]. split.
  - intros (q & l & n & Hq' & Hreach & Hn & <-).
    rewrite Hq in Hq'. injection Hq' as <-. cbn [root] in Hreach.
    pose proof (reaches_locs _ _ _ Hreach t Hs eq_refl) as Hin.
    destruct (node_at _ _ _ Hs Hleft Hin)
      as (v & d & tl & tr & Hl & _ & _ & _ & _ & Hv).
    rewrite Hl in Hn. by injection Hn as <-.
  - intros Hin. destruct (elems_locs _ _ _ Hs Hin) as (l & n & Hl & Hn & Hv).
    eexists _, l, n. split_and!; try done. cbn [root].
    by apply locs_reaches.
Qed.

(** C3.  In every state a client can reach, whether or not the comparator
    has thrown on the way, every node that can be reached from the root of
    a queue has [npl(left) >= npl(right)] and [dist == npl(right) + 1],
    [npl] of [nullptr] being zero. *)
Theorem leftist_invariant (s : state) (h : positive) (q : pq) l :
  reachable s →
  queues s !! h = Some q →
  reaches (mem s) (root q) l →
  ∃ n dl dr,
    mem s !! l = Some n ∧
    npl (left n) s = (Ok dl, s) ∧ npl (right n) s = (Ok dr, s) ∧
    (dr ≤ dl)%Z ∧ dist n = dr + 1.
Proof.
  intros Hreach Hq Hl. destruct (reachable_wf _ Hreach) as [F Hinv].
  destruct (inv_live _ _ _ Hinv (mk_is_Some _ _ Hq)) as [t Ht].
  destruct (inv_owns _ _ Hinv h t Ht) as [Hq' Hs [_ Hleft _]].
  rewrite Hq in Hq'. injection Hq' as ->. cbn [root] in Hl.
  pose proof (reaches_locs _ _ _ Hl t Hs eq_refl) as Hin.
  destruct (node_at _ _ _ Hs Hleft Hin)
    as (v & d & tl & tr & Hn & Hsl & Hsr & Hle & Hd & _).
  eexists _, (rank tl), (rank tr). split_and!.
  - exact Hn.
  - by apply npl_ok.
  - by apply npl_ok.
  - lia.
  - done.
Qed.

Lemma length_elems (t : tree) : length (elems t) = tsize t.
Proof.
  induction t as [|l v d tl IHl tr IHr]; [done|].
  rewrite tsize_Nd. cbn. rewrite length_app. lia.
Qed.

Lemma run_unit_inv {A} (op : M A) (w : value) (s : state) v s' :
  bind op (λ _, ret w) s = (Ok v, s') → ∃ u, op s = (Ok u, s').
Proof.
  intros H. mbindx H u s1 Hop. unfold ret in H. simplify_eq. by exists u.
Qed.

(** What a call that returns does to the count. *)
Lemma count_step F (s : state) fuel c v s' :
  inv F s → valid_call s c → run fuel c s = (Ok v, s') →
  count_effect c s s'.
Proof.
  intros Hinv Hvalid Hrun.
  destruct c as [h|h o|h|h o|h|h e|h|h|h|h o];
    cbn [valid_call run count_effect] in *; try done.
  - destruct Hvalid as [Hdead Hlive].
    assert (Hq : queues s !! h = None).
    { destruct (queues s !! h) eqn:Hq; [|done]. destruct Hdead. by eexists. }
    destruct (inv_live _ _ _ Hinv Hlive) as [t Ht].
    apply run_unit_inv in Hrun as [[] Hrun].
    destruct (copy_spec F s h o t fuel Hinv Ht Hq) as (r & s1 & Hrun1 & _ & _ & Hres).
    rewrite Hrun in Hrun1. injection Hrun1 as <- <-.
    destruct Hres as (t' & Hinv' & Hdata & _).
    intros n Hn. rewrite (size_spec _ _ _ _ Hinv Ht) in Hn. injection Hn as <-.
    rewrite (size_spec _ _ _ _ Hinv' (lookup_insert_eq _ _ _)).
    by rewrite (same_data_tsize _ _ Hdata).
  - destruct Hvalid as [Hlive1 Hlive2].
    apply run_unit_inv in Hrun as [[] Hrun].
    destruct (decide (h = o)) as [<-|Hne].
    { unfold pq_assign in Hrun. destruct (decide (h = h)); [|done].
      by injection Hrun as <-. }
    destruct (inv_live _ _ _ Hinv Hlive1) as [t1 Ht1].
    destruct (inv_live _ _ _ Hinv Hlive2) as [t2 Ht2].
    destruct (assign_spec F s h o t1 t2 fuel Hinv Hne Ht1 Ht2)
      as (r & s1 & Hrun1 & _ & Hres).
    rewrite Hrun in Hrun1. injection Hrun1 as <- <-.
    destruct Hres as (t' & Hinv' & Hdata & _).
    intros n Hn. rewrite (size_spec _ _ _ _ Hinv Ht2) in Hn. injection Hn as <-.
    rewrite (size_spec _ _ _ _ Hinv' (lookup_insert_eq _ _ _)).
    by rewrite (same_data_tsize _ _ Hdata).
  - destruct (inv_live _ _ _ Hinv Hvalid) as [t Ht].
    apply run_unit_inv in Hrun as [[] Hrun].
    destruct (push_spec F s h t fuel e Hinv Ht) as (r & s1 & Hrun1 & _ & _ & Hres).
    rewrite Hrun in Hrun1. injection Hrun1 as <- <-.
    destruct Hres as (t' & Hinv' & Hperm & _).
    intros n Hn. rewrite (size_spec _ _ _ _ Hinv Ht) in Hn. injection Hn as <-.
    rewrite (size_spec _ _ _ _ Hinv' (lookup_insert_eq _ _ _)).
    do 2 f_equal. rewrite <- !length_elems, Hperm, length_app. cbn. lia.
  - destruct (inv_live _ _ _ Hinv Hvalid) as [t Ht].
    apply run_unit_inv in Hrun as [[] Hrun].
    destruct t as [|l v0 d tl tr].
    { by rewrite (pop_empty_spec _ _ _ fuel Hinv Ht) in Hrun. }
    destruct (pop_spec F s h l v0 d tl tr fuel Hinv Ht)
      as (r & s1 & Hrun1 & _ & _ & Hres).
    rewrite Hrun in Hrun1. injection Hrun1 as <- <-.
    destruct Hres as (t' & Hinv' & Hperm & _).
    intros n Hn. rewrite (size_spec _ _ _ _ Hinv Ht) in Hn. injection Hn as <-.
    rewrite (size_spec _ _ _ _ Hinv' (lookup_insert_eq _ _ _)).
    do 2 f_equal. rewrite tsize_Nd.
    rewrite <- (length_elems t'), Hperm, length_app, !length_elems. lia.
  - destruct Hvalid as [Hlive1 Hlive2]. intros Hne.
    apply run_unit_inv in Hrun as [[] Hrun].
    destruct (inv_live _ _ _ Hinv Hlive1) as [t1 Ht1].
    destruct (inv_live _ _ _ Hinv Hlive2) as [t2 Ht2].
    destruct (merge_spec F s h o t1 t2 fuel Hinv Hne Ht1 Ht2)
      as (r & s1 & Hrun1 & _ & Hres).
    rewrite Hrun in Hrun1. injection Hrun1 as <- <-.
    destruct Hres as (t' & Hinv' & Hperm & _).
    intros n1 n2 Hn1 Hn2.
    rewrite (size_spec _ _ _ _ Hinv Ht1) in Hn1. injection Hn1 as <-.
    rewrite (size_spec _ _ _ _ Hinv Ht2) in Hn2. injection Hn2 as <-.
    assert (Ht' : <[o := Leaf]> (<[h := t']> F) !! h = Some t').
    { rewrite lookup_insert_ne by done. apply lookup_insert_eq. }
    rewrite (size_spec _ _ _ _ Hinv' Ht').
    do 2 f_equal.
    rewrite <- (length_elems t'), Hperm, length_app, !length_elems. lia.
Qed.

(** C6.  In every state a client can reach, [size] returns the number of
    nodes that can be reached from the root of the queue.  And whenever a
    call made in such a state returns, a [push] has added one to the size
    of its queue, a [pop] has taken one off, a [merge] of two distinct
    queues has added the size of the other queue, and a copy (by the
    constructor or by assignment) has the size of its source. *)
Theorem size_counts_nodes (s : state) (h : positive) (q : pq) :
  reachable s →
  queues s !! h = Some q →
  (∃ nodes : gset positive,
     (∀ l, l ∈ nodes ↔ reaches (mem s) (root q) l) ∧
     pq_size h s = (Ok (Z.of_nat (size nodes)), s)) ∧
  (∀ fuel c v s',
     valid_call s c → run fuel c s = (Ok v, s') → count_effect c s s').
Proof.
  intros Hreach Hq. destruct (reachable_wf _ Hreach) as [F Hinv]. split.
  - destruct (inv_live _ _ _ Hinv (mk_is_Some _ _ Hq)) as [t Ht].
    destruct (inv_owns _ _ Hinv h t Ht) as [Hq' Hs [Hnd _ _]].
    exists (list_to_set (locs t)). split.
    + intros l. rewrite elem_of_list_to_set.
      rewrite Hq in Hq'. injection Hq' as ->. cbn [root]. split.
      * by apply locs_reaches.
      * intros Hl. by eapply reaches_locs.
    + rewrite size_list_to_set by done. by eapply size_spec.
  - intros fuel c v s' Hvalid Hrun. by eapply count_step.
Qed.

Lemma owns_tree_of (s : state) h (t : tree) : owns s h t → tree_of s h t.
Proof.
  intros [Hq Hs [Hnd _ _]]. eexists. split_and!; try done.
Qed.

Lemma reachable_runs fuel cs : ∀ s : state,
  reachable s → well_run fuel cs s → reachable (runs fuel cs s).
Proof.
  induction cs as [|c cs IH]; intros s Hreach Hok; [done|].
  destruct Hok as (Hvalid & Hr & Hok). cbn [runs]. apply IH; [|done].
  eapply reachable_call; [exact Hreach|exact Hvalid| |exact Hr].
  apply surjective_pairing.
Qed.

(** * Order *)

Section Order.

Variable less : T → T → bool.
Hypothesis Hswo : strict_weak_order less.
Hypothesis Hagree : agrees less.

Lemma less_asym x y : less x y = true → less y x = false.
Proof.
  intros Hxy. destruct (less y x) eqn:Hyx; [|done].
  pose proof (swo_trans _ Hswo _ _ _ Hxy Hyx) as Hxx.
  by rewrite (swo_irrefl _ Hswo) in Hxx.
Qed.

Lemma less_neg_trans x y z :
  less x y = false → less y z = false → less x z = false.
Proof.
  intros Hxy Hyz. destruct (less x z) eqn:Hxz; [|done].
  assert (Hyx : less y x = false).
  { destruct (less y x) eqn:Hyx; [|done].
    by rewrite (swo_trans _ Hswo _ _ _ Hyx Hxz) in Hyz. }
  assert (Hzy : less z y = false).
  { destruct (less z y) eqn:Hzy; [|done].
    by rewrite (swo_trans _ Hswo _ _ _ Hxz Hzy) in Hxy. }
  destruct (swo_incomp _ Hswo x y z Hxy Hyx Hyz Hzy) as [Hxz' _]. congruence.
Qed.

Lemma not_above_less c x y : not_above c x y → less y x = false.
Proof.
  intros [H|H]; apply Hagree in H; [done|]. by apply less_asym.
Qed.

(** In a heap-ordered tree no element is above the root. *)
Lemma heap_below c (t : tree) : ∀ w,
  heap_ordered c t → root_not_above c t w →
  ∀ x, x ∈ elems t → less w x = false.
Proof.
  induction t as [|l v d tl IHl tr IHr]; cbn [heap_ordered elems].
  - intros w _ _ x Hin. by apply elem_of_nil in Hin.
  - intros w (Hrl & Hrr & Hhl & Hhr) Hw x Hin.
    apply not_above_less in Hw.
    apply elem_of_cons in Hin as [->|Hin]; [done|].
    apply elem_of_app in Hin as [Hin|Hin].
    + eapply less_neg_trans; [exact Hw|]. by apply (IHl v).
    + eapply less_neg_trans; [exact Hw|]. by apply (IHr v).
Qed.

Lemma heap_root_max c l v d (tl tr : tree) x :
  heap_ordered c (Nd l v d tl tr) → x ∈ elems (Nd l v d tl tr) →
  less v x = false.
Proof.
  cbn [heap_ordered elems]. intros (Hrl & Hrr & Hhl & Hhr) Hin.
  apply elem_of_cons in Hin as [->|Hin]; [apply (swo_irrefl _ Hswo)|].
  apply elem_of_app in Hin as [Hin|Hin].
  - by apply (heap_below c tl v).
  - by apply (heap_below c tr v).
Qed.

(** What [top] returns in a state with the invariant. *)
Lemma top_max F (s : state) h (t : tree) :
  inv F s → F !! h = Some t → t ≠ Leaf →
  ∃ m, pq_top h s = (Ok m, s) ∧ m ∈ elems t ∧
       ∀ x, x ∈ elems t → less m x = false.
Proof.
  intros Hinv Ht Hne. destruct t as [|l v d tl tr]; [done|].
  exists v. split_and!.
  - by rewrite (top_spec _ _ _ _ Hinv Ht).
  - apply list_elem_of_here.
  - intros x Hx. destruct (inv_owns _ _ Hinv h _ Ht) as [_ _ [_ _ Hheap]].
    by eapply heap_root_max.
Qed.

(** C1.  In every state a client can reach, with a comparator that is a
    strict weak order, [top] on a queue of size above zero returns an
    element [m] of the queue such that the comparator returns [false] for
    [(m, x)] whatever element [x] of the queue is taken; so for no [x] does
    [less(x, m)] fail while [less(m, x)] holds.  With [<] for the
    comparator the queue is a max-heap. *)
Theorem top_is_maximum (s : state) (h : positive) n :
  reachable s →
  pq_size h s = (Ok n, s) → 0 < n →
  ∃ m, pq_top h s = (Ok m, s) ∧ contains s h m ∧
       ∀ x, contains s h x →
            less m x = false ∧ ¬ (less x m = false ∧ less m x = true).
Proof.
  intros Hreach Hsize Hn. destruct (reachable_wf _ Hreach) as [F Hinv].
  apply pq_size_inv in Hsize as (q & Hq & <-).
  destruct (inv_live _ _ _ Hinv (mk_is_Some _ _ Hq)) as [t Ht].
  destruct (inv_owns _ _ Hinv h t Ht) as [Hq' _ _].
  rewrite Hq in Hq'. injection Hq' as ->. cbn [cnt] in Hn.
  assert (Hne : t ≠ Leaf) by (intros ->; cbn in Hn; lia).
  destruct (top_max F s h t Hinv Ht Hne) as (m & Htop & Hm & Hmax).
  exists m. split_and!; try done.
  - by apply (contains_elems F s h t).
  - intros x Hx. apply (contains_elems F s h t) in Hx; [|done..].
    specialize (Hmax x Hx). split; [done|]. intros [_ ?]. congruence.
Qed.

(** C4.  In a state a client can reach, take two distinct queues of sizes
    [n1] and [n2] and a comparator that is a strict weak order.  When
    [merge] returns, the receiver has size [n1 + n2] and holds the elements
    of the two queues, [top] on it returns an element the comparator puts
    below none of them, and the other queue is empty: [empty] returns
    [true], its root is [nullptr] and its count is zero.  When [merge]
    throws, the queue objects and the free store are what they were: the
    other queue is cleared only once the meld has succeeded. *)
Theorem merge_postcondition fuel (s : state) (this other : positive)
    n1 n2 r s' :
  reachable s → this ≠ other →
  pq_size this s = (Ok n1, s) → pq_size other s = (Ok n2, s) →
  pq_merge fuel this other s = (r, s') →
  (r = Ok tt →
   pq_size this s' = (Ok (n1 + n2), s') ∧
   pq_empty other s' = (Ok true, s') ∧
   (∃ q, queues s' !! other = Some q ∧ root q = None ∧ cnt q = 0) ∧
   (∃ t1 t2 t', tree_of s this t1 ∧ tree_of s other t2 ∧
                tree_of s' this t' ∧ elems t' ≡ₚ elems t1 ++ elems t2) ∧
   (∀ x, contains s' this x ↔ contains s this x ∨ contains s other x) ∧
   (0 < n1 + n2 →
    ∃ m, pq_top this s' = (Ok m, s') ∧
         (contains s this m ∨ contains s other m) ∧
         ∀ x, contains s this x ∨ contains s other x →
              less m x = false ∧ ¬ (less x m = false ∧ less m x = true))) ∧
  (∀ e, r = Throw e → queues s' = queues s ∧ mem s' = mem s) ∧
  ((cap s < fuel)%nat → r = Ok tt ∨ ∃ e, r = Throw e ∧ from_comparator e).
Proof.
  intros Hreach Hne Hsize1 Hsize2 Hrun.
  destruct (reachable_wf _ Hreach) as [F Hinv].
  apply pq_size_inv in Hsize1 as (q1 & Hq1 & <-).
  apply pq_size_inv in Hsize2 as (q2 & Hq2 & <-).
  destruct (inv_live _ _ _ Hinv (mk_is_Some _ _ Hq1)) as [t1 Ht1].
  destruct (inv_live _ _ _ Hinv (mk_is_Some _ _ Hq2)) as [t2 Ht2].
  pose proof (inv_owns _ _ Hinv _ _ Ht1) as Hown1.
  pose proof (inv_owns _ _ Hinv _ _ Ht2) as Hown2.
  pose proof (owns_queue _ _ _ Hown1) as Hq1'.
  pose proof (owns_queue _ _ _ Hown2) as Hq2'.
  rewrite Hq1 in Hq1'. injection Hq1' as ->.
  rewrite Hq2 in Hq2'. injection Hq2' as ->. cbn [cnt].
  destruct (merge_spec F s this other t1 t2 fuel Hinv Hne Ht1 Ht2)
    as (r' & s'' & Hrun' & _ & Hres).
  rewrite Hrun in Hrun'. injection Hrun' as <- <-.
  split_and!.
  - intros ->. destruct Hres as (t' & Hinv' & Hperm & _).
    set (F' := <[other := Leaf]> (<[this := t']> F)) in *.
    assert (Ht' : F' !! this = Some t').
    { unfold F'. rewrite lookup_insert_ne by done. apply lookup_insert_eq. }
    assert (Ho' : F' !! other = Some Leaf) by apply lookup_insert_eq.
    assert (Hsz : tsize t' = (tsize t1 + tsize t2)%nat).
    { rewrite <- !length_elems, Hperm. apply length_app. }
    assert (Hcont : ∀ x, contains s' this x
                         ↔ contains s this x ∨ contains s other x).
    { intros x. rewrite (contains_elems F' s' this t') by done.
      rewrite (contains_elems F s this t1) by done.
      rewrite (contains_elems F s other t2) by done.
      rewrite Hperm. apply elem_of_app. }
    split_and!.
    + rewrite (size_spec _ _ _ _ Hinv' Ht'). do 2 f_equal. lia.
    + by rewrite (empty_spec _ _ _ _ Hinv' Ho').
    + destruct (inv_owns _ _ Hinv' _ _ Ho') as [Hq _ _].
      eexists. split; [exact Hq|]. done.
    + exists t1, t2, t'. split_and!; try done; apply owns_tree_of; try done.
      by apply (inv_owns _ _ Hinv').
    + done.
    + intros Hn.
      assert (Hnl : t' ≠ Leaf) by (intros ->; cbn in Hsz; lia).
      destruct (top_max F' s' this t' Hinv' Ht' Hnl) as (m & Htop & Hm & Hmax).
      exists m. split_and!; try done.
      * apply Hcont. by apply (contains_elems F' s' this t').
      * intros x Hx. apply Hcont in Hx.
        apply (contains_elems F' s' this t') in Hx; [|done..].
        specialize (Hmax x Hx). split; [done|]. intros [_ ?]. congruence.
  - intros e ->. by destruct Hres as (_ & ? & ? & _).
  - intros Hfuel. destruct r as [[]|e| |].
    + by left.
    + right. exists e. split; [done|].
      destruct Hres as (_ & _ & _ & x & _ & _ & -> & _). by exists x.
    + done.
    + pose proof (inv_tsize2 _ _ _ _ _ _ Hinv Hne Ht1 Ht2).
      pose proof (inv_size _ _ Hinv). lia.
Qed.

End Order.

(** * Heap sort *)

Section Total.

Variable less : T → T → bool.
Hypothesis Hswo : strict_weak_order less.
Hypothesis Hcomp : computes less.

Lemma computes_agrees : agrees less.
Proof. intros c x y r H. rewrite Hcomp in H. by injection H as <-. Qed.

Lemma push_all_spec fuel h (xs : list T) : ∀ F (s : state) (t : tree),
  inv F s → F !! h = Some t →
  (size (mem s) + length xs ≤ cap s)%nat → (cap s < fuel)%nat →
  ∃ s1 t', push_all fuel h xs s = (Ok tt, s1) ∧
           inv (<[h := t']> F) s1 ∧ elems t' ≡ₚ elems t ++ xs ∧
           cap s1 = cap s.
Proof.
  induction xs as [|x xs IH]; intros F s t Hinv Ht Hroom Hfuel.
  { exists s, t. rewrite app_nil_r, insert_id by done. done. }
  cbn [push_all length] in *.
  pose proof (inv_tsize _ _ _ _ Hinv Ht) as Hsz.
  destruct (push_spec F s h t fuel x Hinv Ht) as (r & s1 & Hrun & Hcap & _ & Hres).
  destruct r as [[]|e| |]; try done.
  - destruct Hres as (t1 & Hinv1 & Hperm1 & Hsize1 & _).
    destruct (IH _ s1 t1 Hinv1 (lookup_insert_eq _ _ _))
      as (s2 & t' & Hrun2 & Hinv2 & Hperm2 & Hcap2); [lia..|].
    exists s2, t'. rewrite (bind_ok _ _ _ _ _ Hrun).
    rewrite insert_insert_eq in Hinv2. split_and!; try done.
    + by rewrite Hperm2, Hperm1, <- (assoc_L app).
    + congruence.
  - destruct Hres as (_ & _ & _ & [[_ ?]|(y & a & b & _ & Hab)]); [lia|].
    by rewrite Hcomp in Hab.
  - lia.
Qed.

Lemma drain_spec fuel h : ∀ n F (s : state) (t : tree),
  tsize t = n → inv F s → F !! h = Some t → (cap s < fuel)%nat →
  ∃ ys s2, drain fuel h n s = (Ok ys, s2) ∧ ys ≡ₚ elems t ∧
           descending less ys ∧ inv (<[h := Leaf]> F) s2 ∧ cap s2 = cap s.
Proof.
  induction n as [|n IH]; intros F s t Hn Hinv Ht Hfuel.
  { destruct t as [|l v d tl tr]; [|by rewrite tsize_Nd in Hn].
    exists [], s. rewrite insert_id by done. split_and!; try done.
    apply SSorted_nil. }
  destruct t as [|l v d tl tr]; [done|]. rewrite tsize_Nd in Hn.
  cbn [drain].
  rewrite (bind_ok _ _ _ _ _ (top_spec _ _ _ _ Hinv Ht)).
  pose proof (inv_tsize _ _ _ _ Hinv Ht) as Hsz. rewrite tsize_Nd in Hsz.
  pose proof (inv_size _ _ Hinv) as Hsize.
  destruct (pop_spec F s h l v d tl tr fuel Hinv Ht)
    as (r & s1 & Hrun & Hcap & _ & Hres).
  destruct r as [[]|e| |]; try done.
  - destruct Hres as (t' & Hinv1 & Hperm1 & _).
    assert (Hn' : tsize t' = n).
    { rewrite <- length_elems, Hperm1, length_app, !length_elems. lia. }
    destruct (IH _ s1 t' Hn' Hinv1 (lookup_insert_eq _ _ _))
      as (ys & s2 & Hrun2 & Hperm2 & Hsorted & Hinv2 & Hcap2); [lia|].
    exists (v :: ys), s2. rewrite (bind_ok _ _ _ _ _ Hrun).
    rewrite (bind_ok _ _ _ _ _ Hrun2).
    rewrite insert_insert_eq in Hinv2. split_and!; try done.
    + cbn [elems]. by rewrite Hperm2, Hperm1.
    + apply SSorted_cons; [done|]. apply Forall_forall. intros y Hy.
      destruct (inv_owns _ _ Hinv h _ Ht) as [_ _ [_ _ Hheap]].
      eapply (heap_root_max less Hswo computes_agrees); [exact Hheap|].
      cbn [elems].
      apply list_elem_of_further. rewrite <- Hperm1, <- Hperm2. done.
    + congruence.
  - destruct Hres as (_ & _ & _ & y & a & b & _ & Hab).
    by rewrite Hcomp in Hab.
  - lia.
Qed.

(** C5 (heap sort).  In a state a client can reach, let the comparator be
    a strict weak order, let the queue at [h] be empty and let the free
    store have room for the elements [xs].  Then pushing them all returns,
    and popping as many times, with a [top] before each [pop], returns
    them, each as many times as it is in [xs], in an order in which no
    element is below a later one; the queue is then empty again. *)
Theorem heap_sort fuel (s : state) (h : positive) (xs : list T) :
  reachable s →
  pq_empty h s = (Ok true, s) →
  (size (mem s) + length xs ≤ cap s)%nat →
  (cap s < fuel)%nat →
  ∃ s1 ys s2,
    push_all fuel h xs s = (Ok tt, s1) ∧
    drain fuel h (length xs) s1 = (Ok ys, s2) ∧
    ys ≡ₚ xs ∧ descending less ys ∧
    pq_empty h s2 = (Ok true, s2).
Proof.
  intros Hreach Hempty Hroom Hfuel.
  destruct (reachable_wf _ Hreach) as [F Hinv].
  assert (Hlive : is_Some (queues s !! h)).
  { unfold pq_empty in Hempty. mgetx Hempty q Hq. by eexists. }
  destruct (inv_live _ _ _ Hinv Hlive) as [t Ht].
  rewrite (empty_spec _ _ _ _ Hinv Ht) in Hempty.
  injection Hempty as Hempty. apply Z.eqb_eq in Hempty.
  assert (t = Leaf) as ->.
  { destruct t; [done|]. rewrite tsize_Nd in Hempty. lia. }
  destruct (push_all_spec fuel h xs F s Leaf Hinv Ht Hroom Hfuel)
    as (s1 & t' & Hrun1 & Hinv1 & Hperm1 & Hcap1).
  cbn [elems app] in Hperm1.
  assert (Hn : tsize t' = length xs) by (by rewrite <- length_elems, Hperm1).
  destruct (drain_spec fuel h (length xs) _ s1 t' Hn Hinv1
              (lookup_insert_eq _ _ _))
    as (ys & s2 & Hrun2 & Hperm2 & Hsorted & Hinv2 & Hcap2); [lia|].
  exists s1, ys, s2. split_and!; try done.
  - by rewrite Hperm2.
  - by rewrite (empty_spec _ _ _ _ Hinv2 (lookup_insert_eq _ _ _)).
Qed.

End Total.

(** * Further properties of the member functions *)

(** ** Calls that make no comparison *)

Lemma silent_quiet {A} (c : M A) : quiet c → silent c.
Proof. intros Hc s r s' H. by destruct (Hc _ _ _ H) as ((_ & _ & ?) & _). Qed.

Lemma silent_ret {A} (a : A) : silent (ret a).
Proof. by intros s r s' [= _ <-]. Qed.

Lemma silent_throw {A} e : silent (throw e : M A).
Proof. by intros s r s' [= _ <-]. Qed.

Lemma silent_bind {A B} (c : M A) (k : A → M B) :
  silent c → (∀ a, silent (k a)) → silent (bind c k).
Proof.
  intros Hc Hk s r s' H. mbind H a s1 H1.
  - rewrite (Hk _ _ _ _ H). by eapply Hc.
  - by eapply Hc.
  - by eapply Hc.
  - by eapply Hc.
Qed.

Lemma silent_try_catch {A} (body : M A) handler :
  silent body → (∀ e, silent (handler e)) → silent (try_catch body handler).
Proof.
  intros Hb Hh s r s' H.
  apply try_catch_inv in H as [(e0 & s1 & H0 & H)|[H _]].
  - rewrite (Hh _ _ _ _ H). by eapply Hb.
  - by eapply Hb.
Qed.

Lemma silent_get_queue h : silent (get_queue h).
Proof. intros s r s' H. by apply get_queue_inv in H as [-> _]. Qed.

Lemma silent_modify_queue h f : silent (modify_queue h f).
Proof.
  intros s r s' H.
  by apply modify_queue_inv in H as [[_ ->]|(? & _ & _ & ->)].
Qed.

Lemma silent_new_Node v : silent (new_Node v).
Proof.
  intros s r s' H.
  by apply new_Node_inv in H as [(_ & -> & _)|(? & _ & _ & ->)].
Qed.

Lemma silent_delete_Node p : silent (delete_Node p).
Proof.
  intros s r s'. unfold delete_Node.
  destruct p as [l|]; [destruct (mem s !! l)|]; by intros [= _ <-].
Qed.

Lemma silent_begin_lifetime h q : silent (begin_lifetime h q).
Proof.
  intros s r s'. unfold begin_lifetime.
  destruct (queues s !! h); by intros [= _ <-].
Qed.

Lemma silent_end_lifetime h : silent (end_lifetime h).
Proof.
  intros s r s'. unfold end_lifetime.
  destruct (queues s !! h); by intros [= _ <-].
Qed.

Lemma silent_local_handle : silent local_handle.
Proof. by intros s r s' [= _ <-]. Qed.

Ltac silent_step :=
  first
    [ apply silent_ret
    | apply silent_throw
    | apply silent_quiet; apply quiet_load
    | apply silent_quiet; apply quiet_store
    | apply silent_get_queue
    | apply silent_modify_queue
    | apply silent_new_Node
    | apply silent_delete_Node
    | apply silent_begin_lifetime
    | apply silent_end_lifetime
    | apply silent_local_handle
    | assumption
    | apply silent_try_catch; [|intros ?]
    | apply silent_bind; [|intros ?] ].

Lemma silent_destroy fuel : ∀ x, silent (destroy fuel x).
Proof.
  induction fuel as [|fuel IH]; intros x; cbn [destroy].
  { by intros s r s' [= _ <-]. }
  destruct x; repeat first [ apply IH | silent_step ].
Qed.

Lemma silent_clone fuel : ∀ x, silent (clone fuel x).
Proof.
  induction fuel as [|fuel IH]; intros x; cbn [clone].
  { by intros s r s' [= _ <-]. }
  destruct x; repeat first [ apply IH | silent_step ].
Qed.

Lemma silent_copy fuel this other : silent (pq_copy fuel this other).
Proof. unfold pq_copy. repeat first [ apply silent_clone | silent_step ]. Qed.

Lemma silent_dtor fuel this : silent (pq_dtor fuel this).
Proof. unfold pq_dtor. repeat first [ apply silent_destroy | silent_step ]. Qed.

Lemma silent_assign fuel this other : silent (pq_assign fuel this other).
Proof.
  unfold pq_assign. case_decide; [apply silent_ret|].
  repeat first [ apply silent_copy | apply silent_dtor | silent_step ].
Qed.

Lemma silent_size this : silent (pq_size this).
Proof. unfold pq_size. repeat silent_step. Qed.

Lemma silent_empty this : silent (pq_empty this).
Proof. unfold pq_empty. repeat silent_step. Qed.

Lemma silent_top this : silent (pq_top this).
Proof.
  unfold pq_top.
  repeat first [ apply silent_empty | case_match | silent_step ].
Qed.

(** ** Defined behaviour *)

(** X1.  A call of a public member function made on live objects in a
    state a client can reach never dereferences a null or dangling pointer,
    deletes no node twice and uses no dead object: with a recursion budget
    above the capacity of the free store it returns or throws, and the
    state it ends in is again one a client can reach, with the same
    capacity. *)
Theorem calls_are_defined (s : state) fuel c :
  reachable s → valid_call s c → (cap s < fuel)%nat →
  ∃ r s', run fuel c s = (r, s') ∧ r ≠ Fault ∧ r ≠ OutOfFuel ∧
          reachable s' ∧ cap s' = cap s.
Proof.
  intros Hreach Hvalid Hfuel. destruct (reachable_wf _ Hreach) as [F Hinv].
  destruct (run_spec F s fuel c Hinv Hvalid)
    as (r & s' & Hrun & Hcap & Hnf & Hoof & _).
  assert (Hr : r ≠ OutOfFuel).
  { intros ->. specialize (Hoof eq_refl). lia. }
  exists r, s'. split_and!; try done.
  by eapply reachable_call.
Qed.

(** ** Exceptions *)


(** X3.  In any state, [push] ends in [bad_alloc] exactly when the free
    store is full, and the state is then what it was before the call: the
    comparator has not been called and no node has been made. *)
Theorem push_allocation_failure fuel h e (s : state) r s' :
  pq_push fuel h e s = (r, s') →
  (r = Throw bad_alloc ↔ (cap s ≤ size (mem s))%nat) ∧
  (r = Throw bad_alloc → s' = s).
Proof.
  unfold pq_push. intros H.
  unfold bind at 1, try_catch at 1, new_Node at 1 in H.
  destruct (decide (size (mem s) < cap s)%nat) as [Hroom|Hfull].
  - assert (Hne : r ≠ Throw bad_alloc).
    { intros ->. revert H.
      match goal with
      | |- try_catch ?b ?h ?s0 = _ → _ =>
          assert (Ht : throws_only from_comparator (try_catch b h))
      end.
      { repeat first [ apply throws_only_meld | throws_step ]. }
      intros H. by destruct (Ht _ _ _ H). }
    split; [|done]. split; [done|lia].
  - cbn in H. injection H as <- <-. split; [|done]. split; [lia|done].
Qed.

(** ** Counting the nodes of the queues *)

Lemma total_insert_None F h (t : tree) :
  F !! h = None → total (<[h := t]> F) = (tsize t + total F)%nat.
Proof.
  intros Hh. unfold total. rewrite map_fold_insert_L; [done| |done].
  intros. lia.
Qed.

Lemma total_delete F h (t : tree) :
  F !! h = Some t → (total (delete h F) + tsize t = total F)%nat.
Proof.
  intros Hh. unfold total.
  rewrite (map_fold_delete_L _ _ h t F); [lia| |done]. intros. lia.
Qed.

Lemma total_insert_Some F h (t t' : tree) :
  F !! h = Some t →
  (total (<[h := t']> F) + tsize t = total F + tsize t')%nat.
Proof.
  intros Hh. rewrite <- insert_delete_eq.
  rewrite total_insert_None by apply lookup_delete_eq.
  pose proof (total_delete _ _ _ Hh). lia.
Qed.

Lemma elem_of_owned F l :
  l ∈ owned F ↔ ∃ h (t : tree), F !! h = Some t ∧ l ∈ locs t.
Proof.
  induction F as [|h t F Hh IH] using map_ind.
  - unfold owned. rewrite map_fold_empty. split; [set_solver|].
    intros (h & t & Ht & _). by rewrite lookup_empty in Ht.
  - unfold owned. rewrite map_fold_insert_L; [| |done]; cycle 1.
    { intros. set_solver. }
    fold (owned F). rewrite elem_of_union, elem_of_list_to_set, IH. split.
    + intros [Hl|(h' & t' & Ht' & Hl)].
      * exists h, t. by rewrite lookup_insert_eq.
      * exists h', t'. rewrite lookup_insert_ne; [done|]. intros <-. congruence.
    + intros (h' & t' & Ht' & Hl). rewrite lookup_insert in Ht'.
      case_decide; simplify_eq; eauto.
Qed.

Lemma size_owned F :
  (∀ h (t : tree), F !! h = Some t → NoDup (locs t)) →
  (∀ h1 h2 (t1 t2 : tree) l, h1 ≠ h2 → F !! h1 = Some t1 → F !! h2 = Some t2 →
                             l ∈ locs t1 → l ∉ locs t2) →
  size (owned F) = total F.
Proof.
  induction F as [|h t F Hh IH] using map_ind; intros Hnd Hdisj.
  - unfold owned, total. by rewrite !map_fold_empty, size_empty.
  - rewrite total_insert_None by done.
    unfold owned. rewrite map_fold_insert_L; [| |done]; cycle 1.
    { intros. set_solver. }
    fold (owned F). rewrite size_union.
    + rewrite size_list_to_set by (apply (Hnd h); apply lookup_insert_eq).
      rewrite IH; [done| |].
      * intros h' t' Ht'. apply (Hnd h').
        rewrite lookup_insert_ne; [done|]. intros <-. congruence.
      * intros h1 h2 t1 t2 l Hne H1 H2.
        apply (Hdisj h1 h2); [done| |]; (rewrite lookup_insert_ne; [done|]);
          intros <-; congruence.
    + intros l Hl1 Hl2. apply elem_of_list_to_set in Hl1.
      apply elem_of_owned in Hl2 as (h' & t' & Ht' & Hl').
      assert (Hne : h ≠ h') by (intros <-; congruence).
      eapply (Hdisj h h' t t' l); [done|apply lookup_insert_eq| |done|done].
      by rewrite lookup_insert_ne.
Qed.

(** In a state with the invariant, no node is garbage exactly when the
    free store has as many nodes as the queues have elements. *)
Lemma garbage_free_iff F (s : state) :
  inv F s → garbage_free s ↔ size (mem s) = total F.
Proof.
  intros Hinv.
  assert (Hsub : owned F ⊆ dom (mem s)).
  { intros l Hl. apply elem_of_owned in Hl as (h & t & Ht & Hl).
    apply elem_of_dom. by eapply inv_lookup. }
  assert (Hsize : size (owned F) = total F).
  { apply size_owned.
    - intros h t Ht. by destruct (inv_owns _ _ Hinv h t Ht) as [_ _ [? _ _]].
    - apply (inv_disj _ _ Hinv). }
  assert (Hgf : garbage_free s ↔ dom (mem s) ⊆ owned F).
  { split.
    - intros Hg l Hl. apply elem_of_dom in Hl.
      destruct (Hg l Hl) as (h & q & Hq & Hr).
      destruct (inv_live _ _ _ Hinv (mk_is_Some _ _ Hq)) as [t Ht].
      destruct (inv_owns _ _ Hinv h t Ht) as [Hq' Hs _].
      rewrite Hq in Hq'. injection Hq' as ->. cbn [root] in Hr.
      apply elem_of_owned. exists h, t. split; [done|].
      by eapply reaches_locs.
    - intros Hd l Hl. apply elem_of_dom in Hl.
      apply Hd, elem_of_owned in Hl as (h & t & Ht & Hl).
      destruct (inv_owns _ _ Hinv h t Ht) as [Hq Hs _].
      eexists h, _. split; [exact Hq|]. cbn [root]. by apply locs_reaches. }
  rewrite Hgf, <- Hsize, <- size_dom. split.
  - intros Hd. f_equal. apply set_eq. intros l. split; [apply Hd|apply Hsub].
  - intros Heq. rewrite (set_subseteq_size_eq _ _ Hsub); [done|lia].
Qed.

(** ** What a call does to the trees of the queues *)

Lemma not_live_None (s : state) h : ¬ live s h → queues s !! h = None.
Proof.
  intros Hdead. destruct (queues s !! h) eqn:Hq; [|done].
  destruct Hdead. by eexists.
Qed.

(** A call that runs to completion leaves the trees of the queues it does
    not touch as they are, and, unless it is a copy that has thrown, adds
    as many nodes to the free store as it adds elements to the queues. *)
Lemma run_step F (s : state) fuel c r s' :
  inv F s → valid_call s c → run fuel c s = (r, s') → r ≠ OutOfFuel →
  ∃ F', inv F' s' ∧ (∀ h, ¬ touches c h → F' !! h = F !! h) ∧
        (copies c && throws r = false →
         (size (mem s') + total F = size (mem s) + total F')%nat).
Proof.
  intros Hinv Hvalid Hrun Hr.
  assert (Hsame : ∀ s0 : state, mem s0 = mem s → inv F s0 →
    ∃ F', inv F' s0 ∧ (∀ h, ¬ touches c h → F' !! h = F !! h) ∧
          (copies c && throws r = false →
           (size (mem s0) + total F = size (mem s) + total F')%nat)).
  { intros s0 Hm Hinv0. exists F. split_and!; try done. intros _. by rewrite Hm. }
  destruct c as [this|this other|this|this other|this|this e|this|this|this
                |this other]; cbn [valid_call run touches copies] in *.
  - pose proof (not_live_None _ _ Hvalid) as Hq.
    destruct (default_spec F s this Hinv Hq) as (s1 & Hrun1 & _ & Hmem & Hinv').
    rewrite (bind_ret _ _ _ _ _ Hrun1) in Hrun. injection Hrun as <- <-.
    exists (<[this := Leaf]> F). split_and!; [done| |].
    + intros h Hh. by rewrite lookup_insert_ne.
    + intros _. rewrite Hmem, total_insert_None by (by eapply inv_dead).
      unfold tsize. cbn. lia.
  - destruct Hvalid as [Hdead Hlive].
    pose proof (not_live_None _ _ Hdead) as Hq.
    destruct (inv_live _ _ _ Hinv Hlive) as [t Ht].
    destruct (copy_spec F s this other t fuel Hinv Ht Hq)
      as (r1 & s1 & Hrun1 & _ & _ & Hres).
    rewrite (bind_ret _ _ _ _ _ Hrun1) in Hrun. injection Hrun as <- <-.
    destruct r1 as [[]|ex| |]; try done.
    + destruct Hres as (t' & Hinv' & Hdata & Hcount).
      exists (<[this := t']> F). split_and!; [done| |].
      * intros h Hh. by rewrite lookup_insert_ne.
      * intros _. rewrite Hcount, total_insert_None by (by eapply inv_dead).
        rewrite (same_data_tsize _ _ Hdata). lia.
    + destruct Hres as (_ & Hinv' & _). exists F. split_and!; done.
  - destruct (inv_live _ _ _ Hinv Hvalid) as [t Ht].
    destruct (dtor_spec F s this t fuel Hinv Ht) as (r1 & s1 & Hrun1 & _ & Hres).
    rewrite (bind_ret _ _ _ _ _ Hrun1) in Hrun. injection Hrun as <- <-.
    destruct r1 as [[]|ex| |]; try done.
    destruct Hres as (Hinv' & _ & _ & _ & Hsz).
    exists (delete this F). split_and!; [done| |].
    + intros h Hh. by rewrite lookup_delete_ne.
    + intros _. pose proof (total_delete _ _ _ Ht). lia.
  - destruct Hvalid as [Hlive1 Hlive2].
    destruct (decide (this = other)) as [<-|Hne].
    { unfold pq_assign in Hrun. destruct (decide (this = this)); [|done].
      injection Hrun as <- <-. by apply Hsame. }
    destruct (inv_live _ _ _ Hinv Hlive1) as [t1 Ht1].
    destruct (inv_live _ _ _ Hinv Hlive2) as [t2 Ht2].
    destruct (assign_spec F s this other t1 t2 fuel Hinv Hne Ht1 Ht2)
      as (r1 & s1 & Hrun1 & _ & Hres).
    rewrite (bind_ret _ _ _ _ _ Hrun1) in Hrun. injection Hrun as <- <-.
    destruct r1 as [[]|ex| |]; try done.
    + destruct Hres as (t' & Hinv' & Hdata & Hsz & _).
      exists (<[this := t']> F). split_and!; [done| |].
      * intros h Hh. by rewrite lookup_insert_ne.
      * intros _. pose proof (total_insert_Some _ _ _ t' Ht1).
        rewrite (same_data_tsize _ _ Hdata) in *. lia.
    + destruct Hres as (_ & Hinv' & _). exists F. split_and!; done.
  - destruct (inv_live _ _ _ Hinv Hvalid) as [t Ht].
    pose proof (top_spec _ _ _ _ Hinv Ht) as Hrun1.
    mbind Hrun x s1 Hop; rewrite Hrun1 in Hop; injection Hop as _ <-;
      try (unfold ret in Hrun; injection Hrun as _ <-); by apply Hsame.
  - destruct (inv_live _ _ _ Hinv Hvalid) as [t Ht].
    destruct (push_spec F s this t fuel e Hinv Ht)
      as (r1 & s1 & Hrun1 & _ & _ & Hres).
    rewrite (bind_ret _ _ _ _ _ Hrun1) in Hrun. injection Hrun as <- <-.
    destruct r1 as [[]|ex| |]; try done.
    + destruct Hres as (t' & Hinv' & Hperm & Hsz & _).
      exists (<[this := t']> F). split_and!; [done| |].
      * intros h Hh. by rewrite lookup_insert_ne.
      * intros _. pose proof (total_insert_Some _ _ _ t' Ht).
        assert (tsize t' = S (tsize t)).
        { rewrite <- !length_elems, Hperm, length_app. cbn. lia. }
        lia.
    + destruct Hres as (Hinv' & Hmem & _). by apply Hsame.
  - destruct (inv_live _ _ _ Hinv Hvalid) as [t Ht].
    destruct t as [|l v d tl tr].
    { rewrite (bind_throw _ _ _ _ _ (pop_empty_spec _ _ _ fuel Hinv Ht)) in Hrun.
      injection Hrun as <- <-. by apply Hsame. }
    destruct (pop_spec F s this l v d tl tr fuel Hinv Ht)
      as (r1 & s1 & Hrun1 & _ & _ & Hres).
    rewrite (bind_ret _ _ _ _ _ Hrun1) in Hrun. injection Hrun as <- <-.
    destruct r1 as [[]|ex| |]; try done.
    + destruct Hres as (t' & Hinv' & Hperm & Hsz & _).
      exists (<[this := t']> F). split_and!; [done| |].
      * intros h Hh. by rewrite lookup_insert_ne.
      * intros _. pose proof (total_insert_Some _ _ _ t' Ht) as Htot.
        rewrite tsize_Nd in Htot.
        assert (tsize t' = (tsize tl + tsize tr)%nat).
        { by rewrite <- !length_elems, Hperm, length_app. }
        lia.
    + destruct Hres as (Hinv' & Hmem & _). by apply Hsame.
  - destruct (inv_live _ _ _ Hinv Hvalid) as [t Ht].
    rewrite (bind_ok _ _ _ _ _ (size_spec _ _ _ _ Hinv Ht)) in Hrun.
    injection Hrun as _ <-. by apply Hsame.
  - destruct (inv_live _ _ _ Hinv Hvalid) as [t Ht].
    rewrite (bind_ok _ _ _ _ _ (empty_spec _ _ _ _ Hinv Ht)) in Hrun.
    injection Hrun as _ <-. by apply Hsame.
  - destruct Hvalid as [Hlive1 Hlive2].
    destruct (decide (this = other)) as [<-|Hne].
    { unfold pq_merge in Hrun. destruct (decide (this = this)); [|done].
      injection Hrun as <- <-. by apply Hsame. }
    destruct (inv_live _ _ _ Hinv Hlive1) as [t1 Ht1].
    destruct (inv_live _ _ _ Hinv Hlive2) as [t2 Ht2].
    destruct (merge_spec_full F s this other t1 t2 fuel Hinv Hne Ht1 Ht2)
      as (r1 & s1 & Hrun1 & _ & _ & Hres).
    rewrite (bind_ret _ _ _ _ _ Hrun1) in Hrun. injection Hrun as <- <-.
    destruct r1 as [[]|ex| |]; try done.
    + destruct Hres as (t' & Hinv' & Hperm & Hsz & _).
      exists (<[other := Leaf]> (<[this := t']> F)). split_and!; [done| |].
      * intros h Hh. rewrite !lookup_insert_ne; [done|..]; intros <-; tauto.
      * intros _.
        pose proof (total_insert_Some _ _ _ t' Ht1) as Htot1.
        assert (Ht2' : <[this := t']> F !! other = Some t2)
          by (by rewrite lookup_insert_ne).
        pose proof (total_insert_Some _ _ _ Leaf Ht2') as Htot2.
        assert (tsize t' = (tsize t1 + tsize t2)%nat).
        { by rewrite <- !length_elems, Hperm, length_app. }
        change (tsize Leaf) with 0%nat in Htot2. lia.
    + destruct Hres as (Hinv' & Hmem & _). by apply Hsame.
Qed.

Lemma inv_tree_of F (s : state) h (t : tree) :
  inv F s → F !! h = Some t → tree_of s h t.
Proof. intros Hinv Ht. apply owns_tree_of. by apply (inv_owns _ _ Hinv). Qed.

Lemma tree_of_inv F (s : state) h (t : tree) :
  inv F s → tree_of s h t → F !! h = Some t.
Proof.
  intros Hinv (q & Hq & Hroot & Hs & _).
  destruct (inv_live _ _ _ Hinv (mk_is_Some _ _ Hq)) as [t0 Ht0].
  destruct (inv_owns _ _ Hinv h t0 Ht0) as [Hq0 Hs0 _].
  rewrite Hq in Hq0. injection Hq0 as ->. cbn [root] in Hroot.
  by rewrite (shape_unique _ _ _ Hs Hs0 (eq_sym Hroot)).
Qed.

Lemma inv_not_live F (s : state) h :
  inv F s → F !! h = None → queues s !! h = None.
Proof.
  intros Hinv HF. destruct (queues s !! h) as [q|] eqn:Hq; [|done].
  destruct (inv_live _ _ _ Hinv (mk_is_Some _ _ Hq)) as [t Ht]. congruence.
Qed.

Lemma shape_agree m m' (t : tree) l :
  shape m t → shape m' t → l ∈ locs t → m' !! l = m !! l.
Proof.
  induction t as [|l0 v d tl IHl tr IHr]; cbn [shape locs].
  - intros _ _ Hin. by apply elem_of_nil in Hin.
  - intros (Hl & Hsl & Hsr) (Hl' & Hsl' & Hsr') Hin.
    apply elem_of_cons in Hin as [->|Hin]; [congruence|].
    apply elem_of_app in Hin as [Hin|Hin]; eauto.
Qed.

(** ** Calls and the other queues *)

(** X4.  A call made in a state a client can reach leaves every queue it is
    not made on as it is, whether it returns or throws: the members of
    such a queue are unchanged, no node that can be reached from its root
    is written to or deleted, and it has the tree and the elements it had.
    (A [merge] is made on two queues, every other call on one; for a copy
    it is the object that is constructed or assigned to.) *)
Theorem calls_are_local (s : state) fuel c r s' (h : positive) :
  reachable s → valid_call s c → run fuel c s = (r, s') → r ≠ OutOfFuel →
  ¬ touches c h →
  queues s' !! h = queues s !! h ∧
  (∀ q l, queues s !! h = Some q → reaches (mem s) (root q) l →
          mem s' !! l = mem s !! l) ∧
  (∀ t, tree_of s h t ↔ tree_of s' h t) ∧
  (∀ x, contains s h x ↔ contains s' h x).
Proof.
  intros Hreach Hvalid Hrun Hr Hh.
  destruct (reachable_wf _ Hreach) as [F Hinv].
  destruct (run_step F s fuel c r s' Hinv Hvalid Hrun Hr)
    as (F' & Hinv' & Hframe & _).
  specialize (Hframe h Hh).
  destruct (F !! h) as [t|] eqn:Ht.
  - pose proof (inv_owns _ _ Hinv h t Ht) as [Hq Hs _].
    pose proof (inv_owns _ _ Hinv' h t Hframe) as [Hq' Hs' _].
    split_and!.
    + congruence.
    + intros q l Hq0 Hl. rewrite Hq in Hq0. injection Hq0 as <-.
      cbn [root] in Hl. eapply shape_agree; [exact Hs|exact Hs'|].
      by eapply reaches_locs.
    + intros t0. split; intros Ht0.
      * apply (tree_of_inv _ _ _ _ Hinv) in Ht0.
        apply (inv_tree_of _ _ _ _ Hinv'). congruence.
      * apply (tree_of_inv _ _ _ _ Hinv') in Ht0.
        apply (inv_tree_of _ _ _ _ Hinv). congruence.
    + intros x. rewrite (contains_elems _ _ _ _ _ Hinv Ht).
      by rewrite (contains_elems _ _ _ _ _ Hinv' Hframe).
  - pose proof (inv_not_live _ _ _ Hinv Ht) as Hq.
    pose proof (inv_not_live _ _ _ Hinv' Hframe) as Hq'.
    split_and!.
    + congruence.
    + intros q l Hq0. congruence.
    + intros t0. split; intros (q & Hq0 & _); congruence.
    + intros x. split; intros (q & l & n & Hq0 & _); congruence.
Qed.

(** ** Garbage *)

Lemma initial_garbage_free capacity : garbage_free (initial capacity : state).
Proof. intros l [n Hn]. cbn in Hn. by rewrite lookup_empty in Hn. Qed.

(** X5.  The calls leak no node, a copy that throws apart (the copy
    constructor or [operator=] when [clone] runs out of memory).  If every
    node of the free store can be reached from the root of a live queue,
    that is still so after a client program none of whose copies has
    thrown: what [push] and the copies allocate belongs to a queue, what
    [pop], the destructor and [operator=] take out of a queue is deleted,
    and a [push] that throws deletes its node.  It is so in the state a
    program starts in, where the free store is empty. *)
Theorem no_leak fuel cs : ∀ s : state,
  reachable s → garbage_free s →
  well_run fuel cs s → no_failed_copy fuel cs s = true →
  garbage_free (runs fuel cs s).
Proof.
  induction cs as [|c cs IH]; intros s Hreach Hgf Hok Hclean; [done|].
  destruct Hok as (Hvalid & Hr & Hok). cbn [runs no_failed_copy] in *.
  apply andb_prop in Hclean as [Hc Hclean].
  apply negb_true_iff in Hc.
  destruct (run fuel c s) as [r s'] eqn:Hrun. cbn [fst snd] in *.
  apply IH; try done.
  - by eapply reachable_call.
  - destruct (reachable_wf _ Hreach) as [F Hinv].
    destruct (run_step F s fuel c r s' Hinv Hvalid Hrun Hr)
      as (F' & Hinv' & _ & Hcount).
    apply (garbage_free_iff _ _ Hinv'). specialize (Hcount Hc).
    apply (garbage_free_iff _ _ Hinv) in Hgf. lia.
Qed.

(** ** The number of comparisons *)

Lemma rank_log2 (t : tree) :
  leftist t → rank t ≤ Z.log2 (Z.of_nat (tsize t) + 1).
Proof.
  intros Hl. destruct (leftist_rank _ Hl) as [_ Hpow].
  apply Z.log2_le_pow2; [lia|done].
Qed.

Lemma size_of_inv F (s : state) h (t : tree) :
  inv F s → F !! h = Some t → size_of s h = Z.of_nat (tsize t).
Proof.
  intros Hinv Ht. unfold size_of.
  by rewrite (owns_queue _ _ _ (inv_owns _ _ Hinv h t Ht)).
Qed.

Lemma meld_steps_log2 (t1 t2 : tree) :
  leftist t1 → leftist t2 →
  meld_steps t1 t2
  ≤ Z.log2 (Z.of_nat (tsize t1) + 1) + Z.log2 (Z.of_nat (tsize t2) + 1).
Proof.
  intros H1 H2. pose proof (rank_log2 _ H1). pose proof (rank_log2 _ H2).
  pose proof (Z.log2_nonneg (Z.of_nat (tsize t1) + 1)).
  pose proof (Z.log2_nonneg (Z.of_nat (tsize t2) + 1)).
  unfold meld_steps. destruct t1, t2; lia.
Qed.

(** X6.  A call made in a state a client can reach calls the comparator
    logarithmically often, however it ends: a [push] into a queue of [n]
    elements at most [log2 (n + 1)] times, a [pop] from it at most
    [2 * log2 n] times, a [merge] of queues of [n1] and [n2] elements at
    most [log2 (n1 + 1) + log2 (n2 + 1)] times ([log2] rounded down); the
    constructors, the destructor, [operator=], [top], [size] and [empty]
    never.  So a [push] into an empty queue and a [pop] from a queue of one
    element make no comparison. *)
Theorem comparisons_are_logarithmic (s : state) fuel c r s' :
  reachable s → valid_call s c → run fuel c s = (r, s') →
  ∃ new, calls s' = new ++ calls s ∧
         Z.of_nat (length new) ≤ comparison_bound s c.
Proof.
  intros Hreach Hvalid Hrun. destruct (reachable_wf _ Hreach) as [F Hinv].
  assert (Hsilent : silent (run fuel c) → comparison_bound s c = 0 →
            ∃ new, calls s' = new ++ calls s ∧
                   Z.of_nat (length new) ≤ comparison_bound s c).
  { intros Hs ->. exists []. split; [|done]. by apply (Hs _ _ _ Hrun). }
  destruct c as [this|this other|this|this other|this|this e|this|this|this
                |this other]; cbn [valid_call run] in *.
  - apply Hsilent; [|done]. repeat silent_step.
  - apply Hsilent; [|done]. repeat first [ apply silent_copy | silent_step ].
  - apply Hsilent; [|done]. repeat first [ apply silent_dtor | silent_step ].
  - apply Hsilent; [|done]. repeat first [ apply silent_assign | silent_step ].
  - apply Hsilent; [|done]. repeat first [ apply silent_top | silent_step ].
  - destruct (inv_live _ _ _ Hinv Hvalid) as [t Ht].
    destruct (push_spec F s this t fuel e Hinv Ht)
      as (r1 & s1 & Hrun1 & _ & (new & Hnew & Hlen) & _).
    rewrite (bind_ret _ _ _ _ _ Hrun1) in Hrun. injection Hrun as <- <-.
    exists new. split; [done|]. cbn [comparison_bound].
    rewrite (size_of_inv _ _ _ _ Hinv Ht). etrans; [exact Hlen|].
    apply rank_log2. by destruct (inv_owns _ _ Hinv _ _ Ht) as [_ _ [_ ? _]].
  - destruct (inv_live _ _ _ Hinv Hvalid) as [t Ht].
    cbn [comparison_bound]. rewrite (size_of_inv _ _ _ _ Hinv Ht).
    pose proof (Z.log2_nonneg (Z.of_nat (tsize t))).
    destruct t as [|l v d tl tr].
    { rewrite (bind_throw _ _ _ _ _ (pop_empty_spec _ _ _ fuel Hinv Ht)) in Hrun.
      injection Hrun as <- <-. exists []. split; [done|]. cbn [length]. lia. }
    destruct (pop_spec F s this l v d tl tr fuel Hinv Ht)
      as (r1 & s1 & Hrun1 & _ & (new & Hnew & Hlen) & _).
    rewrite (bind_ret _ _ _ _ _ Hrun1) in Hrun. injection Hrun as <- <-.
    exists new. split; [done|]. etrans; [exact Hlen|].
    destruct (inv_owns _ _ Hinv _ _ Ht) as [_ _ [_ (_ & _ & Hll & Hlr) _]].
    pose proof (meld_steps_log2 _ _ Hll Hlr) as Hb.
    rewrite tsize_Nd in *.
    assert (Z.log2 (Z.of_nat (tsize tl) + 1)
            ≤ Z.log2 (Z.of_nat (S (tsize tl + tsize tr))))
      by (apply Z.log2_le_mono; lia).
    assert (Z.log2 (Z.of_nat (tsize tr) + 1)
            ≤ Z.log2 (Z.of_nat (S (tsize tl + tsize tr))))
      by (apply Z.log2_le_mono; lia).
    lia.
  - apply Hsilent; [|done]. repeat first [ apply silent_size | silent_step ].
  - apply Hsilent; [|done]. repeat first [ apply silent_empty | silent_step ].
  - destruct Hvalid as [Hlive1 Hlive2]. cbn [comparison_bound].
    destruct (inv_live _ _ _ Hinv Hlive1) as [t1 Ht1].
    destruct (inv_live _ _ _ Hinv Hlive2) as [t2 Ht2].
    rewrite (size_of_inv _ _ _ _ Hinv Ht1), (size_of_inv _ _ _ _ Hinv Ht2).
    pose proof (inv_owns _ _ Hinv _ _ Ht1) as [_ _ [_ Hl1 _]].
    pose proof (inv_owns _ _ Hinv _ _ Ht2) as [_ _ [_ Hl2 _]].
    pose proof (meld_steps_log2 _ _ Hl1 Hl2) as Hb.
    destruct (decide (this = other)) as [<-|Hne].
    { unfold pq_merge in Hrun. destruct (decide (this = this)); [|done].
      injection Hrun as <- <-. exists []. split; [done|]. cbn [length].
      pose proof (Z.log2_nonneg (Z.of_nat (tsize t1) + 1)). simplify_eq. lia. }
    destruct (merge_spec_full F s this other t1 t2 fuel Hinv Hne Ht1 Ht2)
      as (r1 & s1 & Hrun1 & _ & (new & Hnew & Hlen) & _).
    rewrite (bind_ret _ _ _ _ _ Hrun1) in Hrun. injection Hrun as <- <-.
    exists new. split; [done|]. lia.
Qed.

(** ** The representation *)

(** X7.  The representation invariant of the class, in every state a
    client can reach.  The root of a queue is [nullptr] exactly when its
    count is zero (so [top] and [pop] dereference no null pointer once
    [empty] has returned [false]); the count is between zero and the
    capacity of the free store, which is below [2 ^ 64], so that it never
    wraps; the comparator is the value-initialised one; the nodes that can
    be reached from the root form a tree, each node at one place of it;
    and no node can be reached from the roots of two queues. *)
Theorem queues_own_disjoint_trees (s : state) (h : positive) (q : pq) :
  reachable s → queues s !! h = Some q →
  (root q = None ↔ cnt q = 0) ∧
  0 ≤ cnt q ≤ Z.of_nat (cap s) ∧ Z.of_nat (cap s) < size_t_modulus ∧
  comp q = default_comp ∧
  (∃ t, tree_of s h t) ∧
  ∀ h' q' l, h' ≠ h → queues s !! h' = Some q' →
             reaches (mem s) (root q) l → ¬ reaches (mem s) (root q') l.
Proof.
  intros Hreach Hq. destruct (reachable_wf _ Hreach) as [F Hinv].
  destruct (inv_live _ _ _ Hinv (mk_is_Some _ _ Hq)) as [t Ht].
  pose proof (inv_owns _ _ Hinv h t Ht) as [Hq' Hs Hg].
  rewrite Hq in Hq'. injection Hq' as ->. cbn [root cnt comp].
  pose proof (inv_tsize _ _ _ _ Hinv Ht) as Hsz.
  pose proof (inv_size _ _ Hinv) as Hsize.
  split_and!; try done; try lia.
  - destruct t as [|l v d tl tr]; [done|]. rewrite tsize_Nd. cbn. split; [done|lia].
  - apply (inv_cap _ _ Hinv).
  - exists t. by eapply inv_tree_of.
  - intros h' q' l Hne Hq' Hl Hl'.
    destruct (inv_live _ _ _ Hinv (mk_is_Some _ _ Hq')) as [t' Ht'].
    pose proof (inv_owns _ _ Hinv h' t' Ht') as [Hq'' Hs' _].
    rewrite Hq' in Hq''. injection Hq'' as ->. cbn [root] in Hl'.
    eapply (inv_disj _ _ Hinv h' h t' t l); try done.
    + eapply reaches_locs; [exact Hl'|done|done].
    + eapply reaches_locs; [exact Hl|done|done].
Qed.

Lemma dist_at m (t : tree) l (n : Node) :
  shape m t → leftist t → l ∈ locs t → m !! l = Some n →
  1 ≤ dist n ∧ 2 ^ dist n ≤ Z.of_nat (tsize t) + 1.
Proof.
  induction t as [|l0 v d tl IHl tr IHr]; cbn [shape locs].
  - intros _ _ Hin. by apply elem_of_nil in Hin.
  - intros (Hl & Hsl & Hsr) Hleft Hin Hn.
    pose proof (leftist_rank _ Hleft) as [_ Hpow].
    pose proof (leftist_rank_pos _ _ _ _ _ Hleft) as [Hpos _].
    destruct Hleft as (_ & _ & Hll & Hlr). rewrite tsize_Nd in *.
    apply elem_of_cons in Hin as [->|Hin].
    { rewrite Hl in Hn. injection Hn as <-. done. }
    apply elem_of_app in Hin as [Hin|Hin].
    + destruct (IHl Hsl Hll Hin Hn). split; [done|lia].
    + destruct (IHr Hsr Hlr Hin Hn). split; [done|lia].
Qed.

(** X8.  In every state a client can reach, the [dist] of a node that can
    be reached from the root of a queue is at least one and logarithmic in
    the size of the queue: [2 ^ dist <= size + 1].  So it is at most 64,
    and [npl(a->right) + 1] in [meld] never overflows an [int]. *)
Theorem dist_is_logarithmic (s : state) (h : positive) (q : pq) l n :
  reachable s → queues s !! h = Some q →
  reaches (mem s) (root q) l → mem s !! l = Some n →
  1 ≤ dist n ∧ 2 ^ dist n ≤ cnt q + 1 ∧ dist n ≤ 64 ∧
  wrap_int (dist n + 1) = dist n + 1.
Proof.
  intros Hreach Hq Hl Hn. destruct (reachable_wf _ Hreach) as [F Hinv].
  destruct (inv_live _ _ _ Hinv (mk_is_Some _ _ Hq)) as [t Ht].
  pose proof (inv_owns _ _ Hinv h t Ht) as [Hq' Hs [_ Hleft _]].
  rewrite Hq in Hq'. injection Hq' as ->. cbn [root cnt] in *.
  pose proof (reaches_locs _ _ _ Hl t Hs eq_refl) as Hin.
  destruct (dist_at _ _ _ _ Hs Hleft Hin Hn) as [H1 Hpow].
  pose proof (inv_tsize _ _ _ _ Hinv Ht) as Hsz.
  pose proof (inv_size _ _ Hinv) as Hsize.
  pose proof (inv_cap _ _ Hinv) as Hcap. unfold size_t_modulus in Hcap.
  assert (H64 : dist n ≤ 64).
  { destruct (decide (dist n ≤ 64)) as [|Hgt]; [done|].
    assert (2 ^ 65 ≤ 2 ^ dist n) by (apply Z.pow_le_mono_r; lia). lia. }
  split_and!; try done. apply wrap_int_small. lia.
Qed.

Section HeapOrder.

Variable less : T → T → bool.
Hypothesis Hswo : strict_weak_order less.
Hypothesis Hagree : agrees less.

Lemma heap_at m c (t : tree) l :
  shape m t → heap_ordered c t → l ∈ locs t →
  ∃ v d (tl tr : tree),
    m !! l = Some (mkNode v (ptr_of tl) (ptr_of tr) d) ∧
    shape m tl ∧ shape m tr ∧
    root_not_above c tl v ∧ root_not_above c tr v.
Proof.
  induction t as [|l0 v d tl IHl tr IHr]; cbn [shape heap_ordered locs].
  - intros _ _ Hin. by apply elem_of_nil in Hin.
  - intros (Hl & Hsl & Hsr) (Hrl & Hrr & Hhl & Hhr) Hin.
    apply elem_of_cons in Hin as [->|Hin].
    { exists v, d, tl, tr. split_and!; done. }
    apply elem_of_app in Hin as [Hin|Hin]; eauto.
Qed.

Lemma child_not_above m c (t : tree) v p (nc : Node) :
  shape m t → root_not_above c t v → ptr_of t = Some p →
  m !! p = Some nc → less v (val nc) = false.
Proof using Hswo Hagree.
  destruct t as [|l w d tl tr]; [done|]. cbn [shape root_not_above ptr_of].
  intros (Hl & _ & _) Hna [= ->] Hp. rewrite Hl in Hp. injection Hp as <-.
  cbn [val]. by eapply (not_above_less less Hswo Hagree).
Qed.

(** X9.  Heap order holds at every node, in every state a client can
    reach, with a comparator that is a strict weak order (and may throw):
    the comparator puts no node that can be reached from the root of a
    queue below one of its children. *)
Theorem heap_order_everywhere (s : state) (h : positive) (q : pq) l n p nc :
  reachable s → queues s !! h = Some q →
  reaches (mem s) (root q) l → mem s !! l = Some n →
  left n = Some p ∨ right n = Some p → mem s !! p = Some nc →
  less (val n) (val nc) = false.
Proof using Hswo Hagree.
  intros Hreach Hq Hl Hn Hp Hnc. destruct (reachable_wf _ Hreach) as [F Hinv].
  destruct (inv_live _ _ _ Hinv (mk_is_Some _ _ Hq)) as [t Ht].
  pose proof (inv_owns _ _ Hinv h t Ht) as [Hq' Hs [_ _ Hheap]].
  rewrite Hq in Hq'. injection Hq' as ->. cbn [root] in Hl.
  pose proof (reaches_locs _ _ _ Hl t Hs eq_refl) as Hin.
  destruct (heap_at _ _ _ _ Hs Hheap Hin)
    as (v & d & tl & tr & Hn' & Hsl & Hsr & Hrl & Hrr).
  rewrite Hn in Hn'. injection Hn' as ->. cbn [left right val] in *.
  destruct Hp as [Hp|Hp].
  - by eapply (child_not_above _ _ tl).
  - by eapply (child_not_above _ _ tr).
Qed.

End HeapOrder.

(** ** [push] and [pop] *)

Lemma push_live fuel h e (s : state) u s' :
  pq_push fuel h e s = (Ok u, s') → live s h.
Proof.
  unfold pq_push. intros H. mbindx H n s1 H1.
  apply try_catch_inv in H1 as [(ex & s0 & Hb & Hh)|[Hnew _]].
  { mbindx Hh u0 s2 Hd. unfold throw in Hh. done. }
  apply new_Node_inv in Hnew as [(? & _)|(l & ? & Hfresh & ->)]; [done|].
  simplify_eq.
  apply try_catch_inv in H as [(ex & s0 & Hb & Hh)|[Hb _]].
  { mbindx Hh u0 s2 Hd. unfold throw in Hh. done. }
  mgetx Hb q Hq. by exists q.
Qed.

Lemma pop_live fuel h (s : state) u s' :
  pq_pop fuel h s = (Ok u, s') → live s h.
Proof.
  unfold pq_pop, pq_empty. intros H. mbindx H b s1 H1.
  mgetx H1 q Hq. by exists q.
Qed.

Lemma link_is_node l v (tl nr : tree) :
  ∃ d (tl' tr' : tree), link l v tl nr = Nd l v d tl' tr'.
Proof. unfold link. destruct (rank tl <? rank nr); eauto. Qed.

(** The root of the tree [meld] makes of a tree and a new node. *)
Lemma meldT_single fuel c (t t' : tree) l e :
  meldT fuel c t (Nd l e 1 Leaf Leaf) = Ok t' →
  match t with
  | Leaf => t' = Nd l e 1 Leaf Leaf
  | Nd _ v _ _ _ =>
      ∃ (b : bool) l' d' (tl' tr' : tree),
        invoke c v e = inr b ∧ t' = Nd l' (if b then e else v) d' tl' tr'
  end.
Proof.
  intros H. apply meldT_inv in H as [[-> ->]|[[[=] _]|H]]; [done|].
  destruct H as (f & la & va & da & al & ar & lb & vb & db & bl & br & nr &
                 _ & -> & [= <- <- <- <- <-] & [(Hc & _ & ->)|(Hc & _ & ->)]).
  - destruct (link_is_node l e Leaf nr) as (d' & tl' & tr' & ->).
    exists true. eauto 10.
  - destruct (link_is_node la va al nr) as (d' & tl' & tr' & ->).
    exists false. eauto 10.
Qed.

Lemma empty_Leaf F (s : state) h (t : tree) :
  inv F s → F !! h = Some t → pq_empty h s = (Ok true, s) → t = Leaf.
Proof.
  intros Hinv Ht He. rewrite (empty_spec _ _ _ _ Hinv Ht) in He.
  injection He as He. apply Z.eqb_eq in He.
  destruct t; [done|]. rewrite tsize_Nd in He. lia.
Qed.

Section Push.

Variable less : T → T → bool.
Hypothesis Hagree : agrees less.

(** X10.  When a [push] of [e] made in a state a client can reach returns,
    the queue holds [e] and what it held, one node has been added to the
    free store, and [top] returns [e] if the queue was empty or the
    comparator has put the old top below [e], and the old top otherwise:
    an element that is not above the top never displaces it. *)
Theorem push_postcondition fuel (s : state) (h : positive) e s' :
  reachable s → pq_push fuel h e s = (Ok tt, s') →
  (∃ t t', tree_of s h t ∧ tree_of s' h t' ∧ elems t' ≡ₚ e :: elems t) ∧
  (∀ x, contains s' h x ↔ x = e ∨ contains s h x) ∧
  size (mem s') = S (size (mem s)) ∧
  (pq_empty h s = (Ok true, s) → pq_top h s' = (Ok e, s')) ∧
  (∀ m, pq_top h s = (Ok m, s) →
        pq_top h s' = (Ok (if less m e then e else m), s')).
Proof using Hagree.
  intros Hreach Hrun. destruct (reachable_wf _ Hreach) as [F Hinv].
  destruct (inv_live _ _ _ Hinv (push_live _ _ _ _ _ _ Hrun)) as [t Ht].
  destruct (push_spec F s h t fuel e Hinv Ht)
    as (r1 & s1 & Hrun1 & _ & _ & Hres).
  rewrite Hrun in Hrun1. injection Hrun1 as <- <-.
  destruct Hres as (t' & Hinv' & Hperm & Hsz & l & Hfresh & Hm).
  assert (Ht' : <[h := t']> F !! h = Some t') by apply lookup_insert_eq.
  assert (Hperm' : elems t' ≡ₚ e :: elems t).
  { rewrite Hperm. apply Permutation_app_comm. }
  pose proof (top_spec _ _ _ _ Hinv' Ht') as Htop'.
  apply meldT_single in Hm.
  split_and!.
  - exists t, t'. split_and!; try done; by eapply inv_tree_of.
  - intros x. rewrite (contains_elems _ _ _ _ _ Hinv' Ht').
    rewrite (contains_elems _ _ _ _ _ Hinv Ht), Hperm'.
    apply elem_of_cons.
  - done.
  - intros He. rewrite (empty_Leaf _ _ _ _ Hinv Ht He) in Hm. by subst t'.
  - intros m Htop. rewrite (top_spec _ _ _ _ Hinv Ht) in Htop.
    destruct t as [|l0 v d tl tr]; [done|]. injection Htop as <-.
    destruct Hm as (b & l' & d' & tl' & tr' & Hc & ->).
    by rewrite <- (Hagree _ _ _ _ Hc).
Qed.

End Push.

(** X11.  When a [pop] made in a state a client can reach returns, the
    queue holds what it held but for one occurrence of the element [top]
    returned before the call; the node that was the root has been deleted,
    and no other node has been added to or taken from the free store. *)
Theorem pop_postcondition fuel (s : state) (h : positive) s' :
  reachable s → pq_pop fuel h s = (Ok tt, s') →
  ∃ m (t t' : tree) l,
    pq_top h s = (Ok m, s) ∧ tree_of s h t ∧ tree_of s' h t' ∧
    elems t ≡ₚ m :: elems t' ∧
    ptr_of t = Some l ∧ mem s' !! l = None ∧
    S (size (mem s')) = size (mem s).
Proof.
  intros Hreach Hrun. destruct (reachable_wf _ Hreach) as [F Hinv].
  destruct (inv_live _ _ _ Hinv (pop_live _ _ _ _ _ Hrun)) as [t Ht].
  destruct t as [|l v d tl tr].
  { by rewrite (pop_empty_spec _ _ _ fuel Hinv Ht) in Hrun. }
  destruct (pop_spec F s h l v d tl tr fuel Hinv Ht)
    as (r1 & s1 & Hrun1 & _ & _ & Hres).
  rewrite Hrun in Hrun1. injection Hrun1 as <- <-.
  destruct Hres as (t' & Hinv' & Hperm & Hsz & _ & Hgone).
  exists v, (Nd l v d tl tr), t', l. split_and!; try done.
  - by rewrite (top_spec _ _ _ _ Hinv Ht).
  - by eapply inv_tree_of.
  - eapply inv_tree_of; [exact Hinv'|]. apply lookup_insert_eq.
  - cbn [elems]. by rewrite Hperm.
Qed.

Section RoundTrip.

Variable less : T → T → bool.
Hypothesis Hcomp : computes less.

(** X12.  A [push] followed by a [pop] restores the queue when the element
    pushed is above the top: in a state a client can reach, with room for
    one more node and a comparator that computes [less] without throwing,
    if the queue is empty or [less (top, e)] holds, then [push(e)] returns,
    [top] returns [e], [pop] returns, and the queue has the very tree it
    had before the two calls, in a free store of the size it had. *)
Theorem push_pop_round_trip fuel (s : state) (h : positive) e :
  reachable s → live s h →
  (size (mem s) < cap s)%nat → (cap s < fuel)%nat →
  (∀ m, pq_top h s = (Ok m, s) → less m e = true) →
  ∃ s1 s2,
    pq_push fuel h e s = (Ok tt, s1) ∧ pq_top h s1 = (Ok e, s1) ∧
    pq_pop fuel h s1 = (Ok tt, s2) ∧
    (∀ t, tree_of s h t → tree_of s2 h t) ∧
    (∀ x, contains s2 h x ↔ contains s h x) ∧
    size (mem s2) = size (mem s).
Proof using Hcomp.
  intros Hreach Hlive Hroom Hfuel Htop.
  destruct (reachable_wf _ Hreach) as [F Hinv].
  destruct (inv_live _ _ _ Hinv Hlive) as [t Ht].
  pose proof (inv_tsize _ _ _ _ Hinv Ht) as Hsz.
  pose proof (inv_owns _ _ Hinv h t Ht) as [_ _ [_ Hleft _]].
  destruct (push_spec F s h t fuel e Hinv Ht)
    as (r1 & s1 & Hrun1 & Hcap1 & _ & Hres1).
  destruct r1 as [[]|ex| |]; try done; cycle 1.
  { destruct Hres1 as (_ & _ & _ & [[_ ?]|(x & a & b & _ & Hab)]); [lia|].
    by rewrite Hcomp in Hab. }
  { lia. }
  destruct Hres1 as (t1 & Hinv1 & _ & Hsz1 & l & Hfresh & Hm).
  assert (Ht1 : <[h := t1]> F !! h = Some t1) by apply lookup_insert_eq.
  assert (Hshape : t1 = match t with
                        | Leaf => Nd l e 1 Leaf Leaf
                        | _ => Nd l e 1 t Leaf
                        end).
  { destruct fuel as [|[|fuel]]; [lia|lia|].
    destruct t as [|la va da al ar]; [by injection Hm as <-|].
    cbn [meldT] in Hm. rewrite Hcomp in Hm.
    rewrite (Htop va) in Hm by (by rewrite (top_spec _ _ _ _ Hinv Ht)).
    injection Hm as <-. unfold link. cbn [rank].
    pose proof (leftist_rank_pos _ _ _ _ _ Hleft) as [Hpos _].
    replace (0 <? da) with true by (symmetry; apply Z.ltb_lt; lia).
    done. }
  assert (Ht1' : ∃ tl, <[h := t1]> F !! h = Some (Nd l e 1 tl Leaf) ∧
                       (tl = t ∨ (tl = Leaf ∧ t = Leaf)) ∧
                       meldT fuel default_comp tl Leaf = Ok t).
  { destruct fuel as [|fuel]; [lia|].
    destruct t; subst t1; eexists; split_and!; eauto. }
  destruct Ht1' as (tl & Ht1' & Htl & Hmeld).
  destruct (pop_spec _ s1 h l e 1 tl Leaf fuel Hinv1 Ht1')
    as (r2 & s2 & Hrun2 & Hcap2 & _ & Hres2).
  assert (Hsz2 : (tsize tl ≤ tsize t)%nat).
  { destruct Htl as [->|[-> ->]]; done. }
  destruct r2 as [[]|ex| |]; try done; cycle 1.
  { destruct Hres2 as (_ & _ & _ & x & a & b & _ & Hab).
    by rewrite Hcomp in Hab. }
  { change (tsize Leaf) with 0%nat in Hres2. lia. }
  destruct Hres2 as (t2 & Hinv2 & _ & Hsz2' & Hm2 & _).
  rewrite Hmeld in Hm2. injection Hm2 as <-.
  rewrite insert_insert_eq, (insert_id _ _ _ Ht) in Hinv2.
  exists s1, s2. split_and!; try done.
  - rewrite (top_spec _ _ _ _ Hinv1 Ht1'). done.
  - intros t0 Ht0. apply (tree_of_inv _ _ _ _ Hinv) in Ht0.
    by apply (inv_tree_of _ _ _ _ Hinv2).
  - intros x. rewrite (contains_elems _ _ _ _ _ Hinv2 Ht).
    by rewrite (contains_elems _ _ _ _ _ Hinv Ht).
  - lia.
Qed.

End RoundTrip.

(** ** Copies and the destructor *)

Lemma same_data_top (t t' : tree) :
  same_data t t' →
  match t, t' with
  | Nd _ v _ _ _, Nd _ v' _ _ _ => v = v'
  | Leaf, Leaf => True
  | _, _ => False
  end.
Proof. destruct t, t'; cbn; try done. by intros (-> & _). Qed.

(** X13.  A copy is deep.  When the copy constructor, or [operator=]
    between two distinct queues, returns in a state a client can reach, the
    target has a tree with the values and the [dist]s of the tree of the
    source, place for place, so the same elements and the same [top]; it
    has the count and the comparator of the source; none of its nodes is a
    node of the source; and the source has the members, the tree and the
    nodes it had, none of them written to. *)
Theorem copy_is_deep (s : state) fuel c (this other : positive) v s' :
  reachable s →
  c = CCopy this other ∨ (c = CAssign this other ∧ this ≠ other) →
  valid_call s c →
  run fuel c s = (Ok v, s') →
  ∃ (t t' : tree) q q',
    tree_of s other t ∧ tree_of s' other t ∧ tree_of s' this t' ∧
    same_data t t' ∧ elems t' = elems t ∧
    queues s !! other = Some q ∧ queues s' !! other = Some q ∧
    queues s' !! this = Some q' ∧ comp q' = comp q ∧ cnt q' = cnt q ∧
    (∀ l, reaches (mem s') (root q') l → ¬ reaches (mem s') (root q) l) ∧
    (∀ l, reaches (mem s) (root q) l → mem s' !! l = mem s !! l) ∧
    fst (pq_top this s') = fst (pq_top other s).
Proof.
  intros Hreach Hc Hvalid Hrun. destruct (reachable_wf _ Hreach) as [F Hinv].
  assert (Hok : ∀ (t t' : tree),
    F !! other = Some t → this ≠ other →
    inv (<[this := t']> F) s' → same_data t t' →
    ∃ (t t' : tree) q q',
      tree_of s other t ∧ tree_of s' other t ∧ tree_of s' this t' ∧
      same_data t t' ∧ elems t' = elems t ∧
      queues s !! other = Some q ∧ queues s' !! other = Some q ∧
      queues s' !! this = Some q' ∧ comp q' = comp q ∧ cnt q' = cnt q ∧
      (∀ l, reaches (mem s') (root q') l → ¬ reaches (mem s') (root q) l) ∧
      (∀ l, reaches (mem s) (root q) l → mem s' !! l = mem s !! l) ∧
      fst (pq_top this s') = fst (pq_top other s)).
  { intros t t' Ht Hne Hinv' Hdata.
    assert (Ht' : <[this := t']> F !! this = Some t') by apply lookup_insert_eq.
    assert (Hto : <[this := t']> F !! other = Some t)
      by (by rewrite lookup_insert_ne).
    pose proof (inv_owns _ _ Hinv _ _ Ht) as Hown.
    pose proof (inv_owns _ _ Hinv' _ _ Ht') as Hown'.
    pose proof (inv_owns _ _ Hinv' _ _ Hto) as Howno.
    exists t, t'. eexists _, _. split_and!.
    - by apply owns_tree_of.
    - by apply owns_tree_of.
    - by apply owns_tree_of.
    - done.
    - by apply same_data_elems.
    - apply (owns_queue _ _ _ Hown).
    - apply (owns_queue _ _ _ Howno).
    - apply (owns_queue _ _ _ Hown').
    - done.
    - cbn. by rewrite (same_data_tsize _ _ Hdata).
    - cbn [root]. intros l Hl Hl'.
      eapply (inv_disj _ _ Hinv' this other t' t l); try done.
      + eapply reaches_locs; [exact Hl|apply (owns_shape _ _ _ Hown')|done].
      + eapply reaches_locs; [exact Hl'|apply (owns_shape _ _ _ Howno)|done].
    - cbn [root]. intros l Hl.
      eapply shape_agree;
        [apply (owns_shape _ _ _ Hown)|apply (owns_shape _ _ _ Howno)|].
      eapply reaches_locs; [exact Hl|apply (owns_shape _ _ _ Hown)|done].
    - rewrite (top_spec _ _ _ _ Hinv' Ht'), (top_spec _ _ _ _ Hinv Ht).
      apply same_data_top in Hdata. destruct t, t'; try done.
      cbn. by subst. }
  destruct Hc as [->|[-> Hne]]; cbn [valid_call run] in *.
  - destruct Hvalid as [Hdead Hlive].
    pose proof (not_live_None _ _ Hdead) as Hq.
    assert (Hne : this ≠ other).
    { intros ->. destruct Hlive as [? ?]. congruence. }
    destruct (inv_live _ _ _ Hinv Hlive) as [t Ht].
    destruct (copy_spec F s this other t fuel Hinv Ht Hq)
      as (r1 & s1 & Hrun1 & _ & _ & Hres).
    rewrite (bind_ret _ _ _ _ _ Hrun1) in Hrun. injection Hrun as Hr <-.
    destruct r1 as [[]|e| |]; try done.
    destruct Hres as (t' & Hinv' & Hdata & _). by eapply Hok.
  - destruct Hvalid as [Hlive1 Hlive2].
    destruct (inv_live _ _ _ Hinv Hlive1) as [t1 Ht1].
    destruct (inv_live _ _ _ Hinv Hlive2) as [t2 Ht2].
    destruct (assign_spec F s this other t1 t2 fuel Hinv Hne Ht1 Ht2)
      as (r1 & s1 & Hrun1 & _ & Hres).
    rewrite (bind_ret _ _ _ _ _ Hrun1) in Hrun. injection Hrun as Hr <-.
    destruct r1 as [[]|e| |]; try done.
    destruct Hres as (t' & Hinv' & Hdata & _). by eapply Hok.
Qed.

(** X14.  When [operator=] between two distinct queues returns in a state
    a client can reach, every node that could be reached from the root the
    target had is deleted, the free store has lost the nodes of the old
    tree of the target and gained as many as the source has, and the
    local [tmp] is gone: the live queue objects are those there were. *)
Theorem assignment_frees_the_old_tree (s : state) fuel (this other : positive)
    (q o : pq) s' :
  reachable s → this ≠ other →
  queues s !! this = Some q → queues s !! other = Some o →
  pq_assign fuel this other s = (Ok tt, s') →
  (∀ l, reaches (mem s) (root q) l → mem s' !! l = None) ∧
  Z.of_nat (size (mem s')) + cnt q = Z.of_nat (size (mem s)) + cnt o ∧
  (∀ h, live s' h ↔ live s h).
Proof.
  intros Hreach Hne Hq Ho Hrun. destruct (reachable_wf _ Hreach) as [F Hinv].
  destruct (inv_live _ _ _ Hinv (mk_is_Some _ _ Hq)) as [t1 Ht1].
  destruct (inv_live _ _ _ Hinv (mk_is_Some _ _ Ho)) as [t2 Ht2].
  pose proof (inv_owns _ _ Hinv _ _ Ht1) as [Hq1 Hs1 _].
  pose proof (inv_owns _ _ Hinv _ _ Ht2) as [Hq2 _ _].
  rewrite Hq in Hq1. injection Hq1 as ->.
  rewrite Ho in Hq2. injection Hq2 as ->. cbn [root cnt].
  destruct (assign_spec F s this other t1 t2 fuel Hinv Hne Ht1 Ht2)
    as (r1 & s1 & Hrun1 & _ & Hres).
  rewrite Hrun in Hrun1. injection Hrun1 as <- <-.
  destruct Hres as (t' & Hinv' & _ & Hsz & Hgone).
  split_and!.
  - intros l Hl. apply Hgone. by eapply reaches_locs.
  - lia.
  - intros h. unfold live. split; intros Hlive.
    + destruct (inv_live _ _ _ Hinv' Hlive) as [t Ht].
      rewrite lookup_insert in Ht. case_decide; subst.
      * by eexists.
      * destruct (inv_owns _ _ Hinv _ _ Ht) as [Hqh _ _]. by eexists.
    + destruct (inv_live _ _ _ Hinv Hlive) as [t Ht].
      destruct (decide (this = h)) as [<-|Hn].
      * destruct (inv_owns _ _ Hinv' this t' (lookup_insert_eq _ _ _))
          as [Hqh _ _]. by eexists.
      * assert (Ht' : <[this := t']> F !! h = Some t)
          by (by rewrite lookup_insert_ne).
        destruct (inv_owns _ _ Hinv' _ _ Ht') as [Hqh _ _]. by eexists.
Qed.




(** X17.  The destructor, on a live queue in a state a client can reach
    and with a recursion budget above the capacity of the free store,
    returns: it never throws and deletes no node twice.  It deletes every
    node that can be reached from the root of the queue and no other node,
    ends the life of the queue object, and calls the comparator not once. *)
Theorem destructor_frees_the_tree (s : state) fuel (h : positive) (q : pq) :
  reachable s → queues s !! h = Some q → (cap s < fuel)%nat →
  ∃ s', pq_dtor fuel h s = (Ok tt, s') ∧
    queues s' = delete h (queues s) ∧ cap s' = cap s ∧
    calls s' = calls s ∧
    (∀ l, reaches (mem s) (root q) l → mem s' !! l = None) ∧
    (∀ l, ¬ reaches (mem s) (root q) l → mem s' !! l = mem s !! l).
Proof.
  intros Hreach Hq Hfuel. destruct (reachable_wf _ Hreach) as [F Hinv].
  destruct (inv_live _ _ _ Hinv (mk_is_Some _ _ Hq)) as [t Ht].
  pose proof (inv_owns _ _ Hinv h t Ht) as [Hq' Hs _].
  rewrite Hq in Hq'. injection Hq' as ->. cbn [root].
  pose proof (inv_tsize _ _ _ _ Hinv Ht) as Hsz.
  pose proof (inv_size _ _ Hinv) as Hsize.
  destruct (dtor_spec F s h t fuel Hinv Ht) as (r & s' & Hrun & Hcap & Hres).
  destruct r as [[]|ex| |]; try done; [|lia].
  destruct Hres as (_ & Hqs & Hgone & Hkeep & _).
  exists s'. split_and!; try done.
  - by apply (silent_dtor _ _ _ _ _ Hrun).
  - intros l Hl. apply Hgone. by eapply reaches_locs.
  - intros l Hl. apply Hkeep. intros Hin. apply Hl. by apply locs_reaches.
Qed.

(** ** Melding an empty heap *)

Lemma meld_None_r fuel this a (s : state) :
  (0 < fuel)%nat → meld fuel this a None s = (Ok a, s).
Proof. destruct fuel as [|fuel]; [lia|]. intros _. by destruct a. Qed.

Lemma meld_None_l fuel this b (s : state) :
  (0 < fuel)%nat → meld fuel this None b s = (Ok b, s).
Proof. destruct fuel as [|fuel]; [lia|]. by intros _. Qed.

(** X18.  [merge] with an empty queue, in a state a client can reach, makes
    no comparison and writes to no node.  When the other queue is empty the
    call returns and the state is what it was.  When the receiver is empty
    and the other queue is not the receiver, the call returns, the
    receiver has the tree the other queue had, in the nodes it was in, and
    the other queue is empty. *)
Theorem merge_with_an_empty_queue (s : state) fuel (this other : positive) :
  reachable s → live s this → live s other → (0 < fuel)%nat →
  (pq_empty other s = (Ok true, s) →
   pq_merge fuel this other s = (Ok tt, s)) ∧
  (pq_empty this s = (Ok true, s) → this ≠ other →
   ∃ s', pq_merge fuel this other s = (Ok tt, s') ∧
         mem s' = mem s ∧ calls s' = calls s ∧ cap s' = cap s ∧
         (∀ t, tree_of s other t → tree_of s' this t) ∧
         pq_empty other s' = (Ok true, s')).
Proof.
  intros Hreach Hlive1 Hlive2 Hfuel.
  destruct (reachable_wf _ Hreach) as [F Hinv].
  destruct (inv_live _ _ _ Hinv Hlive1) as [t1 Ht1].
  destruct (inv_live _ _ _ Hinv Hlive2) as [t2 Ht2].
  pose proof (inv_owns _ _ Hinv _ _ Ht1) as [Hq1 Hs1 Hg1].
  pose proof (inv_owns _ _ Hinv _ _ Ht2) as [Hq2 Hs2 Hg2].
  pose proof (inv_tsize _ _ _ _ Hinv Ht1) as Hsz1.
  pose proof (inv_tsize _ _ _ _ Hinv Ht2) as Hsz2.
  pose proof (inv_size _ _ Hinv) as Hsize.
  pose proof (inv_cap _ _ Hinv) as Hcap.
  split.
  - intros He. unfold pq_merge.
    destruct (decide (this = other)) as [|Hne]; [done|].
    pose proof (empty_Leaf _ _ _ _ Hinv Ht2 He) as ->.
    rewrite (bind_ok _ _ _ _ _ (get_queue_ok _ _ _ Hq1)).
    rewrite (bind_ok _ _ _ _ _ (get_queue_ok _ _ _ Hq2)). cbn [root ptr_of].
    erewrite try_catch_ok; [reflexivity|].
    rewrite (bind_ok _ _ _ _ _ (meld_None_r _ _ _ _ Hfuel)).
    rewrite (bind_ok _ _ _ _ _ (modify_queue_ok _ _ _ _ Hq1)).
    erewrite bind_ok; cycle 1.
    { apply get_queue_ok. cbn. rewrite lookup_insert_ne by done. exact Hq2. }
    erewrite bind_ok; cycle 1.
    { apply modify_queue_ok. cbn. apply lookup_insert_eq. }
    erewrite bind_ok; cycle 1.
    { apply modify_queue_ok. cbn. rewrite lookup_insert_ne by done.
      rewrite lookup_insert_ne by done. exact Hq2. }
    erewrite modify_queue_ok; cycle 1.
    { cbn. apply lookup_insert_eq. }
    f_equal. destruct s as [m c qs cs]. unfold with_queues. cbn in *.
    f_equal. apply map_eq. intros h'. rewrite !lookup_insert.
    unfold set_cnt, set_root. cbn.
    rewrite wrap_size_t_small by (change (Z.of_nat (tsize Leaf)) with 0; lia).
    change (Z.of_nat (tsize Leaf)) with 0.
    repeat case_decide; subst; rewrite ?Hq1, ?Hq2; try done.
    do 2 f_equal. lia.
  - intros He Hne. unfold pq_merge.
    destruct (decide (this = other)) as [|_]; [done|].
    pose proof (empty_Leaf _ _ _ _ Hinv Ht1 He) as ->.
    rewrite (bind_ok _ _ _ _ _ (get_queue_ok _ _ _ Hq1)).
    rewrite (bind_ok _ _ _ _ _ (get_queue_ok _ _ _ Hq2)). cbn [root ptr_of].
    eexists. split.
    { erewrite try_catch_ok; [reflexivity|].
      rewrite (bind_ok _ _ _ _ _ (meld_None_l _ _ _ _ Hfuel)).
      rewrite (bind_ok _ _ _ _ _ (modify_queue_ok _ _ _ _ Hq1)).
      erewrite bind_ok; cycle 1.
      { apply get_queue_ok. cbn. rewrite lookup_insert_ne by done. exact Hq2. }
      erewrite bind_ok; cycle 1.
      { apply modify_queue_ok. cbn. apply lookup_insert_eq. }
      erewrite bind_ok; cycle 1.
      { apply modify_queue_ok. cbn. rewrite lookup_insert_ne by done.
        rewrite lookup_insert_ne by done. exact Hq2. }
      apply modify_queue_ok. cbn. apply lookup_insert_eq. }
    split_and!; try done.
    + intros t Ht. apply (tree_of_inv _ _ _ _ Hinv) in Ht.
      rewrite Ht2 in Ht. injection Ht as <-.
      eexists. split_and!.
      * cbn. rewrite lookup_insert_ne by done.
        rewrite lookup_insert_ne by done. rewrite lookup_insert_eq.
        reflexivity.
      * done.
      * done.
      * by destruct Hg2.
    + erewrite pq_empty_ok; cycle 1.
      { cbn. apply lookup_insert_eq. }
      done.
Qed.

(** ** Elements stay in their nodes *)

Lemma cells_locs (t : tree) l v : (l, v) ∈ cells t → l ∈ locs t.
Proof.
  induction t as [|l0 v0 d tl IHl tr IHr]; cbn [cells locs].
  - intros Hin. by apply elem_of_nil in Hin.
  - intros Hin. apply elem_of_cons in Hin as [[= -> ->]|Hin].
    { apply list_elem_of_here. }
    apply list_elem_of_further, elem_of_app.
    apply elem_of_app in Hin as [Hin|Hin]; eauto.
Qed.

Lemma cells_shape m (t : tree) l v :
  shape m t → (l, v) ∈ cells t → ∃ n : Node, m !! l = Some n ∧ val n = v.
Proof.
  induction t as [|l0 v0 d tl IHl tr IHr]; cbn [shape cells].
  - intros _ Hin. by apply elem_of_nil in Hin.
  - intros (Hl & Hsl & Hsr) Hin.
    apply elem_of_cons in Hin as [[= -> ->]|Hin]; [by eexists|].
    apply elem_of_app in Hin as [Hin|Hin]; eauto.
Qed.

Lemma cell_at (t : tree) l : l ∈ locs t → ∃ v, (l, v) ∈ cells t.
Proof.
  induction t as [|l0 v0 d tl IHl tr IHr]; cbn [cells locs].
  - intros Hin. by apply elem_of_nil in Hin.
  - intros Hin. apply elem_of_cons in Hin as [->|Hin].
    { exists v0. apply list_elem_of_here. }
    apply elem_of_app in Hin as [Hin|Hin].
    + destruct (IHl Hin) as [v Hv]. exists v.
      apply list_elem_of_further, elem_of_app. by left.
    + destruct (IHr Hin) as [v Hv]. exists v.
      apply list_elem_of_further, elem_of_app. by right.
Qed.

Lemma holds_cells F (s : state) h (t : tree) l x :
  inv F s → F !! h = Some t → holds s h l x ↔ (l, x) ∈ cells t.
Proof.
  intros Hinv Ht. destruct (inv_owns _ _ Hinv h t Ht) as [Hq Hs _]. split.
  - intros (q & n & Hq' & Hreach & Hn & <-).
    rewrite Hq in Hq'. injection Hq' as <-. cbn [root] in Hreach.
    pose proof (reaches_locs _ _ _ Hreach t Hs eq_refl) as Hin.
    destruct (cell_at _ _ Hin) as [v Hv].
    destruct (cells_shape _ _ _ _ Hs Hv) as (n' & Hn' & <-).
    rewrite Hn in Hn'. by injection Hn' as <-.
  - intros Hin. destruct (cells_shape _ _ _ _ Hs Hin) as (n & Hn & Hv).
    eexists _, n. split_and!; try done. cbn [root].
    apply locs_reaches; [done|]. by eapply cells_locs.
Qed.

Lemma link_cells l v (tl nr : tree) :
  cells (link l v tl nr) ≡ₚ (l, v) :: cells tl ++ cells nr.
Proof.
  unfold link. destruct (rank tl <? rank nr); cbn [cells]; [|done].
  by rewrite (comm app).
Qed.

Lemma meldT_cells fuel c : ∀ (a b t : tree),
  meldT fuel c a b = Ok t → cells t ≡ₚ cells a ++ cells b.
Proof.
  induction fuel as [|fuel IH]; intros a b t H; [done|].
  apply meldT_inv in H as [[-> ->]|[[-> ->]|H]]; [done|by rewrite app_nil_r|].
  destruct H as (f & la & va & da & al & ar & lb & vb & db & bl & br & nr &
                 [= <-] & -> & -> & [(_ & Hrec & ->)|(_ & Hrec & ->)]);
    rewrite link_cells, (IH _ _ _ Hrec); cbn [cells].
  - rewrite (Permutation_app_comm (_ :: _ ++ _) (_ :: _ ++ _)).
    rewrite <- app_comm_cons. by rewrite <- (assoc_L app).
  - rewrite <- app_comm_cons. by rewrite <- (assoc_L app).
Qed.

(** X19.  [push], [pop] and [merge] move no element.  When one of them
    returns in a state a client can reach, every element of the queue is
    in the node it was in, at the address it was at: after a [push] the
    queue has the nodes it had and one new node, which holds the element
    pushed; after a [pop] it has the nodes it had but the old root; after
    a [merge] of two distinct queues the receiver has the nodes of both
    and the other queue has none.  So the reference [top] returns stays
    good until the element is popped or the queue is destroyed. *)
Theorem elements_stay_in_their_nodes (s : state) fuel c v s' :
  reachable s → valid_call s c → run fuel c s = (Ok v, s') →
  place_effect c s s'.
Proof.
  intros Hreach Hvalid Hrun. destruct (reachable_wf _ Hreach) as [F Hinv].
  destruct c as [h|h o|h|h o|h|h e|h|h|h|h o];
    cbn [valid_call run place_effect] in *; try done.
  - destruct (inv_live _ _ _ Hinv Hvalid) as [t Ht].
    apply run_unit_inv in Hrun as [[] Hrun].
    destruct (push_spec F s h t fuel e Hinv Ht)
      as (r & s1 & Hrun1 & _ & _ & Hres).
    rewrite Hrun in Hrun1. injection Hrun1 as <- <-.
    destruct Hres as (t' & Hinv' & _ & _ & l0 & Hfresh & Hm).
    exists l0. split; [done|]. intros l x.
    rewrite (holds_cells _ _ _ _ _ _ Hinv' (lookup_insert_eq _ _ _)).
    rewrite (holds_cells _ _ _ _ _ _ Hinv Ht).
    rewrite (meldT_cells _ _ _ _ _ Hm). cbn [cells app].
    rewrite elem_of_app, list_elem_of_singleton. split.
    + intros [?|[= -> ->]]; eauto.
    + intros [?|[-> ->]]; eauto.
  - destruct (inv_live _ _ _ Hinv Hvalid) as [t Ht].
    apply run_unit_inv in Hrun as [[] Hrun].
    destruct t as [|l0 v0 d tl tr].
    { by rewrite (pop_empty_spec _ _ _ fuel Hinv Ht) in Hrun. }
    destruct (pop_spec F s h l0 v0 d tl tr fuel Hinv Ht)
      as (r & s1 & Hrun1 & _ & _ & Hres).
    rewrite Hrun in Hrun1. injection Hrun1 as <- <-.
    destruct Hres as (t' & Hinv' & _ & _ & Hm & _).
    destruct (inv_owns _ _ Hinv h _ Ht) as [Hq _ [Hnd _ _]].
    cbn [locs] in Hnd. apply NoDup_cons in Hnd as [Hnl _].
    eexists _, l0. split; [exact Hq|]. split; [done|]. intros l x.
    rewrite (holds_cells _ _ _ _ _ _ Hinv' (lookup_insert_eq _ _ _)).
    rewrite (holds_cells _ _ _ _ _ _ Hinv Ht).
    rewrite (meldT_cells _ _ _ _ _ Hm). cbn [cells].
    rewrite elem_of_cons. split.
    + intros Hin. split; [by right|]. intros ->.
      apply Hnl. apply elem_of_app.
      apply elem_of_app in Hin as [Hin|Hin]; apply cells_locs in Hin; eauto.
    + intros [[[= -> ->]|Hin] Hne]; done.
  - destruct Hvalid as [Hlive1 Hlive2]. intros Hne.
    apply run_unit_inv in Hrun as [[] Hrun].
    destruct (inv_live _ _ _ Hinv Hlive1) as [t1 Ht1].
    destruct (inv_live _ _ _ Hinv Hlive2) as [t2 Ht2].
    destruct (merge_spec_full F s h o t1 t2 fuel Hinv Hne Ht1 Ht2)
      as (r & s1 & Hrun1 & _ & _ & Hres).
    rewrite Hrun in Hrun1. injection Hrun1 as <- <-.
    destruct Hres as (t' & Hinv' & _ & _ & Hm).
    assert (Ht' : <[o := Leaf]> (<[h := t']> F) !! h = Some t').
    { rewrite lookup_insert_ne by done. apply lookup_insert_eq. }
    split; intros l x.
    + rewrite (holds_cells _ _ _ _ _ _ Hinv' Ht').
      rewrite (holds_cells _ _ _ _ _ _ Hinv Ht1).
      rewrite (holds_cells _ _ _ _ _ _ Hinv Ht2).
      rewrite (meldT_cells _ _ _ _ _ Hm). apply elem_of_app.
    + rewrite (holds_cells _ _ _ _ _ _ Hinv' (lookup_insert_eq _ _ _)).
      cbn [cells]. apply not_elem_of_nil.
Qed.

(** ** Copying an empty queue *)

Lemma clone_None fuel (s : state) :
  (0 < fuel)%nat → clone fuel None s = (Ok None, s).
Proof. destruct fuel as [|fuel]; [lia|]. by intros _. Qed.

(** X20.  The copy of an empty queue allocates nothing, so it returns even
    when the free store is full: in a state a client can reach, the copy
    constructor on an empty source returns, the new queue is empty, and
    the free store, the other queue objects and the log of the comparator
    calls are what they were. *)
Theorem copy_of_an_empty_queue (s : state) fuel (this other : positive) :
  reachable s → ¬ live s this → pq_empty other s = (Ok true, s) →
  (0 < fuel)%nat →
  ∃ s', pq_copy fuel this other s = (Ok tt, s') ∧
        mem s' = mem s ∧ calls s' = calls s ∧ cap s' = cap s ∧
        queues s' = <[this := mkPq None 0 default_comp]> (queues s) ∧
        pq_empty this s' = (Ok true, s').
Proof.
  intros Hreach Hdead He Hfuel. destruct (reachable_wf _ Hreach) as [F Hinv].
  pose proof (not_live_None _ _ Hdead) as Hthis.
  assert (Hlive : live s other).
  { unfold pq_empty in He. mgetx He q Hq. by exists q. }
  destruct (inv_live _ _ _ Hinv Hlive) as [t Ht].
  pose proof (empty_Leaf _ _ _ _ Hinv Ht He) as ->.
  pose proof (inv_owns _ _ Hinv _ _ Ht) as [Hq _ _].
  assert (Hne : this ≠ other) by (intros ->; congruence).
  unfold pq_copy.
  rewrite (bind_ok _ _ _ _ _ (get_queue_ok _ _ _ Hq)). cbn [cnt comp].
  unfold bind at 1, begin_lifetime at 1. rewrite Hthis.
  eexists. split.
  { erewrite try_catch_ok; [reflexivity|].
    erewrite bind_ok; cycle 1.
    { apply get_queue_ok. cbn. rewrite lookup_insert_ne by done. exact Hq. }
    cbn [root ptr_of].
    rewrite (bind_ok _ _ _ _ _ (clone_None _ _ Hfuel)).
    apply modify_queue_ok. cbn. apply lookup_insert_eq. }
  cbn. rewrite insert_insert_eq. split_and!; try done.
  erewrite pq_empty_ok; cycle 1.
  { cbn. apply lookup_insert_eq. }
  done.
Qed.

End Proofs.

(** * The theorems at work *)

Module Witnesses.

Import Examples.

Lemma Z_ltb_strict_weak_order : strict_weak_order Z.ltb.
Proof.
  split.
  - intros x. apply Z.ltb_irrefl.
  - intros x y z Hxy Hyz. apply Z.ltb_lt in Hxy, Hyz. apply Z.ltb_lt. lia.
  - intros x y z Hxy Hyx Hyz Hzy.
    apply Z.ltb_ge in Hxy, Hyx, Hyz, Hzy. split; apply Z.ltb_ge; lia.
Qed.

Lemma Z_less_computes : computes (cmp := Z_less) Z.ltb.
Proof. by intros c x y. Qed.

Lemma Z_less_agrees : agrees (cmp := Z_less) Z.ltb.
Proof. intros c x y r [= <-]. done. Qed.

Ltac well_run_tac :=
  vm_compute;
  repeat match goal with
         | |- _ ∧ _ => split
         | |- True => exact I
         | |- ∃ _, _ = _ => eexists; reflexivity
         | |- _ → False => let H := fresh in intros H; discriminate H
         | |- _ → False =>
             let H := fresh in intros [? H]; discriminate H
         end.

Lemma state1_reachable : reachable (cmp := Z_less) state1.
Proof.
  apply reachable_runs; [apply reachable_initial; reflexivity|].
  well_run_tac.
Defined.

Lemma state3_reachable : reachable (cmp := Z_less) state3.
Proof.
  apply reachable_runs; [apply reachable_initial; reflexivity|].
  well_run_tac.
Defined.

Lemma new_queue_reachable : reachable (cmp := Z_less) new_queue.
Proof.
  apply reachable_runs; [apply reachable_initial; reflexivity|].
  well_run_tac.
Defined.

(** Scenario 1: [top] returns 8, which is below no element of the queue. *)
Lemma top_is_maximum_witness :
  reachable (cmp := Z_less) state1 ∧
  pq_size (E := Empty_set) 1%positive state1 = (Ok 4, state1) ∧
  0 < 4 ∧
  ∃ m, pq_top (E := Empty_set) 1%positive state1 = (Ok m, state1) ∧
       contains state1 1%positive m ∧
       ∀ x, contains state1 1%positive x →
            (m <? x) = false ∧ ¬ ((x <? m) = false ∧ (m <? x) = true).
Proof.
  split; [exact state1_reachable|].
  split; [vm_compute; reflexivity|].
  split; [lia|].
  apply (top_is_maximum (cmp := Z_less) Z.ltb Z_ltb_strict_weak_order
           Z_less_agrees state1 1%positive 4 state1_reachable).
  - vm_compute. reflexivity.
  - lia.
Defined.

(** The comparator throws on [(5, 13)] during a [push] of 13: the [push]
    ends in that exception and the queue is as it was. *)
Lemma comparator_exception_atomic_witness :
  let c := CPush 1%positive 13 in
  let q := mkPq (Some 1%positive) 1 tt in
  let s' := snd (run (cmp := Z_picky) 100 c picky_queue) in
  melds_into c 1%positive ∧
  queues picky_queue !! 1%positive = Some q ∧
  threw (cmp := Z_picky) q picky_queue s' tt ∧
  fst (run (cmp := Z_picky) 100 c picky_queue) = Throw (comp_exn tt) ∧
  mem s' = mem picky_queue ∧ queues s' = queues picky_queue ∧
  cap s' = cap picky_queue.
Proof.
  intros c q s'.
  assert (Hc : melds_into c 1%positive) by reflexivity.
  assert (Hq : queues picky_queue !! 1%positive = Some q)
    by (vm_compute; reflexivity).
  assert (Hthrew : threw (cmp := Z_picky) q picky_queue s' tt).
  { exists 5, 13, [(5, 13)]. split; [vm_compute; reflexivity|].
    split; [apply list_elem_of_here|reflexivity]. }
  split; [exact Hc|]. split; [exact Hq|]. split; [exact Hthrew|].
  destruct (comparator_exception_atomic (cmp := Z_picky) 100 c 1%positive q
              picky_queue (fst (run (cmp := Z_picky) 100 c picky_queue)) s' tt
              Hc Hq (surjective_pairing _) Hthrew)
    as (Hr & Hm & Hqs & Hcap & _).
  split; [exact Hr|]. split; [exact Hm|]. split; [exact Hqs|exact Hcap].
Defined.

(** Scenario 1: the node that holds 5 is the left child of the root. *)
Lemma leftist_invariant_witness :
  let q := mkPq (Some 3%positive) 4 tt in
  reachable (cmp := Z_less) state1 ∧
  queues state1 !! 1%positive = Some q ∧
  reaches (mem state1) (root q) 1%positive ∧
  ∃ n dl dr,
    mem state1 !! 1%positive = Some n ∧
    npl (E := Empty_set) (left n) state1 = (Ok dl, state1) ∧
    npl (E := Empty_set) (right n) state1 = (Ok dr, state1) ∧
    (dr ≤ dl)%Z ∧ dist n = dr + 1.
Proof.
  intros q.
  assert (Hq : queues state1 !! 1%positive = Some q)
    by (vm_compute; reflexivity).
  assert (Hl : reaches (mem state1) (root q) 1%positive).
  { eapply reaches_left; [vm_compute; reflexivity|]. apply reaches_here. }
  split; [exact state1_reachable|]. split; [exact Hq|]. split; [exact Hl|].
  exact (leftist_invariant (cmp := Z_less) state1 1%positive q 1%positive
           state1_reachable Hq Hl).
Defined.

(** Scenario 3: the [merge] leaves five elements in the first queue, with
    10 on top, and none in the second. *)
Lemma merge_postcondition_witness :
  let s' := snd (pq_merge (cmp := Z_less) 100 1%positive 2%positive state3) in
  reachable (cmp := Z_less) state3 ∧
  1%positive ≠ 2%positive ∧
  pq_size (E := Empty_set) 1%positive state3 = (Ok 3, state3) ∧
  pq_size (E := Empty_set) 2%positive state3 = (Ok 2, state3) ∧
  pq_merge (cmp := Z_less) 100 1%positive 2%positive state3 = (Ok tt, s') ∧
  pq_size (E := Empty_set) 1%positive s' = (Ok (3 + 2), s') ∧
  pq_empty (E := Empty_set) 2%positive s' = (Ok true, s').
Proof.
  intros s'.
  assert (Hne : 1%positive ≠ 2%positive) by discriminate.
  assert (H1 : pq_size (E := Empty_set) 1%positive state3 = (Ok 3, state3))
    by (vm_compute; reflexivity).
  assert (H2 : pq_size (E := Empty_set) 2%positive state3 = (Ok 2, state3))
    by (vm_compute; reflexivity).
  assert (Hrun : pq_merge (cmp := Z_less) 100 1%positive 2%positive state3
                 = (Ok tt, s')) by (vm_compute; reflexivity).
  split; [exact state3_reachable|]. split; [exact Hne|].
  split; [exact H1|]. split; [exact H2|]. split; [exact Hrun|].
  destruct (merge_postcondition (cmp := Z_less) Z.ltb
              Z_ltb_strict_weak_order Z_less_agrees 100 state3
              1%positive 2%positive 3 2 (Ok tt) s'
              state3_reachable Hne H1 H2 Hrun) as (Hok & _ & _).
  destruct (Hok eq_refl) as (Hsize & Hempty & _).
  split; [exact Hsize|exact Hempty].
Defined.

(** Scenario 5: 5, 3, 8 and 1 come back out as 8, 5, 3 and 1. *)
Lemma heap_sort_witness :
  reachable (cmp := Z_less) new_queue ∧
  pq_empty (E := Empty_set) 1%positive new_queue = (Ok true, new_queue) ∧
  (size (mem new_queue) + length [5; 3; 8; 1] ≤ cap new_queue)%nat ∧
  (cap new_queue < 100)%nat ∧
  ∃ s1 ys s2,
    push_all (cmp := Z_less) 100 1%positive [5; 3; 8; 1] new_queue
    = (Ok tt, s1) ∧
    drain (cmp := Z_less) 100 1%positive (length [5; 3; 8; 1]) s1
    = (Ok ys, s2) ∧
    ys ≡ₚ [5; 3; 8; 1] ∧ descending Z.ltb ys ∧
    pq_empty (E := Empty_set) 1%positive s2 = (Ok true, s2).
Proof.
  assert (He : pq_empty (E := Empty_set) 1%positive new_queue
               = (Ok true, new_queue)) by (vm_compute; reflexivity).
  assert (Hroom : (size (mem new_queue) + length [5; 3; 8; 1]
                   ≤ cap new_queue)%nat) by (vm_compute; lia).
  assert (Hfuel : (cap new_queue < 100)%nat) by (vm_compute; lia).
  split; [exact new_queue_reachable|]. split; [exact He|].
  split; [exact Hroom|]. split; [exact Hfuel|].
  exact (heap_sort (cmp := Z_less) Z.ltb Z_ltb_strict_weak_order
           Z_less_computes 100 new_queue 1%positive [5; 3; 8; 1]
           new_queue_reachable He Hroom Hfuel).
Defined.

(** Scenario 1: four nodes can be reached from the root. *)
Lemma size_counts_nodes_witness :
  let q := mkPq (Some 3%positive) 4 tt in
  reachable (cmp := Z_less) state1 ∧
  queues state1 !! 1%positive = Some q ∧
  ∃ nodes : gset positive,
    (∀ l, l ∈ nodes ↔ reaches (mem state1) (root q) l) ∧
    pq_size (E := Empty_set) 1%positive state1
    = (Ok (Z.of_nat (size nodes)), state1).
Proof.
  intros q.
  assert (Hq : queues state1 !! 1%positive = Some q)
    by (vm_compute; reflexivity).
  split; [exact state1_reachable|]. split; [exact Hq|].
  exact (proj1 (size_counts_nodes (cmp := Z_less) state1 1%positive q
                  state1_reachable Hq)).
Defined.

(** A new queue: [top] and [pop] throw [container_is_empty]. *)
Lemma empty_queue_error_witness :
  pq_size (E := Empty_set) 1%positive new_queue = (Ok 0, new_queue) ∧
  pq_top (E := Empty_set) 1%positive new_queue
  = (Throw container_is_empty, new_queue) ∧
  pq_pop (cmp := Z_less) 100 1%positive new_queue
  = (Throw container_is_empty, new_queue).
Proof.
  assert (Hs : pq_size (E := Empty_set) 1%positive new_queue
               = (Ok 0, new_queue)) by (vm_compute; reflexivity).
  split; [exact Hs|].
  destruct (empty_queue_error (cmp := Z_less) 100 1%positive 0 new_queue Hs)
    as (Hzero & _).
  exact (Hzero eq_refl).
Defined.

(** * The scenarios of the spec *)

Example scenario_1 :
  pq_top (E := Empty_set) 1%positive state1 = (Ok 8, state1) ∧
  pq_size (E := Empty_set) 1%positive state1 = (Ok 4, state1).
Proof. split; vm_compute; reflexivity. Qed.

Example scenario_2 :
  let s := runs (cmp := Z_less) 100 [CPop 1%positive] state1 in
  pq_top (E := Empty_set) 1%positive s = (Ok 5, s) ∧
  pq_size (E := Empty_set) 1%positive s = (Ok 3, s).
Proof. split; vm_compute; reflexivity. Qed.

Example scenario_3 :
  let s := runs (cmp := Z_less) 100 [CMerge 1%positive 2%positive] state3 in
  pq_size (E := Empty_set) 1%positive s = (Ok 5, s) ∧
  pq_top (E := Empty_set) 1%positive s = (Ok 10, s) ∧
  pq_size (E := Empty_set) 2%positive s = (Ok 0, s).
Proof. split_and!; vm_compute; reflexivity. Qed.

Example scenario_4 :
  let r := fst (run (cmp := Z_picky) 100 (CPush 1%positive 13) picky_queue) in
  let s := snd (run (cmp := Z_picky) 100 (CPush 1%positive 13) picky_queue) in
  r = Throw (comp_exn tt) ∧
  pq_size (E := unit) 1%positive s = (Ok 1, s) ∧
  pq_top (E := unit) 1%positive s = (Ok 5, s) ∧
  pq_size (E := unit) 1%positive picky_queue = (Ok 1, picky_queue) ∧
  pq_top (E := unit) 1%positive picky_queue = (Ok 5, picky_queue).
Proof. split_and!; vm_compute; reflexivity. Qed.

Example scenario_5 :
  ∃ s, drain (cmp := Z_less) 100 1%positive 4 state1 = (Ok [8; 5; 3; 1], s) ∧
       pq_size (E := Empty_set) 1%positive s = (Ok 0, s) ∧
       pq_top (E := Empty_set) 1%positive s = (Throw container_is_empty, s) ∧
       pq_pop (cmp := Z_less) 100 1%positive s
       = (Throw container_is_empty, s).
Proof.
  eexists. split; [vm_compute; reflexivity|]. split_and!; vm_compute; reflexivity.
Qed.

(** * The copy that fails half-way *)

(** C8, at a failing input.  The queue 1 holds 5 and 3 and the free store
    has room for one more node.  The copy constructor and the
    copy-assignment both end in [bad_alloc] when [clone] asks for its
    second node.  The target is as it was (there is none for the
    constructor, and the queue 2 is unchanged by the assignment), but the
    copy [clone] had made of the root stays in the free store, at an
    address nothing points to. *)
Theorem failed_copy_leaks :
  let leaked := mkNode 5 None None 1 in
  let s' :=
    with_mem tight_store (<[3%positive := leaked]> (mem tight_store)) in
  run (cmp := Z_less) 100 (CCopy 3%positive 1%positive) tight_store
  = (Throw bad_alloc, s') ∧
  run (cmp := Z_less) 100 (CAssign 2%positive 1%positive) tight_store
  = (Throw bad_alloc, s') ∧
  leaks tight_store s'.
Proof.
  intros leaked s'.
  assert (Hfresh : mem tight_store !! 3%positive = None)
    by (vm_compute; reflexivity).
  split; [vm_compute; reflexivity|].
  split; [vm_compute; reflexivity|].
  split; [reflexivity|]. split.
  - by apply insert_subseteq.
  - exists 3%positive. split; [exact Hfresh|].
    exists leaked. apply lookup_insert_eq.
Qed.

(** * Further properties, at the scenarios *)

Lemma tight_store_reachable : reachable (cmp := Z_less) tight_store.
Proof.
  apply reachable_runs; [apply reachable_initial; reflexivity|].
  well_run_tac.
Defined.

(** Scenario 1: a [pop] runs to completion. *)
Lemma calls_are_defined_witness :
  reachable (cmp := Z_less) state1 ∧
  valid_call state1 (CPop 1%positive) ∧
  (cap state1 < 100)%nat ∧
  ∃ r s', run (cmp := Z_less) 100 (CPop 1%positive) state1 = (r, s') ∧
          r ≠ Fault ∧ r ≠ OutOfFuel ∧
          reachable (cmp := Z_less) s' ∧ cap s' = cap state1.
Proof.
  assert (Hv : valid_call state1 (CPop 1%positive))
    by (vm_compute; eexists; reflexivity).
  assert (Hf : (cap state1 < 100)%nat) by (vm_compute; lia).
  split; [exact state1_reachable|]. split; [exact Hv|]. split; [exact Hf|].
  exact (calls_are_defined (cmp := Z_less) state1 100 (CPop 1%positive)
           state1_reachable Hv Hf).
Defined.


(** A [push] into a full free store. *)
Lemma push_allocation_failure_witness :
  pq_push (cmp := Z_less) 100 1%positive 7 full_store
  = (Throw bad_alloc, full_store) ∧
  (cap full_store ≤ size (mem full_store))%nat.
Proof.
  assert (Hrun : pq_push (cmp := Z_less) 100 1%positive 7 full_store
                 = (Throw bad_alloc, full_store)) by (vm_compute; reflexivity).
  split; [exact Hrun|].
  destruct (push_allocation_failure (cmp := Z_less) 100 1%positive 7
              full_store _ _ Hrun) as [[Hfull _] _].
  exact (Hfull eq_refl).
Defined.

(** Scenario 3: a [push] into the first queue leaves the second alone. *)
Lemma calls_are_local_witness :
  let c := CPush 1%positive 7 in
  let s' := snd (run (cmp := Z_less) 100 c state3) in
  valid_call state3 c ∧
  run (cmp := Z_less) 100 c state3 = (Ok VUnit, s') ∧
  ¬ touches c 2%positive ∧
  queues s' !! 2%positive = queues state3 !! 2%positive ∧
  (∀ x, contains state3 2%positive x ↔ contains s' 2%positive x).
Proof.
  intros c s'.
  assert (Hv : valid_call state3 c) by (vm_compute; eexists; reflexivity).
  assert (Hrun : run (cmp := Z_less) 100 c state3 = (Ok VUnit, s'))
    by (vm_compute; reflexivity).
  assert (Hr : (Ok VUnit : outcome (@exn Empty_set) (@value Z)) ≠ OutOfFuel)
    by discriminate.
  assert (Hh : ¬ touches c 2%positive) by (cbn; discriminate).
  destruct (calls_are_local (cmp := Z_less) state3 100 c _ s' 2%positive
              state3_reachable Hv Hrun Hr Hh) as (Hq & _ & _ & Hc).
  split; [exact Hv|]. split; [exact Hrun|]. split; [exact Hh|].
  split; [exact Hq|exact Hc].
Defined.

(** Two queues, a copy of one of them, an assignment and the destruction
    of the copy: no node is garbage at the end. *)
Lemma no_leak_witness :
  reachable (cmp := Z_less) (initial 20) ∧
  garbage_free (initial 20 : @state Z unit) ∧
  well_run (cmp := Z_less) 100 copy_program (initial 20) ∧
  no_failed_copy (cmp := Z_less) 100 copy_program (initial 20) = true ∧
  garbage_free (runs (cmp := Z_less) 100 copy_program (initial 20)).
Proof.
  assert (Hreach : reachable (cmp := Z_less) (initial 20))
    by (apply reachable_initial; reflexivity).
  assert (Hgf : garbage_free (initial 20 : @state Z unit))
    by apply initial_garbage_free.
  assert (Hok : well_run (cmp := Z_less) 100 copy_program (initial 20))
    by well_run_tac.
  assert (Hclean : no_failed_copy (cmp := Z_less) 100 copy_program (initial 20)
                   = true) by (vm_compute; reflexivity).
  split; [exact Hreach|]. split; [exact Hgf|]. split; [exact Hok|].
  split; [exact Hclean|].
  exact (no_leak (cmp := Z_less) 100 copy_program (initial 20)
           Hreach Hgf Hok Hclean).
Defined.

(** Scenario 1: a [push] into the queue of four elements makes at most two
    comparisons. *)
Lemma comparisons_are_logarithmic_witness :
  let c := CPush 1%positive 7 in
  let s' := snd (run (cmp := Z_less) 100 c state1) in
  comparison_bound state1 c = 2 ∧
  ∃ new, calls s' = new ++ calls state1 ∧
         Z.of_nat (length new) ≤ comparison_bound state1 c.
Proof.
  intros c s'.
  assert (Hv : valid_call state1 c) by (vm_compute; eexists; reflexivity).
  split; [vm_compute; reflexivity|].
  exact (comparisons_are_logarithmic (cmp := Z_less) state1 100 c _ s'
           state1_reachable Hv (surjective_pairing _)).
Defined.

(** Scenario 3: the first queue and the second share no node. *)
Lemma queues_own_disjoint_trees_witness :
  let q := mkPq (Some 1%positive) 3 tt in
  queues state3 !! 1%positive = Some q ∧
  (root q = None ↔ cnt q = 0) ∧
  0 ≤ cnt q ≤ Z.of_nat (cap state3) ∧
  ∀ h' q' l, h' ≠ 1%positive → queues state3 !! h' = Some q' →
             reaches (mem state3) (root q) l →
             ¬ reaches (mem state3) (root q') l.
Proof.
  intros q.
  assert (Hq : queues state3 !! 1%positive = Some q)
    by (vm_compute; reflexivity).
  split; [exact Hq|].
  destruct (queues_own_disjoint_trees (cmp := Z_less) state3 1%positive q
              state3_reachable Hq) as (Hroot & Hcnt & _ & _ & _ & Hdisj).
  split; [exact Hroot|]. split; [exact Hcnt|exact Hdisj].
Defined.

(** Scenario 1: the node that holds 5 has [dist] one. *)
Lemma dist_is_logarithmic_witness :
  let q := mkPq (Some 3%positive) 4 tt in
  let n := mkNode 5 (Some 2%positive) None 1 in
  queues state1 !! 1%positive = Some q ∧
  reaches (mem state1) (root q) 1%positive ∧
  mem state1 !! 1%positive = Some n ∧
  1 ≤ dist n ∧ 2 ^ dist n ≤ cnt q + 1 ∧ dist n ≤ 64 ∧
  wrap_int (dist n + 1) = dist n + 1.
Proof.
  intros q n.
  assert (Hq : queues state1 !! 1%positive = Some q)
    by (vm_compute; reflexivity).
  assert (Hl : reaches (mem state1) (root q) 1%positive).
  { eapply reaches_left; [vm_compute; reflexivity|]. apply reaches_here. }
  assert (Hn : mem state1 !! 1%positive = Some n) by (vm_compute; reflexivity).
  split; [exact Hq|]. split; [exact Hl|]. split; [exact Hn|].
  exact (dist_is_logarithmic (cmp := Z_less) state1 1%positive q 1%positive n
           state1_reachable Hq Hl Hn).
Defined.

(** Scenario 1: the root holds 8 and its left child 5. *)
Lemma heap_order_everywhere_witness :
  let q := mkPq (Some 3%positive) 4 tt in
  let n := mkNode 8 (Some 1%positive) (Some 4%positive) 2 in
  let nc := mkNode 5 (Some 2%positive) None 1 in
  queues state1 !! 1%positive = Some q ∧
  mem state1 !! 3%positive = Some n ∧
  mem state1 !! 1%positive = Some nc ∧
  (val n <? val nc) = false.
Proof.
  intros q n nc.
  assert (Hq : queues state1 !! 1%positive = Some q)
    by (vm_compute; reflexivity).
  assert (Hn : mem state1 !! 3%positive = Some n) by (vm_compute; reflexivity).
  assert (Hnc : mem state1 !! 1%positive = Some nc)
    by (vm_compute; reflexivity).
  split; [exact Hq|]. split; [exact Hn|]. split; [exact Hnc|].
  exact (heap_order_everywhere (cmp := Z_less) Z.ltb Z_ltb_strict_weak_order
           Z_less_agrees state1 1%positive q 3%positive n 1%positive nc
           state1_reachable Hq (reaches_here _ _) Hn (or_introl eq_refl) Hnc).
Defined.

(** Scenario 1: a [push] of 7 leaves 8 on top. *)
Lemma push_postcondition_witness :
  let s' := snd (pq_push (cmp := Z_less) 100 1%positive 7 state1) in
  pq_push (cmp := Z_less) 100 1%positive 7 state1 = (Ok tt, s') ∧
  pq_top (E := Empty_set) 1%positive state1 = (Ok 8, state1) ∧
  pq_top (E := Empty_set) 1%positive s' = (Ok 8, s') ∧
  (∀ x, contains s' 1%positive x ↔ x = 7 ∨ contains state1 1%positive x).
Proof.
  intros s'.
  assert (Hrun : pq_push (cmp := Z_less) 100 1%positive 7 state1 = (Ok tt, s'))
    by (vm_compute; reflexivity).
  assert (Htop : pq_top (E := Empty_set) 1%positive state1 = (Ok 8, state1))
    by (vm_compute; reflexivity).
  destruct (push_postcondition (cmp := Z_less) Z.ltb Z_less_agrees 100 state1
              1%positive 7 s' state1_reachable Hrun)
    as (_ & Hc & _ & _ & Hnew).
  split; [exact Hrun|]. split; [exact Htop|].
  split; [exact (Hnew 8 Htop)|exact Hc].
Defined.

(** Scenario 1: a [pop] takes 8 out of the queue. *)
Lemma pop_postcondition_witness :
  let s' := snd (pq_pop (cmp := Z_less) 100 1%positive state1) in
  pq_pop (cmp := Z_less) 100 1%positive state1 = (Ok tt, s') ∧
  ∃ m (t t' : tree) l,
    pq_top (E := Empty_set) 1%positive state1 = (Ok m, state1) ∧
    tree_of state1 1%positive t ∧ tree_of s' 1%positive t' ∧
    elems t ≡ₚ m :: elems t' ∧
    ptr_of t = Some l ∧ mem s' !! l = None ∧
    S (size (mem s')) = size (mem state1).
Proof.
  intros s'.
  assert (Hrun : pq_pop (cmp := Z_less) 100 1%positive state1 = (Ok tt, s'))
    by (vm_compute; reflexivity).
  split; [exact Hrun|].
  exact (pop_postcondition (cmp := Z_less) 100 state1 1%positive s'
           state1_reachable Hrun).
Defined.

(** Scenario 1: a [push] of 9 and a [pop] give the queue its tree back. *)
Lemma push_pop_round_trip_witness :
  live state1 1%positive ∧
  (size (mem state1) < cap state1)%nat ∧ (cap state1 < 100)%nat ∧
  (∀ m, pq_top (E := Empty_set) 1%positive state1 = (Ok m, state1) →
        (m <? 9) = true) ∧
  ∃ s1 s2,
    pq_push (cmp := Z_less) 100 1%positive 9 state1 = (Ok tt, s1) ∧
    pq_top (E := Empty_set) 1%positive s1 = (Ok 9, s1) ∧
    pq_pop (cmp := Z_less) 100 1%positive s1 = (Ok tt, s2) ∧
    (∀ t, tree_of state1 1%positive t → tree_of s2 1%positive t) ∧
    (∀ x, contains s2 1%positive x ↔ contains state1 1%positive x) ∧
    size (mem s2) = size (mem state1).
Proof.
  assert (Hlive : live state1 1%positive)
    by (vm_compute; eexists; reflexivity).
  assert (Hroom : (size (mem state1) < cap state1)%nat) by (vm_compute; lia).
  assert (Hfuel : (cap state1 < 100)%nat) by (vm_compute; lia).
  assert (Htop : ∀ m, pq_top (E := Empty_set) 1%positive state1
                      = (Ok m, state1) → (m <? 9) = true).
  { intros m Hm. vm_compute in Hm. injection Hm as <-. reflexivity. }
  split; [exact Hlive|]. split; [exact Hroom|]. split; [exact Hfuel|].
  split; [exact Htop|].
  exact (push_pop_round_trip (cmp := Z_less) Z.ltb Z_less_computes 100 state1
           1%positive 9 state1_reachable Hlive Hroom Hfuel Htop).
Defined.

(** Scenario 1: a copy of the queue has its elements, in nodes of its
    own. *)
Lemma copy_is_deep_witness :
  let c := CCopy 2%positive 1%positive in
  let s' := snd (run (cmp := Z_less) 100 c state1) in
  valid_call state1 c ∧
  run (cmp := Z_less) 100 c state1 = (Ok VUnit, s') ∧
  ∃ (t t' : tree) q q',
    tree_of state1 1%positive t ∧ tree_of s' 1%positive t ∧
    tree_of s' 2%positive t' ∧
    same_data t t' ∧ elems t' = elems t ∧
    queues state1 !! 1%positive = Some q ∧
    queues s' !! 1%positive = Some q ∧
    queues s' !! 2%positive = Some q' ∧ comp q' = comp q ∧ cnt q' = cnt q ∧
    (∀ l, reaches (mem s') (root q') l → ¬ reaches (mem s') (root q) l) ∧
    (∀ l, reaches (mem state1) (root q) l → mem s' !! l = mem state1 !! l) ∧
    fst (pq_top (E := Empty_set) 2%positive s')
    = fst (pq_top (E := Empty_set) 1%positive state1).
Proof.
  intros c s'.
  assert (Hv : valid_call state1 c).
  { split; [intros [q Hq]; vm_compute in Hq; discriminate Hq|].
    vm_compute. eexists. reflexivity. }
  assert (Hrun : run (cmp := Z_less) 100 c state1 = (Ok VUnit, s'))
    by (vm_compute; reflexivity).
  split; [exact Hv|]. split; [exact Hrun|].
  exact (copy_is_deep (cmp := Z_less) state1 100 c 2%positive 1%positive
           VUnit s' state1_reachable (or_introl eq_refl) Hv Hrun).
Defined.


(** Scenario 1: the destructor deletes the four nodes of the queue. *)
Lemma destructor_frees_the_tree_witness :
  let q := mkPq (Some 3%positive) 4 tt in
  queues state1 !! 1%positive = Some q ∧ (cap state1 < 100)%nat ∧
  ∃ s', pq_dtor (E := Empty_set) 100 1%positive state1 = (Ok tt, s') ∧
    queues s' = delete 1%positive (queues state1) ∧ cap s' = cap state1 ∧
    calls s' = calls state1 ∧
    (∀ l, reaches (mem state1) (root q) l → mem s' !! l = None) ∧
    (∀ l, ¬ reaches (mem state1) (root q) l → mem s' !! l = mem state1 !! l).
Proof.
  intros q.
  assert (Hq : queues state1 !! 1%positive = Some q)
    by (vm_compute; reflexivity).
  assert (Hfuel : (cap state1 < 100)%nat) by (vm_compute; lia).
  split; [exact Hq|]. split; [exact Hfuel|].
  exact (destructor_frees_the_tree (cmp := Z_less) state1 100 1%positive q
           state1_reachable Hq Hfuel).
Defined.

(** A queue of two elements and an empty queue: a [merge] of the empty
    queue into the other changes nothing. *)
Lemma merge_with_an_empty_queue_witness :
  live tight_store 1%positive ∧ live tight_store 2%positive ∧
  pq_empty (E := Empty_set) 2%positive tight_store = (Ok true, tight_store) ∧
  pq_merge (cmp := Z_less) 100 1%positive 2%positive tight_store
  = (Ok tt, tight_store).
Proof.
  assert (H1 : live tight_store 1%positive)
    by (vm_compute; eexists; reflexivity).
  assert (H2 : live tight_store 2%positive)
    by (vm_compute; eexists; reflexivity).
  assert (He : pq_empty (E := Empty_set) 2%positive tight_store
               = (Ok true, tight_store)) by (vm_compute; reflexivity).
  assert (Hfuel : (0 < 100)%nat) by lia.
  split; [exact H1|]. split; [exact H2|]. split; [exact He|].
  exact (proj1 (merge_with_an_empty_queue (cmp := Z_less) tight_store 100
                  1%positive 2%positive tight_store_reachable H1 H2 Hfuel)
           He).
Defined.

(** Scenario 3: the second queue is assigned the first; its two nodes are
    deleted and three are made. *)
Lemma assignment_frees_the_old_tree_witness :
  let q := mkPq (Some 5%positive) 2 tt in
  let o := mkPq (Some 1%positive) 3 tt in
  let s' := snd (pq_assign (E := Empty_set) 100 2%positive 1%positive state3) in
  queues state3 !! 2%positive = Some q ∧
  queues state3 !! 1%positive = Some o ∧
  pq_assign (E := Empty_set) 100 2%positive 1%positive state3 = (Ok tt, s') ∧
  (∀ l, reaches (mem state3) (root q) l → mem s' !! l = None) ∧
  Z.of_nat (size (mem s')) + cnt q = Z.of_nat (size (mem state3)) + cnt o ∧
  (∀ h, live s' h ↔ live state3 h).
Proof.
  intros q o s'.
  assert (Hne : 2%positive ≠ 1%positive) by discriminate.
  assert (Hq : queues state3 !! 2%positive = Some q)
    by (vm_compute; reflexivity).
  assert (Ho : queues state3 !! 1%positive = Some o)
    by (vm_compute; reflexivity).
  assert (Hrun : pq_assign (E := Empty_set) 100 2%positive 1%positive state3
                 = (Ok tt, s')) by (vm_compute; reflexivity).
  split; [exact Hq|]. split; [exact Ho|]. split; [exact Hrun|].
  exact (assignment_frees_the_old_tree (cmp := Z_less) state3 100 2%positive
           1%positive q o s' state3_reachable Hne Hq Ho Hrun).
Defined.


(** Scenario 1: after a [pop], 5 is still in the node at address 1. *)
Lemma elements_stay_in_their_nodes_witness :
  let c := CPop 1%positive in
  let s' := snd (run (cmp := Z_less) 100 c state1) in
  valid_call state1 c ∧
  run (cmp := Z_less) 100 c state1 = (Ok VUnit, s') ∧
  place_effect c state1 s'.
Proof.
  intros c s'.
  assert (Hv : valid_call state1 c) by (vm_compute; eexists; reflexivity).
  assert (Hrun : run (cmp := Z_less) 100 c state1 = (Ok VUnit, s'))
    by (vm_compute; reflexivity).
  split; [exact Hv|]. split; [exact Hrun|].
  exact (elements_stay_in_their_nodes (cmp := Z_less) state1 100 c VUnit s'
           state1_reachable Hv Hrun).
Defined.

(** The copy of the empty second queue allocates no node. *)
Lemma copy_of_an_empty_queue_witness :
  ¬ live tight_store 3%positive ∧
  pq_empty (E := Empty_set) 2%positive tight_store = (Ok true, tight_store) ∧
  ∃ s', pq_copy (E := Empty_set) 100 3%positive 2%positive tight_store
        = (Ok tt, s') ∧
        mem s' = mem tight_store ∧ calls s' = calls tight_store ∧
        cap s' = cap tight_store ∧
        queues s' = <[3%positive := mkPq None 0 tt]> (queues tight_store) ∧
        pq_empty (E := Empty_set) 3%positive s' = (Ok true, s').
Proof.
  assert (Hdead : ¬ live tight_store 3%positive).
  { intros [q Hq]. vm_compute in Hq. discriminate Hq. }
  assert (He : pq_empty (E := Empty_set) 2%positive tight_store
               = (Ok true, tight_store)) by (vm_compute; reflexivity).
  assert (Hfuel : (0 < 100)%nat) by lia.
  split; [exact Hdead|]. split; [exact He|].
  exact (copy_of_an_empty_queue (cmp := Z_less) tight_store 100 3%positive
           2%positive tight_store_reachable Hdead He Hfuel).
Defined.

End Witnesses.
